(** * PixelForge: a shallow embedding of the ray-tracing core

    The JavaScript sources [bvh.js], [environment.js], [raytrace.js] and the
    metaball mesh generator of [shader-source.js] are embedded function by
    function, first, with [transformMesh] of [raytrace-common.js], the
    normals and rotation of [primitives.js] and the scanline helpers of
    [software-render.js]; the properties follow.

    - A JS [number] is an IEEE-754 binary64 value: Rocq's primitive [float],
      with the same rounding, infinities, signed zeros and NaN.
    - Array indices and loop counters are [nat]; a read outside an array
      yields [undefined] in JS and the property access that follows throws a
      [TypeError]: the embedding returns [None] there.
    - Mutated arrays and module-level variables are threaded explicitly. *)

From Stdlib Require Import ZArith Floats Lia Bool.
From Stdlib Require Uint63.
From stdpp Require Import base list option gmap.

Set Warnings "-inexact-float".
Set Default Proof Using "Type".

Local Open Scope float_scope.

(** ** JavaScript numbers *)

Definition number : Set := float.

Definition Infinity : number := infinity.
Definition NaN : number := nan.

Definition Math_abs (x : number) : number := abs x.
Definition Math_sqrt (x : number) : number := sqrt x.

(** [a > b] and [a >= b] of JS: IEEE comparisons, false on NaN. *)
Definition gtb (a b : number) : bool := b <? a.
Definition geb (a b : number) : bool := b <=? a.

(** An integer-valued JS number from its integer (exact below 2^53). *)
Definition num_of_Z (z : Z) : number :=
  match z with
  | Z0 => 0
  | Zpos _ => of_uint63 (Uint63.of_Z z)
  | Zneg p => - of_uint63 (Uint63.of_Z (Zpos p))
  end.

Definition num_of_nat (n : nat) : number := num_of_Z (Z.of_nat n).

(** The integer [floor x] of a finite number; 0 for NaN and infinities. *)
Definition floor_Z (x : number) : Z :=
  match Prim2SF x with
  | S754_finite s m e => Z.shiftl (if s then Zneg m else Zpos m) e
  | _ => 0%Z
  end.

(** The integer part of [x], rounded toward zero; 0 for NaN and infinities. *)
Definition trunc_Z (x : number) : Z :=
  match Prim2SF x with
  | S754_finite s m e =>
      let a := Z.shiftl (Zpos m) e in if s then (- a)%Z else a
  | _ => 0%Z
  end.

(** ECMAScript [ToInt32]: the integer part modulo 2^32, read as signed. *)
Definition wrap_int32 (z : Z) : Z :=
  ((z + 2147483648) mod 4294967296 - 2147483648)%Z.

Definition ToInt32 (x : number) : Z := wrap_int32 (trunc_Z x).

(** [Math.floor]: numbers with a non-negative binary exponent are integers
    already; NaN, infinities and zeros are returned as they are. *)
Definition Math_floor (x : number) : number :=
  match Prim2SF x with
  | S754_finite _ _ e => if (e <? 0)%Z then num_of_Z (floor_Z x) else x
  | _ => x
  end.

(** [Math.min] and [Math.max] of two numbers: NaN if either is NaN, and
    [-0] counts as smaller than [+0]. *)
Definition Math_min (a b : number) : number :=
  if is_nan a || is_nan b then NaN
  else if a <? b then a
  else if b <? a then b
  else if get_sign a then a else b.

Definition Math_max (a b : number) : number :=
  if is_nan a || is_nan b then NaN
  else if a <? b then b
  else if b <? a then a
  else if get_sign a then b else a.

(** [Math.fround]: round to the nearest binary32 value, ties to even. A
    [Float32Array] cell holds [Math_fround] of the number stored in it. *)
Definition Math_fround (x : number) : number :=
  match Prim2SF x with
  | S754_finite s m e => SF2Prim (binary_round 24 128 s m e)
  | _ => x
  end.

(** ** Vectors *)

Record vec3 : Set := Vec3 { vx : number; vy : number; vz : number }.

(** [normalize] of primitives.js. *)
Definition normalize (v : vec3) : vec3 :=
  let len := Math_sqrt (vx v * vx v + vy v * vy v + vz v * vz v) in
  if len =? 0 then Vec3 0 0 0
  else Vec3 (vx v / len) (vy v / len) (vz v / len).

(** ** Constants of raytrace-common.js and floor.js *)

Definition RT_EPSILON : number := 1e-6.
Definition RT_SHADOW_BIAS : number := 0.5.
Definition RT_SPECULAR_EXP : number := 64.
Definition RT_SPECULAR_STR : number := 0.5.
Definition RT_SHADOW_SAMPLES : nat := 16.
Definition RT_LIGHT_RADIUS : number := 0.15.
Definition RT_AO_SAMPLES : nat := 8.
Definition RT_AO_RADIUS : number := 40.
Definition RT_AO_STRENGTH : number := 0.6.
Definition RT_MAX_BOUNCES : nat := 3.

Definition FLOOR_Y : number := 120.
Definition FLOOR_TILE : number := 80.
Definition FLOOR_HALF : number := 6.
Definition FLOOR_Z_OFFSET : number := 100.

(** ** bvh.js: ray-primitive intersection *)

Record Hit : Set := mkHit { hit_t : number; hit_u : number; hit_v : number }.

(** [rayTriangleIntersect]: [None] is the JS [null]. *)
Definition rayTriangleIntersect (ox oy oz dx dy dz : number) (v0 v1 v2 : vec3)
  : option Hit :=
  let e1x := vx v1 - vx v0 in let e1y := vy v1 - vy v0 in let e1z := vz v1 - vz v0 in
  let e2x := vx v2 - vx v0 in let e2y := vy v2 - vy v0 in let e2z := vz v2 - vz v0 in
  let px := dy * e2z - dz * e2y in
  let py := dz * e2x - dx * e2z in
  let pz := dx * e2y - dy * e2x in
  let det := e1x * px + e1y * py + e1z * pz in
  if Math_abs det <? RT_EPSILON then None else
  let invDet := 1 / det in
  let tx := ox - vx v0 in let ty := oy - vy v0 in let tz := oz - vz v0 in
  let u := (tx * px + ty * py + tz * pz) * invDet in
  if (u <? 0) || gtb u 1 then None else
  let qx := ty * e1z - tz * e1y in
  let qy := tz * e1x - tx * e1z in
  let qz := tx * e1y - ty * e1x in
  let v := (dx * qx + dy * qy + dz * qz) * invDet in
  if (v <? 0) || gtb (u + v) 1 then None else
  let t := (e2x * qx + e2y * qy + e2z * qz) * invDet in
  if t <? RT_EPSILON then None else
  Some (mkHit t u v).

(** [rayAABBIntersect]: the slab method. *)
Definition rayAABBIntersect (ox oy oz dx dy dz : number) (bmin bmax : vec3) : bool :=
  let invDx := 1 / dx in let invDy := 1 / dy in let invDz := 1 / dz in
  let tmin := (vx bmin - ox) * invDx in
  let tmax := (vx bmax - ox) * invDx in
  let '(tmin, tmax) := if gtb tmin tmax then (tmax, tmin) else (tmin, tmax) in
  let tymin := (vy bmin - oy) * invDy in
  let tymax := (vy bmax - oy) * invDy in
  let '(tymin, tymax) := if gtb tymin tymax then (tymax, tymin) else (tymin, tymax) in
  if gtb tmin tymax || gtb tymin tmax then false else
  let tmin := if gtb tymin tmin then tymin else tmin in
  let tmax := if tymax <? tmax then tymax else tmax in
  let tzmin := (vz bmin - oz) * invDz in
  let tzmax := (vz bmax - oz) * invDz in
  let '(tzmin, tzmax) := if gtb tzmin tzmax then (tzmax, tzmin) else (tzmin, tzmax) in
  (tmin <=? tzmax) && (tzmin <=? tmax).

(** ** bvh.js: construction *)

(** A triangle is three vertex indices. *)
Record Tri : Set := mkTri { ta : nat; tb : nat; tc : nat }.

Record Box : Set := mkBox { box_min : vec3; box_max : vec3 }.

(** The six running bounds of [computeTriangleAABB], widened by one vertex:
    [if (v[k] < bmin_k) bmin_k = v[k]; if (v[k] > bmax_k) bmax_k = v[k]]. *)
Definition lower (m v : number) : number := if v <? m then v else m.
Definition upper (m v : number) : number := if gtb v m then v else m.

Definition growBox (b : Box) (v : vec3) : Box :=
  mkBox
    (Vec3 (lower (vx (box_min b)) (vx v)) (lower (vy (box_min b)) (vy v))
          (lower (vz (box_min b)) (vz v)))
    (Vec3 (upper (vx (box_max b)) (vx v)) (upper (vy (box_max b)) (vy v))
          (upper (vz (box_max b)) (vz v))).

Definition emptyBox : Box :=
  mkBox (Vec3 Infinity Infinity Infinity)
        (Vec3 (- Infinity) (- Infinity) (- Infinity)).

(** The entries of [triInfos]: a triangle index and its centroid. *)
Record TriInfo : Set := mkTriInfo { idx : nat; cx : number; cy : number; cz : number }.

(** The three vertices of triangle [i]; [None] when the triangle or one of its
    vertices is missing (the JS code throws on the property access). *)
Definition triVerts (worldVerts : list vec3) (triangles : list Tri) (i : nat)
  : option (vec3 * vec3 * vec3) :=
  tri ← triangles !! i;
  v0 ← worldVerts !! ta tri;
  v1 ← worldVerts !! tb tri;
  v2 ← worldVerts !! tc tri;
  Some (v0, v1, v2).

(** The loop of [computeTriangleAABB], from index [i], [count] rounds. *)
Fixpoint aabbLoop (worldVerts : list vec3) (triangles : list Tri)
    (triInfos : list TriInfo) (i count : nat) (acc : Box) : option Box :=
  match count with
  | O => Some acc
  | S count' =>
      info ← triInfos !! i;
      '(v0, v1, v2) ← triVerts worldVerts triangles (idx info);
      aabbLoop worldVerts triangles triInfos (S i) count'
        (growBox (growBox (growBox acc v0) v1) v2)
  end.

Definition computeTriangleAABB (worldVerts : list vec3) (triangles : list Tri)
    (triInfos : list TriInfo) (start end_ : nat) : option Box :=
  aabbLoop worldVerts triangles triInfos start (end_ - start)%nat emptyBox.

(** A node of the flat BVH array. [left], [right] and [triIdx] are [-1] where
    the code stores [-1]. *)
Record BVHNode : Set := mkNode {
  bmin : vec3; bmax : vec3; left : Z; right : Z; triIdx : Z }.

(** The sort key chosen in [buildNode]. *)
Inductive Axis : Set := AxisX | AxisY | AxisZ.

Definition keyOf (k : Axis) (t : TriInfo) : number :=
  match k with AxisX => cx t | AxisY => cy t | AxisZ => cz t end.

(** [Array.prototype.sort] with the comparator [(a, b) => a[key] - b[key]].
    The sort is stable: an element stays in front of the later ones unless
    the comparator puts one of them strictly before it. A comparator result
    that is NaN counts as 0; with NaN keys the comparator is not consistent
    and ECMAScript leaves the order to the engine: this is one such order,
    and the properties below use only that the result is a permutation. *)
Definition cmpKey (k : Axis) (a b : TriInfo) : number := keyOf k a - keyOf k b.

Fixpoint sortInsert (k : Axis) (x : TriInfo) (l : list TriInfo) : list TriInfo :=
  match l with
  | [] => [x]
  | y :: ys => if cmpKey k y x <? 0 then y :: sortInsert k x ys else x :: y :: ys
  end.

Definition sortBy (k : Axis) (l : list TriInfo) : list TriInfo :=
  foldr (sortInsert k) [] l.

(** [triInfos.slice(start, end)]. *)
Definition slice {A} (start end_ : nat) (l : list A) : list A :=
  take (end_ - start)%nat (drop start l).

(** [for (i = 0; i < sub.length; i++) triInfos[start + i] = sub[i]]. *)
Fixpoint writeBack {A} (l : list A) (start : nat) (sub : list A) : list A :=
  match sub with
  | [] => l
  | x :: sub' => writeBack (<[start := x]> l) (S start) sub'
  end.

(** [n >> 1] on the int32 reading of [n]. *)
Definition shr1 (n : nat) : Z := Z.shiftr (wrap_int32 (Z.of_nat n)) 1.

(** The state [buildNode] mutates: [triInfos] and the [nodes] array, whose
    cells are [null] ([None]) between [push(null)] and the final store. *)
Definition BuildState : Set := (list TriInfo * list (option BVHNode))%type.

(** [buildNode(start, end)]. [fuel] bounds the depth of the recursion; [None]
    is a thrown exception (a missing vertex, or the call stack exhausted).
    The shift is negative only for a range of 2^31 entries or more; there
    the JS recursion is handed a range that never has length 1 and runs
    until the call stack overflows, and so does this one on [mid = start]
    (lemma [buildNode_huge]). *)
Fixpoint buildNode (fuel : nat) (worldVerts : list vec3) (triangles : list Tri)
    (start end_ : nat) (st : BuildState) : option (nat * BuildState) :=
  match fuel with
  | O => None
  | S fuel' =>
      let '(triInfos, nodes) := st in
      let nodeIdx := length nodes in
      let nodes := nodes ++ [None] in
      box ← computeTriangleAABB worldVerts triangles triInfos start end_;
      if decide (end_ - start = 1)%nat then
        info ← triInfos !! start;
        Some (nodeIdx,
              (triInfos,
               <[nodeIdx := Some (mkNode (box_min box) (box_max box) (-1) (-1)
                                         (Z.of_nat (idx info)))]> nodes))
      else
        let dx := vx (box_max box) - vx (box_min box) in
        let dy := vy (box_max box) - vy (box_min box) in
        let dz := vz (box_max box) - vz (box_min box) in
        let key := if geb dx dy && geb dx dz then AxisX
                   else if geb dy dz then AxisY else AxisZ in
        let sub := sortBy key (slice start end_ triInfos) in
        let triInfos := writeBack triInfos start sub in
        let mid := (start + Z.to_nat (shr1 (end_ - start)))%nat in
        '(l, st1) ← buildNode fuel' worldVerts triangles start mid (triInfos, nodes);
        '(r, st2) ← buildNode fuel' worldVerts triangles mid end_ st1;
        Some (nodeIdx,
              (st2.1,
               <[nodeIdx := Some (mkNode (box_min box) (box_max box)
                                         (Z.of_nat l) (Z.of_nat r) (-1))]> st2.2))
  end.

(** The centroid records built by the first loop of [buildBVH]. *)
Fixpoint mkTriInfos (worldVerts : list vec3) (triangles : list Tri)
    (i count : nat) : option (list TriInfo) :=
  match count with
  | O => Some []
  | S count' =>
      '(v0, v1, v2) ← triVerts worldVerts triangles i;
      rest ← mkTriInfos worldVerts triangles (S i) count';
      Some (mkTriInfo i ((vx v0 + vx v1 + vx v2) / 3)
                        ((vy v0 + vy v1 + vy v2) / 3)
                        ((vz v0 + vz v1 + vz v2) / 3) :: rest)
  end.

(** [buildBVH(worldVerts, triangles)]: the flat node array. The recursion of
    [buildNode] halves its range, so [triCount] levels always suffice. *)
Definition buildBVH (worldVerts : list vec3) (triangles : list Tri)
  : option (list (option BVHNode)) :=
  let triCount := length triangles in
  triInfos ← mkTriInfos worldVerts triangles 0 triCount;
  if decide (0 < triCount)%nat then
    '(_, st) ← buildNode triCount worldVerts triangles 0 triCount (triInfos, []);
    Some st.2
  else Some [].

(** ** bvh.js: traversal *)

(** [_bvhStack = new Int32Array(64)]: a module-level array shared by every
    traversal. A store outside the 64 cells is ignored and a load outside
    them yields [undefined]; a stored value is converted by [ToInt32]. *)
Definition BVH_STACK_SIZE : nat := 64.

Definition stackStore (stk : list Z) (i : nat) (v : Z) : list Z :=
  <[i := wrap_int32 v]> stk.

(** The variables of one run of the [while] loop of [bvhTraverse]: the
    shared stack, [stackPtr], and the variables the [onLeaf] closure
    captures. *)
Record Walk (S : Type) : Type := mkWalk {
  stack : list Z; stackPtr : nat; captured : S }.
Arguments mkWalk {S} _ _ _.
Arguments stack {S} _.
Arguments stackPtr {S} _.
Arguments captured {S} _.

(** What one round of the loop does: go on, or [return] out of it. *)
Inductive Round (S : Type) : Type :=
| GoOn (w : Walk S)
| Stop (stk : list Z) (s : S).
Arguments GoOn {S} _.
Arguments Stop {S} _ _.

Section Traverse.
Context {S : Type}.
Variables (ox oy oz dx dy dz : number).
Variable nodes : list (option BVHNode).
(** [onLeaf(triIdx)]: the new captured variables and the returned flag. *)
Variable onLeaf : S → Z → option (S * bool).

(** [nodes[i]] followed by a property access: it throws when the cell is
    missing or holds [null]. *)
Definition nodeAt (i : Z) : option BVHNode :=
  if (i <? 0)%Z then None else mjoin (nodes !! Z.to_nat i).

(** One round of [while (stackPtr > 0)], entered with [stackPtr > 0]. *)
Definition bvhRound (w : Walk S) : option (Round S) :=
  let ptr := pred (stackPtr w) in
  i ← stack w !! ptr;
  node ← nodeAt i;
  if negb (rayAABBIntersect ox oy oz dx dy dz (bmin node) (bmax node)) then
    Some (GoOn (mkWalk (stack w) ptr (captured w)))
  else if (0 <=? triIdx node)%Z then
    '(s, stop) ← onLeaf (captured w) (triIdx node);
    if stop : bool then Some (Stop (stack w) s)
    else Some (GoOn (mkWalk (stack w) ptr s))
  else
    let stk := stackStore (stack w) ptr (left node) in
    let stk := stackStore stk (Datatypes.S ptr) (right node) in
    Some (GoOn (mkWalk stk (Datatypes.S (Datatypes.S ptr)) (captured w))).

(** The loop, at most [fuel] rounds; [None] when a round throws or when
    [fuel] rounds do not empty the stack. *)
Fixpoint bvhLoop (fuel : nat) (w : Walk S) : option (list Z * S) :=
  match stackPtr w with
  | O => Some (stack w, captured w)
  | _ =>
      match fuel with
      | O => None
      | Datatypes.S fuel' =>
          r ← bvhRound w;
          match r with
          | GoOn w' => bvhLoop fuel' w'
          | Stop stk s => Some (stk, s)
          end
      end
  end.

(** [bvhTraverse]: push the root and run the loop. It returns the shared
    stack as the walk left it and the variables the closure captured. *)
Definition bvhTraverse (fuel : nat) (stk : list Z) (s : S) : option (list Z * S) :=
  bvhLoop fuel (mkWalk (stackStore stk 0 0) 1 s).

End Traverse.

(** The object [{ t, triIdx, hit }] that [bvhClosestHit] returns. *)
Record ObjHit : Set := mkObjHit { oh_t : number; oh_triIdx : Z; oh_hit : option Hit }.

(** The variables [bestT], [bestTriIdx], [bestHit] of [bvhClosestHit]. *)
Definition Best : Set := (number * Z * option Hit)%type.

Definition closestLeaf (ox oy oz dx dy dz : number) (worldVerts : list vec3)
    (triangles : list Tri) (best : Best) (i : Z) : option (Best * bool) :=
  '(v0, v1, v2) ← triVerts worldVerts triangles (Z.to_nat i);
  let hit := rayTriangleIntersect ox oy oz dx dy dz v0 v1 v2 in
  match hit with
  | Some h => if hit_t h <? best.1.1 then Some ((hit_t h, i, Some h), false)
              else Some (best, false)
  | None => Some (best, false)
  end.

(** [bvhClosestHit]: the inner [option] is the JS [null]; the outer one is a
    thrown exception or exhausted [fuel]. The shared stack is returned. *)
Definition bvhClosestHit (fuel : nat) (ox oy oz dx dy dz : number)
    (nodes : list (option BVHNode)) (worldVerts : list vec3)
    (triangles : list Tri) (maxT : number) (stk : list Z)
  : option (list Z * option ObjHit) :=
  if decide (length nodes = 0)%nat then Some (stk, None) else
  '(stk', (bestT, bestTriIdx, bestHit)) ←
     bvhTraverse ox oy oz dx dy dz nodes
       (closestLeaf ox oy oz dx dy dz worldVerts triangles) fuel stk (maxT, (-1)%Z, None);
  Some (stk', if (0 <=? bestTriIdx)%Z then Some (mkObjHit bestT bestTriIdx bestHit)
              else None).

Definition anyLeaf (ox oy oz dx dy dz : number) (worldVerts : list vec3)
    (triangles : list Tri) (maxT : number) (found : bool) (i : Z)
  : option (bool * bool) :=
  '(v0, v1, v2) ← triVerts worldVerts triangles (Z.to_nat i);
  let hit := rayTriangleIntersect ox oy oz dx dy dz v0 v1 v2 in
  match hit with
  | Some h => if hit_t h <? maxT then Some (true, true) else Some (found, false)
  | None => Some (found, false)
  end.

(** [bvhAnyHit]. *)
Definition bvhAnyHit (fuel : nat) (ox oy oz dx dy dz : number)
    (nodes : list (option BVHNode)) (worldVerts : list vec3)
    (triangles : list Tri) (maxT : number) (stk : list Z)
  : option (list Z * bool) :=
  if decide (length nodes = 0)%nat then Some (stk, false) else
  bvhTraverse ox oy oz dx dy dz nodes
    (anyLeaf ox oy oz dx dy dz worldVerts triangles maxT) fuel stk false.

(** ** primitives.js: camera and lighting globals *)

Definition WIDTH : number := 800.
Definition HEIGHT : number := 420.
Definition camZ : number := -500.
Definition fov : number := 500.
Definition lightDir : vec3 := normalize (Vec3 (-0.5) (-0.5) (-1)).
Definition ambient : number := 0.4.

(** ** environment.js *)

Definition ENV_OBJ_IDX : Z := (-2)%Z.

(** A colour is a three-element array [[r, g, b]]. *)
Definition Color : Set := vec3.

Record Floor : Set := mkFloor {
  fl_y : number; fl_tile : number; fl_color0 : Color; fl_color1 : Color;
  fl_minX : number; fl_maxX : number; fl_minZ : number; fl_maxZ : number;
  fl_offX : number; fl_offZ : number }.

(** [environment._floor]. *)
Definition environment_floor : Floor :=
  mkFloor FLOOR_Y FLOOR_TILE (Vec3 180 30 30) (Vec3 200 200 200)
    (- FLOOR_HALF * FLOOR_TILE) (FLOOR_HALF * FLOOR_TILE)
    (- FLOOR_HALF * FLOOR_TILE + FLOOR_Z_OFFSET)
    (FLOOR_HALF * FLOOR_TILE + FLOOR_Z_OFFSET)
    0 FLOOR_Z_OFFSET.

(** [environment._sky] once the image is loaded; before that [imageData] is
    [null] and the whole record is modelled by [None]. *)
Record Sky : Set := mkSky {
  sky_imageData : list number; sky_width : number; sky_height : number }.

(** The object [{ t, color, nx, ny, nz, reflectivity }] of [envIntersect]. *)
Record EnvHit : Set := mkEnvHit {
  eh_t : number; eh_color : Color;
  eh_nx : number; eh_ny : number; eh_nz : number; eh_reflectivity : number }.

(** [((ix + iz) & 1) ? fl.color1 : fl.color0]. *)
Definition checkerColor (fl : Floor) (hx hz : number) : Color :=
  let ix := Math_floor ((hx - fl_offX fl) / fl_tile fl) in
  let iz := Math_floor ((hz - fl_offZ fl) / fl_tile fl) in
  if decide (Z.land (ToInt32 (ix + iz)) 1 = 0%Z) then fl_color0 fl else fl_color1 fl.

(** [envIntersect], over the floor record [fl] it reads. *)
Definition envIntersectOn (fl : Floor) (ox oy oz dx dy dz : number) : option EnvHit :=
  if Math_abs dy <? RT_EPSILON then None else
  let t := (fl_y fl - oy) / dy in
  if t <? RT_EPSILON then None else
  let hx := ox + dx * t in
  let hz := oz + dz * t in
  if (hx <? fl_minX fl) || gtb hx (fl_maxX fl) ||
     (hz <? fl_minZ fl) || gtb hz (fl_maxZ fl) then None else
  Some (mkEnvHit t (checkerColor fl hx hz) 0 (-1) 0 0).

Definition envIntersect : number → number → number → number → number → number
                          → option EnvHit :=
  envIntersectOn environment_floor.

(** [envAnyHit]. *)
Definition envAnyHit (ox oy oz dx dy dz maxDist : number) : bool :=
  let fl := environment_floor in
  if Math_abs dy <? RT_EPSILON then false else
  let t := (fl_y fl - oy) / dy in
  if (t <? RT_EPSILON) || gtb t maxDist then false else
  let hx := ox + dx * t in
  let hz := oz + dz * t in
  geb hx (fl_minX fl) && (hx <=? fl_maxX fl) &&
  geb hz (fl_minZ fl) && (hz <=? fl_maxZ fl).

(** An array read [a[i]] with a number as index: [undefined] unless [i] is
    a non-negative integer inside the array. In the arithmetic that follows
    [undefined] reads as NaN. *)
Definition arrayGet (a : list number) (i : number) : number :=
  if (0 <=? i) && (num_of_Z (trunc_Z i) =? i)
  then default NaN (a !! Z.to_nat (trunc_Z i)) else NaN.

(** [x | 0]. *)
Definition or0 (x : number) : number := num_of_Z (ToInt32 x).

(** [envColor]. *)
Definition envColor (sky : option Sky) (dx dy dz : number) : Color :=
  match sky with
  | None =>
      let t := Math_max 0 (Math_min 1 (- dy * 1.5 + 0.5)) in
      let v := 80 + t * 175 in
      Vec3 v v v
  | Some sky =>
      let halfW := WIDTH * 0.5 in
      let halfH := HEIGHT * 0.5 in
      let u := Math_max 0 (Math_min 1 ((dx / dz * fov + halfW) / WIDTH)) in
      let v := Math_max 0 (Math_min 1 ((dy / dz * fov + halfH) / HEIGHT)) in
      let px := Math_max 0 (Math_min (sky_width sky - 1) (or0 (u * sky_width sky))) in
      let py := Math_max 0 (Math_min (sky_height sky - 1) (or0 (v * sky_height sky))) in
      let idx := (py * sky_width sky + px) * 4 in
      Vec3 (arrayGet (sky_imageData sky) idx)
           (arrayGet (sky_imageData sky) (idx + 1))
           (arrayGet (sky_imageData sky) (idx + 2))
  end.

(** ** raytrace.js *)

(** The module-level variables the ray tracer mutates: the LCG seed
    [_shadowSeed] and the traversal stack [_bvhStack] of bvh.js. [drawn] is
    an observer, not a JS variable: it records, oldest first, every value
    [fastRand] has returned. *)
Record Globals : Set := mkGlobals {
  _shadowSeed : number; _bvhStack : list Z; drawn : list number }.

(** Computations over the globals that may throw. *)
Definition M (A : Type) : Type := Globals → option (A * Globals).

Definition retM {A} (a : A) : M A := λ g, Some (a, g).
Definition bindM {A B} (m : M A) (k : A → M B) : M B :=
  λ g, match m g with Some (a, g') => k a g' | None => None end.
Definition throwM {A} : M A := λ _, None.
(** A value that may be [undefined], used where the access throws. *)
Definition liftM {A} (o : option A) : M A :=
  match o with Some a => retM a | None => throwM end.

Notation "'let*' x ':=' m 'in' k" := (bindM m (λ x, k))
  (at level 10, x name, m at level 100, k at level 200, only parsing).
Notation "'let*' ' p ':=' m 'in' k" := (bindM m (λ p, k))
  (at level 10, p pattern, m at level 100, k at level 200, only parsing).

(** [fastRand]: the product and the sum are rounded as binary64 numbers
    before [&] reads them through [ToInt32]. *)
Definition fastRand : M number :=
  λ g,
    let seed := num_of_Z (Z.land (ToInt32 (_shadowSeed g * 1103515245 + 12345))
                                 2147483647) in
    let r := seed / 2147483647 in
    Some (r, mkGlobals seed (_bvhStack g) (drawn g ++ [r])).

Definition setSeed (seed : number) : M unit :=
  λ g, Some (tt, mkGlobals seed (_bvhStack g) (drawn g)).

(** Run a bvh.js query on the shared stack. *)
Definition withStack {A} (f : list Z → option (list Z * A)) : M A :=
  λ g, match f (_bvhStack g) with
       | Some (stk, a) => Some (a, mkGlobals (_shadowSeed g) stk (drawn g))
       | None => None
       end.

(** An entry of the per-frame scene built by [transformMesh]. *)
Record SceneObj : Set := mkSceneObj {
  worldVerts : list vec3;
  triangles : list Tri;
  colors : list Color;
  worldVertexNormals : option (list vec3);
  worldFaceNormals : option (list vec3);
  bvhNodes : list (option BVHNode);
  reflectivity : number }.

(** The object that [sceneIntersect] returns; [color] is [undefined] when
    the colour table has no entry for the triangle. *)
Record SceneHit : Set := mkSceneHit {
  sh_t : number; sh_color : option Color;
  sh_nx : number; sh_ny : number; sh_nz : number;
  sh_objIdx : Z; sh_reflectivity : number }.

(** [interpolateNormal]. *)
Definition interpolateNormal (tri : Tri) (hit : Hit)
    (worldVertexNormals worldFaceNormals : option (list vec3)) (triIdx : Z)
  : option vec3 :=
  match worldVertexNormals with
  | Some vn =>
      n0 ← vn !! ta tri;
      n1 ← vn !! tb tri;
      n2 ← vn !! tc tri;
      let w := 1 - hit_u hit - hit_v hit in
      Some (normalize (Vec3
        (w * vx n0 + hit_u hit * vx n1 + hit_v hit * vx n2)
        (w * vy n0 + hit_u hit * vy n1 + hit_v hit * vy n2)
        (w * vz n0 + hit_u hit * vz n1 + hit_v hit * vz n2)))
  | None =>
      fns ← worldFaceNormals;
      fn ← fns !! Z.to_nat triIdx;
      Some (Vec3 (vx fn) (vy fn) (vz fn))
  end.

Section Raytrace.
(** [Math.pow], which ECMAScript leaves implementation-approximated. *)
Variable Math_pow : number → number → number.
(** [environment._sky], fixed while a frame is traced. *)
Variable sky : option Sky.
(** The bound on the rounds of each BVH walk. *)
Variable fuel : nat.

(** The loop of [sceneAnyHit] from object index [oi]. *)
Fixpoint sceneAnyHitFrom (ox oy oz dx dy dz : number) (objs : list SceneObj)
    (oi : Z) (maxDist : number) (skipObj : Z) : M bool :=
  match objs with
  | [] => retM false
  | obj :: rest =>
      if decide (oi = skipObj) then
        sceneAnyHitFrom ox oy oz dx dy dz rest (oi + 1)%Z maxDist skipObj
      else
        let* b := withStack (bvhAnyHit fuel ox oy oz dx dy dz (bvhNodes obj)
                               (worldVerts obj) (triangles obj) maxDist) in
        if b : bool then retM true
        else sceneAnyHitFrom ox oy oz dx dy dz rest (oi + 1)%Z maxDist skipObj
  end.

(** [sceneAnyHit]. *)
Definition sceneAnyHit (ox oy oz dx dy dz : number) (scene : list SceneObj)
    (maxDist : number) (skipObj : Z) : M bool :=
  let* b := sceneAnyHitFrom ox oy oz dx dy dz scene 0 maxDist skipObj in
  if b : bool then retM true
  else if negb (bool_decide (skipObj = ENV_OBJ_IDX))
          && envAnyHit ox oy oz dx dy dz maxDist then retM true
  else retM false.

(** The loop of [shadowTest]: [s] samples left, [blocked] so far. *)
Fixpoint shadowLoop (ox oy oz : number) (scene : list SceneObj) (origObjIdx : Z)
    (s : nat) (blocked : number) : M number :=
  match s with
  | O => retM blocked
  | Datatypes.S s' =>
      let* r1 := fastRand in
      let jx := (r1 - 0.5) * RT_LIGHT_RADIUS in
      let* r2 := fastRand in
      let jy := (r2 - 0.5) * RT_LIGHT_RADIUS in
      let* r3 := fastRand in
      let jz := (r3 - 0.5) * RT_LIGHT_RADIUS in
      let sdx := vx lightDir + jx in
      let sdy := vy lightDir + jy in
      let sdz := vz lightDir + jz in
      let* b := sceneAnyHit ox oy oz sdx sdy sdz scene Infinity origObjIdx in
      shadowLoop ox oy oz scene origObjIdx s' (if b : bool then blocked + 1 else blocked)
  end.

(** [shadowTest]. *)
Definition shadowTest (ox oy oz : number) (scene : list SceneObj) (origObjIdx : Z)
  : M number :=
  let* blocked := shadowLoop ox oy oz scene origObjIdx RT_SHADOW_SAMPLES 0 in
  retM (blocked / num_of_nat RT_SHADOW_SAMPLES).

(** [sampleHemisphere]: [None] is the JS [null]. *)
Definition sampleHemisphere (nx ny nz : number) : M (option vec3) :=
  let* r1 := fastRand in
  let rx := r1 * 2 - 1 in
  let* r2 := fastRand in
  let ry := r2 * 2 - 1 in
  let* r3 := fastRand in
  let rz := r3 * 2 - 1 in
  let rlen := Math_sqrt (rx * rx + ry * ry + rz * rz) in
  if rlen <? 0.01 then retM None else
  let d := normalize (Vec3 rx ry rz) in
  if vx d * nx + vy d * ny + vz d * nz <? 0
  then retM (Some (Vec3 (- vx d) (- vy d) (- vz d)))
  else retM (Some d).

(** The loop of [aoTest]. *)
Fixpoint aoLoop (ox oy oz nx ny nz : number) (scene : list SceneObj)
    (origObjIdx : Z) (s : nat) (occluded : number) : M number :=
  match s with
  | O => retM occluded
  | Datatypes.S s' =>
      let* dir := sampleHemisphere nx ny nz in
      match dir with
      | None => aoLoop ox oy oz nx ny nz scene origObjIdx s' occluded
      | Some d =>
          let* b := sceneAnyHit ox oy oz (vx d) (vy d) (vz d) scene RT_AO_RADIUS
                      origObjIdx in
          aoLoop ox oy oz nx ny nz scene origObjIdx s'
            (if b : bool then occluded + 1 else occluded)
      end
  end.

(** [aoTest]. *)
Definition aoTest (ox oy oz nx ny nz : number) (scene : list SceneObj)
    (origObjIdx : Z) : M number :=
  let* occluded := aoLoop ox oy oz nx ny nz scene origObjIdx RT_AO_SAMPLES 0 in
  retM (occluded / num_of_nat RT_AO_SAMPLES).

(** [intersectObject]. *)
Definition intersectObject (ox oy oz dx dy dz : number) (obj : SceneObj)
    (maxT : number) : M (option ObjHit) :=
  withStack (bvhClosestHit fuel ox oy oz dx dy dz (bvhNodes obj) (worldVerts obj)
               (triangles obj) maxT).

(** The mesh loop of [sceneIntersect] from object index [oi], with the
    running [closestT] and [result]. *)
Fixpoint sceneIntersectFrom (ox oy oz dx dy dz : number) (objs : list SceneObj)
    (oi : Z) (skipObj : Z) (closestT : number) (result : option SceneHit)
  : M (number * option SceneHit) :=
  match objs with
  | [] => retM (closestT, result)
  | obj :: rest =>
      if decide (oi = skipObj) then
        sceneIntersectFrom ox oy oz dx dy dz rest (oi + 1)%Z skipObj closestT result
      else
        let* objHit := intersectObject ox oy oz dx dy dz obj closestT in
        match objHit with
        | None =>
            sceneIntersectFrom ox oy oz dx dy dz rest (oi + 1)%Z skipObj closestT result
        | Some oh =>
            let closestT := oh_t oh in
            let* tri := liftM (triangles obj !! Z.to_nat (oh_triIdx oh)) in
            let* hit := liftM (oh_hit oh) in
            let* n := liftM (interpolateNormal tri hit (worldVertexNormals obj)
                               (worldFaceNormals obj) (oh_triIdx oh)) in
            let n := if gtb (vx n * dx + vy n * dy + vz n * dz) 0
                     then Vec3 (- vx n) (- vy n) (- vz n) else n in
            sceneIntersectFrom ox oy oz dx dy dz rest (oi + 1)%Z skipObj closestT
              (Some (mkSceneHit closestT (colors obj !! Z.to_nat (oh_triIdx oh))
                       (vx n) (vy n) (vz n) oi (reflectivity obj)))
        end
  end.

(** [sceneIntersect]. *)
Definition sceneIntersect (ox oy oz dx dy dz : number) (scene : list SceneObj)
    (skipObj : Z) : M (option SceneHit) :=
  let* '(closestT, result) :=
    sceneIntersectFrom ox oy oz dx dy dz scene 0 skipObj Infinity None in
  if bool_decide (skipObj = ENV_OBJ_IDX) then retM result else
  match envIntersect ox oy oz dx dy dz with
  | Some eh =>
      if eh_t eh <? closestT then
        retM (Some (mkSceneHit (eh_t eh) (Some (eh_color eh))
                      (eh_nx eh) (eh_ny eh) (eh_nz eh) ENV_OBJ_IDX (eh_reflectivity eh)))
      else retM result
  | None => retM result
  end.

(** [traceRay]. *)
Fixpoint traceRay (ox oy oz dx dy dz : number) (scene : list SceneObj)
    (depth : nat) (skipObj : Z) : M Color :=
  let* hit := sceneIntersect ox oy oz dx dy dz scene skipObj in
  match hit with
  | None => retM (envColor sky dx dy dz)
  | Some h =>
      let t := sh_t h in
      let nx := sh_nx h in let ny := sh_ny h in let nz := sh_nz h in
      let objIdx := sh_objIdx h in
      let reflectivity := sh_reflectivity h in
      let hx := ox + dx * t + nx * RT_SHADOW_BIAS in
      let hy := oy + dy * t + ny * RT_SHADOW_BIAS in
      let hz := oz + dz * t + nz * RT_SHADOW_BIAS in
      let* shadow := shadowTest hx hy hz scene objIdx in
      let* ao := aoTest hx hy hz nx ny nz scene objIdx in
      let ndotl := nx * vx lightDir + ny * vy lightDir + nz * vz lightDir in
      let lit := 1 - shadow in
      let diffuse := lit * Math_max 0 ndotl in
      let aoFactor := 1 - ao * RT_AO_STRENGTH in
      let specular :=
        if gtb lit 0 && gtb ndotl 0 then
          let vx' := - dx in let vy' := - dy in let vz' := - dz in
          let hvx := vx' + vx lightDir in
          let hvy := vy' + vy lightDir in
          let hvz := vz' + vz lightDir in
          let hlen := Math_sqrt (hvx * hvx + hvy * hvy + hvz * hvz) in
          if gtb hlen 0 then
            let ndoth := nx * (hvx / hlen) + ny * (hvy / hlen) + nz * (hvz / hlen) in
            if gtb ndoth 0 then lit * RT_SPECULAR_STR * Math_pow ndoth RT_SPECULAR_EXP
            else 0
          else 0
        else 0 in
      let br := Math_min 1 (ambient * aoFactor + diffuse) in
      let* color := liftM (sh_color h) in
      let r := vx color * br + specular * 255 in
      let g := vy color * br + specular * 255 in
      let b := vz color * br + specular * 255 in
      let* '(r, g, b) :=
        match depth with
        | Datatypes.S depth' =>
            if gtb reflectivity 0 then
              let ddn := dx * nx + dy * ny + dz * nz in
              if ddn <? 0 then
                let cosTheta := - ddn in
                let f1 := 1 - cosTheta in
                let f2 := f1 * f1 in
                let refl := reflectivity + (1 - reflectivity) * f2 * f2 * f1 in
                let rx := dx - 2 * ddn * nx in
                let ry := dy - 2 * ddn * ny in
                let rz := dz - 2 * ddn * nz in
                let* ref := traceRay hx hy hz rx ry rz scene depth' objIdx in
                retM (r * (1 - refl) + vx ref * refl,
                      g * (1 - refl) + vy ref * refl,
                      b * (1 - refl) + vz ref * refl)
              else retM (r, g, b)
            else retM (r, g, b)
        | O => retM (r, g, b)
        end in
      retM (Vec3 (Math_min 255 r) (Math_min 255 g) (Math_min 255 b))
  end.

(** The body of the innermost loop of [raytraceScene]: seed the generator
    from the pixel and sub-sample coordinates and trace the primary ray.
    [aa] is [RT_AA_GRID]. *)
Definition shadeSample (scene : list SceneObj) (aa px py ax ay : nat) : M Color :=
  let halfW := WIDTH * 0.5 in
  let halfH := HEIGHT * 0.5 in
  let aaStep := 1 / num_of_nat aa in
  let spx := num_of_nat px + (num_of_nat ax + 0.5) * aaStep - 0.5 in
  let spy := num_of_nat py + (num_of_nat ay + 0.5) * aaStep - 0.5 in
  let* _ := setSeed ((num_of_nat py * num_of_nat aa + num_of_nat ay) * WIDTH * num_of_nat aa
                     + (num_of_nat px * num_of_nat aa + num_of_nat ax)) in
  let rdx := spx - halfW in
  let rdy := spy - halfH in
  let len := Math_sqrt (rdx * rdx + rdy * rdy + fov * fov) in
  let dx := rdx / len in let dy := rdy / len in let dz := fov / len in
  traceRay 0 0 camZ dx dy dz scene RT_MAX_BOUNCES (-1)%Z.

End Raytrace.

(** ** The metaball generator (shader-source.js): marching-cubes lookup tables *)

(** [EDGE_TABLE[cubeIndex]]: the bitmask of the crossed edges. *)
Definition EDGE_TABLE : list Z :=
  [
   0x000; 0x109; 0x203; 0x30a; 0x406; 0x50f; 0x605; 0x70c;
   0x80c; 0x905; 0xa0f; 0xb06; 0xc0a; 0xd03; 0xe09; 0xf00;
   0x190; 0x099; 0x393; 0x29a; 0x596; 0x49f; 0x795; 0x69c;
   0x99c; 0x895; 0xb9f; 0xa96; 0xd9a; 0xc93; 0xf99; 0xe90;
   0x230; 0x339; 0x033; 0x13a; 0x636; 0x73f; 0x435; 0x53c;
   0xa3c; 0xb35; 0x83f; 0x936; 0xe3a; 0xf33; 0xc39; 0xd30;
   0x3a0; 0x2a9; 0x1a3; 0x0aa; 0x7a6; 0x6af; 0x5a5; 0x4ac;
   0xbac; 0xaa5; 0x9af; 0x8a6; 0xfaa; 0xea3; 0xda9; 0xca0;
   0x460; 0x569; 0x663; 0x76a; 0x066; 0x16f; 0x265; 0x36c;
   0xc6c; 0xd65; 0xe6f; 0xf66; 0x86a; 0x963; 0xa69; 0xb60;
   0x5f0; 0x4f9; 0x7f3; 0x6fa; 0x1f6; 0x0ff; 0x3f5; 0x2fc;
   0xdfc; 0xcf5; 0xfff; 0xef6; 0x9fa; 0x8f3; 0xbf9; 0xaf0;
   0x650; 0x759; 0x453; 0x55a; 0x256; 0x35f; 0x055; 0x15c;
   0xe5c; 0xf55; 0xc5f; 0xd56; 0xa5a; 0xb53; 0x859; 0x950;
   0x7c0; 0x6c9; 0x5c3; 0x4ca; 0x3c6; 0x2cf; 0x1c5; 0x0cc;
   0xfcc; 0xec5; 0xdcf; 0xcc6; 0xbca; 0xac3; 0x9c9; 0x8c0;
   0x8c0; 0x9c9; 0xac3; 0xbca; 0xcc6; 0xdcf; 0xec5; 0xfcc;
   0x0cc; 0x1c5; 0x2cf; 0x3c6; 0x4ca; 0x5c3; 0x6c9; 0x7c0;
   0x950; 0x859; 0xb53; 0xa5a; 0xd56; 0xc5f; 0xf55; 0xe5c;
   0x15c; 0x055; 0x35f; 0x256; 0x55a; 0x453; 0x759; 0x650;
   0xaf0; 0xbf9; 0x8f3; 0x9fa; 0xef6; 0xfff; 0xcf5; 0xdfc;
   0x2fc; 0x3f5; 0x0ff; 0x1f6; 0x6fa; 0x7f3; 0x4f9; 0x5f0;
   0xb60; 0xa69; 0x963; 0x86a; 0xf66; 0xe6f; 0xd65; 0xc6c;
   0x36c; 0x265; 0x16f; 0x066; 0x76a; 0x663; 0x569; 0x460;
   0xca0; 0xda9; 0xea3; 0xfaa; 0x8a6; 0x9af; 0xaa5; 0xbac;
   0x4ac; 0x5a5; 0x6af; 0x7a6; 0x0aa; 0x1a3; 0x2a9; 0x3a0;
   0xd30; 0xc39; 0xf33; 0xe3a; 0x936; 0x83f; 0xb35; 0xa3c;
   0x53c; 0x435; 0x73f; 0x636; 0x13a; 0x033; 0x339; 0x230;
   0xe90; 0xf99; 0xc93; 0xd9a; 0xa96; 0xb9f; 0x895; 0x99c;
   0x69c; 0x795; 0x49f; 0x596; 0x29a; 0x393; 0x099; 0x190;
   0xf00; 0xe09; 0xd03; 0xc0a; 0xb06; 0xa0f; 0x905; 0x80c;
   0x70c; 0x605; 0x50f; 0x406; 0x30a; 0x203; 0x109; 0x000]%Z.

(** [TRI_TABLE[cubeIndex]]: edge indices, three per triangle, ended by [-1]. *)
Definition TRI_TABLE : list (list Z) :=
  [
   [-1];
   [0; 8; 3; -1];
   [0; 1; 9; -1];
   [1; 8; 3; 9; 8; 1; -1];
   [1; 2; 10; -1];
   [0; 8; 3; 1; 2; 10; -1];
   [9; 2; 10; 0; 2; 9; -1];
   [2; 8; 3; 2; 10; 8; 10; 9; 8; -1];
   [3; 11; 2; -1];
   [0; 11; 2; 8; 11; 0; -1];
   [1; 9; 0; 2; 3; 11; -1];
   [1; 11; 2; 1; 9; 11; 9; 8; 11; -1];
   [3; 10; 1; 11; 10; 3; -1];
   [0; 10; 1; 0; 8; 10; 8; 11; 10; -1];
   [3; 9; 0; 3; 11; 9; 11; 10; 9; -1];
   [9; 8; 10; 10; 8; 11; -1];
   [4; 7; 8; -1];
   [4; 3; 0; 7; 3; 4; -1];
   [0; 1; 9; 8; 4; 7; -1];
   [4; 1; 9; 4; 7; 1; 7; 3; 1; -1];
   [1; 2; 10; 8; 4; 7; -1];
   [3; 4; 7; 3; 0; 4; 1; 2; 10; -1];
   [9; 2; 10; 9; 0; 2; 8; 4; 7; -1];
   [2; 10; 9; 2; 9; 7; 2; 7; 3; 7; 9; 4; -1];
   [8; 4; 7; 3; 11; 2; -1];
   [11; 4; 7; 11; 2; 4; 2; 0; 4; -1];
   [9; 0; 1; 8; 4; 7; 2; 3; 11; -1];
   [4; 7; 11; 9; 4; 11; 9; 11; 2; 9; 2; 1; -1];
   [3; 10; 1; 3; 11; 10; 7; 8; 4; -1];
   [1; 11; 10; 1; 4; 11; 1; 0; 4; 7; 11; 4; -1];
   [4; 7; 8; 9; 0; 11; 9; 11; 10; 11; 0; 3; -1];
   [4; 7; 11; 4; 11; 9; 9; 11; 10; -1];
   [9; 5; 4; -1];
   [9; 5; 4; 0; 8; 3; -1];
   [0; 5; 4; 1; 5; 0; -1];
   [8; 5; 4; 8; 3; 5; 3; 1; 5; -1];
   [1; 2; 10; 9; 5; 4; -1];
   [3; 0; 8; 1; 2; 10; 4; 9; 5; -1];
   [5; 2; 10; 5; 4; 2; 4; 0; 2; -1];
   [2; 10; 5; 3; 2; 5; 3; 5; 4; 3; 4; 8; -1];
   [9; 5; 4; 2; 3; 11; -1];
   [0; 11; 2; 0; 8; 11; 4; 9; 5; -1];
   [0; 5; 4; 0; 1; 5; 2; 3; 11; -1];
   [2; 1; 5; 2; 5; 8; 2; 8; 11; 4; 8; 5; -1];
   [10; 3; 11; 10; 1; 3; 9; 5; 4; -1];
   [4; 9; 5; 0; 8; 1; 8; 10; 1; 8; 11; 10; -1];
   [5; 4; 0; 5; 0; 11; 5; 11; 10; 11; 0; 3; -1];
   [5; 4; 8; 5; 8; 10; 10; 8; 11; -1];
   [9; 7; 8; 5; 7; 9; -1];
   [9; 3; 0; 9; 5; 3; 5; 7; 3; -1];
   [0; 7; 8; 0; 1; 7; 1; 5; 7; -1];
   [1; 5; 3; 3; 5; 7; -1];
   [9; 7; 8; 9; 5; 7; 10; 1; 2; -1];
   [10; 1; 2; 9; 5; 0; 5; 3; 0; 5; 7; 3; -1];
   [8; 0; 2; 8; 2; 5; 8; 5; 7; 10; 5; 2; -1];
   [2; 10; 5; 2; 5; 3; 3; 5; 7; -1];
   [7; 9; 5; 7; 8; 9; 3; 11; 2; -1];
   [9; 5; 7; 9; 7; 2; 9; 2; 0; 2; 7; 11; -1];
   [2; 3; 11; 0; 1; 8; 1; 7; 8; 1; 5; 7; -1];
   [11; 2; 1; 11; 1; 7; 7; 1; 5; -1];
   [9; 5; 8; 8; 5; 7; 10; 1; 3; 10; 3; 11; -1];
   [5; 7; 0; 5; 0; 9; 7; 11; 0; 1; 0; 10; 11; 10; 0; -1];
   [11; 10; 0; 11; 0; 3; 10; 5; 0; 8; 0; 7; 5; 7; 0; -1];
   [11; 10; 5; 7; 11; 5; -1];
   [10; 6; 5; -1];
   [0; 8; 3; 5; 10; 6; -1];
   [9; 0; 1; 5; 10; 6; -1];
   [1; 8; 3; 1; 9; 8; 5; 10; 6; -1];
   [1; 6; 5; 2; 6; 1; -1];
   [1; 6; 5; 1; 2; 6; 3; 0; 8; -1];
   [9; 6; 5; 9; 0; 6; 0; 2; 6; -1];
   [5; 9; 8; 5; 8; 2; 5; 2; 6; 3; 2; 8; -1];
   [2; 3; 11; 10; 6; 5; -1];
   [11; 0; 8; 11; 2; 0; 10; 6; 5; -1];
   [0; 1; 9; 2; 3; 11; 5; 10; 6; -1];
   [5; 10; 6; 1; 9; 2; 9; 11; 2; 9; 8; 11; -1];
   [6; 3; 11; 6; 5; 3; 5; 1; 3; -1];
   [0; 8; 11; 0; 11; 5; 0; 5; 1; 5; 11; 6; -1];
   [3; 11; 6; 0; 3; 6; 0; 6; 5; 0; 5; 9; -1];
   [6; 5; 9; 6; 9; 11; 11; 9; 8; -1];
   [5; 10; 6; 4; 7; 8; -1];
   [4; 3; 0; 4; 7; 3; 6; 5; 10; -1];
   [1; 9; 0; 5; 10; 6; 8; 4; 7; -1];
   [10; 6; 5; 1; 9; 7; 1; 7; 3; 7; 9; 4; -1];
   [6; 1; 2; 6; 5; 1; 4; 7; 8; -1];
   [1; 2; 5; 5; 2; 6; 3; 0; 4; 3; 4; 7; -1];
   [8; 4; 7; 9; 0; 5; 0; 6; 5; 0; 2; 6; -1];
   [7; 3; 9; 7; 9; 4; 3; 2; 9; 5; 9; 6; 2; 6; 9; -1];
   [3; 11; 2; 7; 8; 4; 10; 6; 5; -1];
   [5; 10; 6; 4; 7; 2; 4; 2; 0; 2; 7; 11; -1];
   [0; 1; 9; 4; 7; 8; 2; 3; 11; 5; 10; 6; -1];
   [9; 2; 1; 9; 11; 2; 9; 4; 11; 7; 11; 4; 5; 10; 6; -1];
   [8; 4; 7; 3; 11; 5; 3; 5; 1; 5; 11; 6; -1];
   [5; 1; 11; 5; 11; 6; 1; 0; 11; 7; 11; 4; 0; 4; 11; -1];
   [0; 5; 9; 0; 6; 5; 0; 3; 6; 11; 6; 3; 8; 4; 7; -1];
   [6; 5; 9; 6; 9; 11; 4; 7; 9; 7; 11; 9; -1];
   [10; 4; 9; 6; 4; 10; -1];
   [4; 10; 6; 4; 9; 10; 0; 8; 3; -1];
   [10; 0; 1; 10; 6; 0; 6; 4; 0; -1];
   [8; 3; 1; 8; 1; 6; 8; 6; 4; 6; 1; 10; -1];
   [1; 4; 9; 1; 2; 4; 2; 6; 4; -1];
   [3; 0; 8; 1; 2; 9; 2; 4; 9; 2; 6; 4; -1];
   [0; 2; 4; 4; 2; 6; -1];
   [8; 3; 2; 8; 2; 4; 4; 2; 6; -1];
   [10; 4; 9; 10; 6; 4; 11; 2; 3; -1];
   [0; 8; 2; 2; 8; 11; 4; 9; 10; 4; 10; 6; -1];
   [3; 11; 2; 0; 1; 6; 0; 6; 4; 6; 1; 10; -1];
   [6; 4; 1; 6; 1; 10; 4; 8; 1; 2; 1; 11; 8; 11; 1; -1];
   [9; 6; 4; 9; 3; 6; 9; 1; 3; 11; 6; 3; -1];
   [8; 11; 1; 8; 1; 0; 11; 6; 1; 9; 1; 4; 6; 4; 1; -1];
   [3; 11; 6; 3; 6; 0; 0; 6; 4; -1];
   [6; 4; 8; 11; 6; 8; -1];
   [7; 10; 6; 7; 8; 10; 8; 9; 10; -1];
   [0; 7; 3; 0; 10; 7; 0; 9; 10; 6; 7; 10; -1];
   [10; 6; 7; 1; 10; 7; 1; 7; 8; 1; 8; 0; -1];
   [10; 6; 7; 10; 7; 1; 1; 7; 3; -1];
   [1; 2; 6; 1; 6; 8; 1; 8; 9; 8; 6; 7; -1];
   [2; 6; 9; 2; 9; 1; 6; 7; 9; 0; 9; 3; 7; 3; 9; -1];
   [7; 8; 0; 7; 0; 6; 6; 0; 2; -1];
   [7; 3; 2; 6; 7; 2; -1];
   [2; 3; 11; 10; 6; 8; 10; 8; 9; 8; 6; 7; -1];
   [2; 0; 7; 2; 7; 11; 0; 9; 7; 6; 7; 10; 9; 10; 7; -1];
   [1; 8; 0; 1; 7; 8; 1; 10; 7; 6; 7; 10; 2; 3; 11; -1];
   [11; 2; 1; 11; 1; 7; 10; 6; 1; 6; 7; 1; -1];
   [8; 9; 6; 8; 6; 7; 9; 1; 6; 11; 6; 3; 1; 3; 6; -1];
   [0; 9; 1; 11; 6; 7; -1];
   [7; 8; 0; 7; 0; 6; 3; 11; 0; 11; 6; 0; -1];
   [7; 11; 6; -1];
   [7; 6; 11; -1];
   [3; 0; 8; 11; 7; 6; -1];
   [0; 1; 9; 11; 7; 6; -1];
   [8; 1; 9; 8; 3; 1; 11; 7; 6; -1];
   [10; 1; 2; 6; 11; 7; -1];
   [1; 2; 10; 3; 0; 8; 6; 11; 7; -1];
   [2; 9; 0; 2; 10; 9; 6; 11; 7; -1];
   [6; 11; 7; 2; 10; 3; 10; 8; 3; 10; 9; 8; -1];
   [7; 2; 3; 6; 2; 7; -1];
   [7; 0; 8; 7; 6; 0; 6; 2; 0; -1];
   [2; 7; 6; 2; 3; 7; 0; 1; 9; -1];
   [1; 6; 2; 1; 8; 6; 1; 9; 8; 8; 7; 6; -1];
   [10; 7; 6; 10; 1; 7; 1; 3; 7; -1];
   [10; 7; 6; 1; 7; 10; 1; 8; 7; 1; 0; 8; -1];
   [0; 3; 7; 0; 7; 10; 0; 10; 9; 6; 10; 7; -1];
   [7; 6; 10; 7; 10; 8; 8; 10; 9; -1];
   [6; 8; 4; 11; 8; 6; -1];
   [3; 6; 11; 3; 0; 6; 0; 4; 6; -1];
   [8; 6; 11; 8; 4; 6; 9; 0; 1; -1];
   [9; 4; 6; 9; 6; 3; 9; 3; 1; 11; 3; 6; -1];
   [6; 8; 4; 6; 11; 8; 2; 10; 1; -1];
   [1; 2; 10; 3; 0; 11; 0; 6; 11; 0; 4; 6; -1];
   [4; 11; 8; 4; 6; 11; 0; 2; 9; 2; 10; 9; -1];
   [10; 9; 3; 10; 3; 2; 9; 4; 3; 11; 3; 6; 4; 6; 3; -1];
   [8; 2; 3; 8; 4; 2; 4; 6; 2; -1];
   [0; 4; 2; 4; 6; 2; -1];
   [1; 9; 0; 2; 3; 4; 2; 4; 6; 4; 3; 8; -1];
   [1; 9; 4; 1; 4; 2; 2; 4; 6; -1];
   [8; 1; 3; 8; 6; 1; 8; 4; 6; 6; 10; 1; -1];
   [10; 1; 0; 10; 0; 6; 6; 0; 4; -1];
   [4; 6; 3; 4; 3; 8; 6; 10; 3; 0; 3; 9; 10; 9; 3; -1];
   [10; 9; 4; 6; 10; 4; -1];
   [4; 9; 5; 7; 6; 11; -1];
   [0; 8; 3; 4; 9; 5; 11; 7; 6; -1];
   [5; 0; 1; 5; 4; 0; 7; 6; 11; -1];
   [11; 7; 6; 8; 3; 4; 3; 5; 4; 3; 1; 5; -1];
   [9; 5; 4; 10; 1; 2; 7; 6; 11; -1];
   [6; 11; 7; 1; 2; 10; 0; 8; 3; 4; 9; 5; -1];
   [7; 6; 11; 5; 4; 10; 4; 2; 10; 4; 0; 2; -1];
   [3; 4; 8; 3; 5; 4; 3; 2; 5; 10; 5; 2; 11; 7; 6; -1];
   [7; 2; 3; 7; 6; 2; 5; 4; 9; -1];
   [9; 5; 4; 0; 8; 6; 0; 6; 2; 6; 8; 7; -1];
   [3; 6; 2; 3; 7; 6; 1; 5; 0; 5; 4; 0; -1];
   [6; 2; 8; 6; 8; 7; 2; 1; 8; 4; 8; 5; 1; 5; 8; -1];
   [9; 5; 4; 10; 1; 6; 1; 7; 6; 1; 3; 7; -1];
   [1; 6; 10; 1; 7; 6; 1; 0; 7; 8; 7; 0; 9; 5; 4; -1];
   [4; 0; 10; 4; 10; 5; 0; 3; 10; 6; 10; 7; 3; 7; 10; -1];
   [7; 6; 10; 7; 10; 8; 5; 4; 10; 4; 8; 10; -1];
   [6; 9; 5; 6; 11; 9; 11; 8; 9; -1];
   [3; 6; 11; 0; 6; 3; 0; 5; 6; 0; 9; 5; -1];
   [0; 11; 8; 0; 5; 11; 0; 1; 5; 5; 6; 11; -1];
   [6; 11; 3; 6; 3; 5; 5; 3; 1; -1];
   [1; 2; 10; 9; 5; 11; 9; 11; 8; 11; 5; 6; -1];
   [0; 11; 3; 0; 6; 11; 0; 9; 6; 5; 6; 9; 1; 2; 10; -1];
   [11; 8; 5; 11; 5; 6; 8; 0; 5; 10; 5; 2; 0; 2; 5; -1];
   [6; 11; 3; 6; 3; 5; 2; 10; 3; 10; 5; 3; -1];
   [5; 8; 9; 5; 2; 8; 5; 6; 2; 3; 8; 2; -1];
   [9; 5; 6; 9; 6; 0; 0; 6; 2; -1];
   [1; 5; 8; 1; 8; 0; 5; 6; 8; 3; 8; 2; 6; 2; 8; -1];
   [1; 5; 6; 2; 1; 6; -1];
   [1; 3; 6; 1; 6; 10; 3; 8; 6; 5; 6; 9; 8; 9; 6; -1];
   [10; 1; 0; 10; 0; 6; 9; 5; 0; 5; 6; 0; -1];
   [0; 3; 8; 5; 6; 10; -1];
   [10; 5; 6; -1];
   [11; 5; 10; 7; 5; 11; -1];
   [11; 5; 10; 11; 7; 5; 8; 3; 0; -1];
   [5; 11; 7; 5; 10; 11; 1; 9; 0; -1];
   [10; 7; 5; 10; 11; 7; 9; 8; 1; 8; 3; 1; -1];
   [11; 1; 2; 11; 7; 1; 7; 5; 1; -1];
   [0; 8; 3; 1; 2; 7; 1; 7; 5; 7; 2; 11; -1];
   [9; 7; 5; 9; 2; 7; 9; 0; 2; 2; 11; 7; -1];
   [7; 5; 2; 7; 2; 11; 5; 9; 2; 3; 2; 8; 9; 8; 2; -1];
   [2; 5; 10; 2; 3; 5; 3; 7; 5; -1];
   [8; 2; 0; 8; 5; 2; 8; 7; 5; 10; 2; 5; -1];
   [9; 0; 1; 5; 10; 3; 5; 3; 7; 3; 10; 2; -1];
   [9; 8; 2; 9; 2; 1; 8; 7; 2; 10; 2; 5; 7; 5; 2; -1];
   [1; 3; 5; 3; 7; 5; -1];
   [0; 8; 7; 0; 7; 1; 1; 7; 5; -1];
   [9; 0; 3; 9; 3; 5; 5; 3; 7; -1];
   [9; 8; 7; 5; 9; 7; -1];
   [5; 8; 4; 5; 10; 8; 10; 11; 8; -1];
   [5; 0; 4; 5; 11; 0; 5; 10; 11; 11; 3; 0; -1];
   [0; 1; 9; 8; 4; 10; 8; 10; 11; 10; 4; 5; -1];
   [10; 11; 4; 10; 4; 5; 11; 3; 4; 9; 4; 1; 3; 1; 4; -1];
   [2; 5; 1; 2; 8; 5; 2; 11; 8; 4; 5; 8; -1];
   [0; 4; 11; 0; 11; 3; 4; 5; 11; 2; 11; 1; 5; 1; 11; -1];
   [0; 2; 5; 0; 5; 9; 2; 11; 5; 4; 5; 8; 11; 8; 5; -1];
   [9; 4; 5; 2; 11; 3; -1];
   [2; 5; 10; 3; 5; 2; 3; 4; 5; 3; 8; 4; -1];
   [5; 10; 2; 5; 2; 4; 4; 2; 0; -1];
   [3; 10; 2; 3; 5; 10; 3; 8; 5; 4; 5; 8; 0; 1; 9; -1];
   [5; 10; 2; 5; 2; 4; 1; 9; 2; 9; 4; 2; -1];
   [8; 4; 5; 8; 5; 3; 3; 5; 1; -1];
   [0; 4; 5; 1; 0; 5; -1];
   [8; 4; 5; 8; 5; 3; 9; 0; 5; 0; 3; 5; -1];
   [9; 4; 5; -1];
   [4; 11; 7; 4; 9; 11; 9; 10; 11; -1];
   [0; 8; 3; 4; 9; 7; 9; 11; 7; 9; 10; 11; -1];
   [1; 10; 11; 1; 11; 4; 1; 4; 0; 7; 4; 11; -1];
   [3; 1; 4; 3; 4; 8; 1; 10; 4; 7; 4; 11; 10; 11; 4; -1];
   [4; 11; 7; 9; 11; 4; 9; 2; 11; 9; 1; 2; -1];
   [9; 7; 4; 9; 11; 7; 9; 1; 11; 2; 11; 1; 0; 8; 3; -1];
   [11; 7; 4; 11; 4; 2; 2; 4; 0; -1];
   [11; 7; 4; 11; 4; 2; 8; 3; 4; 3; 2; 4; -1];
   [2; 9; 10; 2; 7; 9; 2; 3; 7; 7; 4; 9; -1];
   [9; 10; 7; 9; 7; 4; 10; 2; 7; 8; 7; 0; 2; 0; 7; -1];
   [3; 7; 10; 3; 10; 2; 7; 4; 10; 1; 10; 0; 4; 0; 10; -1];
   [1; 10; 2; 8; 7; 4; -1];
   [4; 9; 1; 4; 1; 7; 7; 1; 3; -1];
   [4; 9; 1; 4; 1; 7; 0; 8; 1; 8; 7; 1; -1];
   [4; 0; 3; 7; 4; 3; -1];
   [4; 8; 7; -1];
   [9; 10; 8; 10; 11; 8; -1];
   [3; 0; 9; 3; 9; 11; 11; 9; 10; -1];
   [0; 1; 10; 0; 10; 8; 8; 10; 11; -1];
   [3; 1; 10; 11; 3; 10; -1];
   [1; 2; 11; 1; 11; 9; 9; 11; 8; -1];
   [3; 0; 9; 3; 9; 11; 1; 2; 9; 2; 11; 9; -1];
   [0; 2; 11; 8; 0; 11; -1];
   [3; 2; 11; -1];
   [2; 3; 8; 2; 8; 10; 10; 8; 9; -1];
   [9; 10; 2; 0; 9; 2; -1];
   [2; 3; 8; 2; 8; 10; 0; 1; 8; 1; 10; 8; -1];
   [1; 10; 2; -1];
   [1; 3; 8; 9; 1; 8; -1];
   [0; 9; 1; -1];
   [0; 3; 8; -1];
   [-1]]%Z.

(** [EDGE_CORNERS]: the two corners each of the 12 edges connects. *)
Definition EDGE_CORNERS : list (nat * nat) :=
  [(0, 1); (1, 2); (2, 3); (3, 0);
   (4, 5); (5, 6); (6, 7); (7, 4);
   (0, 4); (1, 5); (2, 6); (3, 7)]%nat.

(** [CORNER_OFFSETS]: the 8 corners of a unit cube. *)
Definition CORNER_OFFSETS : list (nat * nat * nat) :=
  [(0, 0, 0); (1, 0, 0); (1, 0, 1); (0, 0, 1);
   (0, 1, 0); (1, 1, 0); (1, 1, 1); (0, 1, 1)]%nat.

(** ** The metaball generator: field evaluation *)

Record Ball : Set := mkBall { ball_x : number; ball_y : number; ball_z : number;
                              radius : number }.

(** The innermost loop of [evaluateField]: the field at one point. *)
Definition fieldValue (balls : list Ball) (px py pz : number) : number :=
  foldl (λ val b,
           let dx := px - ball_x b in
           let dy := py - ball_y b in
           let dz := pz - ball_z b in
           let dist2 := dx * dx + dy * dy + dz * dz in
           let r := radius b in
           val + (r * r) / (dist2 + 0.0001))
        0 balls.

(** [evaluateField]: the [Float32Array] it fills, cell by cell. *)
Definition evaluateField (balls : list Ball) (gridMin : vec3) (cellSize : number)
    (res : nat) : list number :=
  let n := (res + 1)%nat in
  foldl (λ field iz,
    let pz := vz gridMin + num_of_nat iz * cellSize in
    foldl (λ field iy,
      let py := vy gridMin + num_of_nat iy * cellSize in
      foldl (λ field ix,
        let px := vx gridMin + num_of_nat ix * cellSize in
        <[((iz * n + iy) * n + ix)%nat := Math_fround (fieldValue balls px py pz)]> field)
        field (seq 0 n))
      field (seq 0 n))
    (replicate (n * n * n) 0) (seq 0 n).

(** ** The metaball generator: marching cubes *)

(** [mcInterpolate]. *)
Definition mcInterpolate (p1 p2 : vec3) (v1 v2 threshold : number) : vec3 :=
  if Math_abs (v1 - threshold) <? 0.00001 then p1
  else if Math_abs (v2 - threshold) <? 0.00001 then p2
  else if Math_abs (v1 - v2) <? 0.00001 then p1
  else
    let mu := (threshold - v1) / (v2 - v1) in
    Vec3 (vx p1 + mu * (vx p2 - vx p1))
         (vy p1 + mu * (vy p2 - vy p1))
         (vz p1 + mu * (vz p2 - vz p1)).

(** The arrays and the [Map] that [processCell] mutates. The keys of the
    map are integer-valued numbers, kept as their integers. *)
Record McState : Type := mkMcState {
  mc_vertices : list vec3; mc_triangles : list Tri; mc_edgeVertexMap : gmap Z nat }.

Section ProcessCell.
Variables (ix iy iz : nat) (field : list number) (n : nat) (gridMin : vec3)
          (cellSize threshold : number).

(** Grid coordinates of corner [c] of the cell. *)
Definition cornerGrid (c : nat) : option (nat * nat * nat) :=
  '(ox, oy, oz) ← CORNER_OFFSETS !! c;
  Some (ix + ox, iy + oy, iz + oz)%nat.

(** The first loop of [processCell]: [cornerVals], [cornerPos] and
    [cubeIndex], for the corners [c, c + 1, ...] in [cs]. *)
Fixpoint sampleCorners (cs : list nat) (cubeIndex : Z)
  : option (list number * list vec3 * Z) :=
  match cs with
  | [] => Some ([], [], cubeIndex)
  | c :: cs' =>
      '(gx, gy, gz) ← cornerGrid c;
      let val := default NaN (field !! ((gz * n + gy) * n + gx)%nat) in
      let pos := Vec3 (vx gridMin + num_of_nat gx * cellSize)
                      (vy gridMin + num_of_nat gy * cellSize)
                      (vz gridMin + num_of_nat gz * cellSize) in
      let cubeIndex := if geb val threshold
                       then Z.lor cubeIndex (Z.shiftl 1 (Z.of_nat c)) else cubeIndex in
      '(vals, poss, cubeIndex) ← sampleCorners cs' cubeIndex;
      Some (val :: vals, pos :: poss, cubeIndex)
  end.

(** The key of the grid edge between two corners. *)
Definition edgeKey (g1 g2 : nat * nat * nat) : Z :=
  let '(g1x, g1y, g1z) := g1 in
  let '(g2x, g2y, g2z) := g2 in
  let nn := num_of_nat n in
  let a := (num_of_nat g1z * nn + num_of_nat g1y) * nn + num_of_nat g1x in
  let b := (num_of_nat g2z * nn + num_of_nat g2y) * nn + num_of_nat g2x in
  trunc_Z (if a <? b then a * nn * nn * nn + b else b * nn * nn * nn + a).

(** The second loop of [processCell]: [edgeVerts] (a hole is a cell never
    assigned), the vertices and the map, for the edges in [es]. *)
Fixpoint crossEdges (edges : Z) (cornerVals : list number) (cornerPos : list vec3)
    (es : list nat) (vertices : list vec3) (edgeVertexMap : gmap Z nat)
  : option (list (option nat) * list vec3 * gmap Z nat) :=
  match es with
  | [] => Some ([], vertices, edgeVertexMap)
  | e :: es' =>
      if decide (Z.land edges (Z.shiftl 1 (Z.of_nat e)) = 0%Z) then
        '(evs, vertices, edgeVertexMap) ←
           crossEdges edges cornerVals cornerPos es' vertices edgeVertexMap;
        Some (None :: evs, vertices, edgeVertexMap)
      else
        '(c1, c2) ← EDGE_CORNERS !! e;
        g1 ← cornerGrid c1;
        g2 ← cornerGrid c2;
        let key := edgeKey g1 g2 in
        match edgeVertexMap !! key with
        | Some i =>
            '(evs, vertices, edgeVertexMap) ←
               crossEdges edges cornerVals cornerPos es' vertices edgeVertexMap;
            Some (Some i :: evs, vertices, edgeVertexMap)
        | None =>
            p1 ← cornerPos !! c1;
            p2 ← cornerPos !! c2;
            v1 ← cornerVals !! c1;
            v2 ← cornerVals !! c2;
            let pos := mcInterpolate p1 p2 v1 v2 threshold in
            let i := length vertices in
            '(evs, vertices, edgeVertexMap) ←
               crossEdges edges cornerVals cornerPos es' (vertices ++ [pos])
                 (<[key := i]> edgeVertexMap);
            Some (Some i :: evs, vertices, edgeVertexMap)
        end
  end.

(** [edgeVerts[e]] for a table entry [e], as an index into the vertices; a
    hole is [undefined], on which [smoothMesh] throws at its first use. *)
Definition edgeVert (edgeVerts : list (option nat)) (e : Z) : option nat :=
  if (e <? 0)%Z then None else mjoin (edgeVerts !! Z.to_nat e).

(** The third loop of [processCell]: three table entries per triangle until
    the [-1] sentinel or the end of the row. *)
Fixpoint emitTriangles (edgeVerts : list (option nat)) (triList : list Z)
    (triangles : list Tri) : option (list Tri) :=
  match triList with
  | [] => Some triangles
  | a :: rest =>
      if decide (a = (-1)%Z) then Some triangles else
      match rest with
      | b :: c :: rest' =>
          i ← edgeVert edgeVerts a;
          j ← edgeVert edgeVerts b;
          k ← edgeVert edgeVerts c;
          emitTriangles edgeVerts rest' (triangles ++ [mkTri i j k])
      | _ => None
      end
  end.

(** [processCell]. *)
Definition processCell (st : McState) : option McState :=
  '(cornerVals, cornerPos, cubeIndex) ← sampleCorners (seq 0 8) 0;
  edges ← EDGE_TABLE !! Z.to_nat cubeIndex;
  if decide (edges = 0%Z) then Some st else
  '(edgeVerts, vertices, edgeVertexMap) ←
     crossEdges edges cornerVals cornerPos (seq 0 12) (mc_vertices st)
       (mc_edgeVertexMap st);
  triList ← TRI_TABLE !! Z.to_nat cubeIndex;
  triangles ← emitTriangles edgeVerts triList (mc_triangles st);
  Some (mkMcState vertices triangles edgeVertexMap).

End ProcessCell.

(** A [for] loop over [0 .. n - 1] whose body may throw. *)
Definition forM {A} (n : nat) (body : nat → A → option A) (a : A) : option A :=
  foldl (λ acc i, a ← acc; body i a) (Some a) (seq 0 n).

(** [marchingCubes]. *)
Definition marchingCubes (field : list number) (res : nat) (gridMin : vec3)
    (cellSize threshold : number) : option (list vec3 * list Tri) :=
  let n := (res + 1)%nat in
  st ← forM res (λ iz, forM res (λ iy, forM res (λ ix,
          processCell ix iy iz field n gridMin cellSize threshold)))
        (mkMcState [] [] ∅);
  Some (mc_vertices st, mc_triangles st).

(** ** The metaball generator: mesh smoothing *)

(** The object [{ val, gx, gy, gz }] of [evalFieldAndGradient]. *)
Record FieldGrad : Set := mkFieldGrad {
  fg_val : number; fg_gx : number; fg_gy : number; fg_gz : number }.

(** [evalFieldAndGradient]. *)
Definition evalFieldAndGradient (px py pz : number) (balls : list Ball) : FieldGrad :=
  foldl (λ acc b,
           let dx := px - ball_x b in
           let dy := py - ball_y b in
           let dz := pz - ball_z b in
           let dist2 := dx * dx + dy * dy + dz * dz + 0.0001 in
           let r2 := radius b * radius b in
           let factor := -2.0 * r2 / (dist2 * dist2) in
           mkFieldGrad (fg_val acc + r2 / dist2)
                       (fg_gx acc + factor * dx)
                       (fg_gy acc + factor * dy)
                       (fg_gz acc + factor * dz))
        (mkFieldGrad 0 0 0 0) balls.

(** A JS [Set] of vertex indices, in insertion order. *)
Definition setAdd (s : list nat) (x : nat) : list nat :=
  if decide (x ∈ s) then s else s ++ [x].

(** [neighborSets[i].add(j)]: it throws when [neighborSets[i]] is missing. *)
Definition addNeighbor (sets : list (list nat)) (i j : nat) : option (list (list nat)) :=
  s ← sets !! i;
  Some (<[i := setAdd s j]> sets).

(** The adjacency loop of [smoothMesh]. *)
Definition buildNeighborSets (vertexCount : nat) (triangles : list Tri)
  : option (list (list nat)) :=
  foldl (λ acc tri,
           sets ← acc;
           sets ← addNeighbor sets (ta tri) (tb tri);
           sets ← addNeighbor sets (ta tri) (tc tri);
           sets ← addNeighbor sets (tb tri) (ta tri);
           sets ← addNeighbor sets (tb tri) (tc tri);
           sets ← addNeighbor sets (tc tri) (ta tri);
           addNeighbor sets (tc tri) (tb tri))
        (Some (replicate vertexCount [])) triangles.

(** One round of the Laplacian loop: vertex [i] moves half-way to the
    average of its neighbours, read from the array as it is now. *)
Definition relaxVertex (neighborSets : list (list nat)) (i : nat)
    (vertices : list vec3) : option (list vec3) :=
  neighbors ← neighborSets !! i;
  if decide (length neighbors = 0)%nat then Some vertices else
  '(ax, ay, az) ←
     foldl (λ acc ni,
              '(ax, ay, az) ← acc;
              v ← vertices !! ni;
              Some (ax + vx v, ay + vy v, az + vz v))
           (Some (0, 0, 0)) neighbors;
  let n := num_of_nat (length neighbors) in
  p ← vertices !! i;
  Some (<[i := Vec3 (vx p * 0.5 + (ax / n) * 0.5)
                    (vy p * 0.5 + (ay / n) * 0.5)
                    (vz p * 0.5 + (az / n) * 0.5)]> vertices).

(** One round of the projection loop: a Newton step along the gradient. *)
Definition projectVertex (balls : list Ball) (threshold : number) (i : nat)
    (vertices : list vec3) : option (list vec3) :=
  p ← vertices !! i;
  let fg := evalFieldAndGradient (vx p) (vy p) (vz p) balls in
  let gmag2 := fg_gx fg * fg_gx fg + fg_gy fg * fg_gy fg + fg_gz fg * fg_gz fg in
  if gmag2 <? 1e-10 then Some vertices else
  let step := (fg_val fg - threshold) / gmag2 in
  Some (<[i := Vec3 (vx p - fg_gx fg * step)
                    (vy p - fg_gy fg * step)
                    (vz p - fg_gz fg * step)]> vertices).

(** [smoothMesh]: the contents of its two argument arrays when it returns. *)
Definition smoothMesh (vertices : list vec3) (triangles : list Tri)
    (balls : list Ball) (threshold : number) (iterations : nat)
  : option (list vec3 * list Tri) :=
  neighborSets ← buildNeighborSets (length vertices) triangles;
  vertices ←
    forM iterations (λ _ vertices,
      vertices ← forM (length vertices) (relaxVertex neighborSets) vertices;
      forM (length vertices) (projectVertex balls threshold) vertices)
      vertices;
  Some (vertices, triangles).

(** ** The metaball generator: normals and the public entry point *)

(** [computeMetaballNormals]; [len || 1] replaces a zero or NaN length. *)
Definition computeMetaballNormals (vertices : list vec3) (balls : list Ball)
  : list vec3 :=
  map (λ p,
         let fg := evalFieldAndGradient (vx p) (vy p) (vz p) balls in
         let len := Math_sqrt (fg_gx fg * fg_gx fg + fg_gy fg * fg_gy fg
                               + fg_gz fg * fg_gz fg) in
         let len := if (len =? 0) || is_nan len then 1 else len in
         Vec3 (- fg_gx fg / len) (- fg_gy fg / len) (- fg_gz fg / len))
      vertices.

(** The object [generateMetaballMesh] returns; [normals] is [None] when the
    object has no such property. *)
Record Mesh : Set := mkMesh {
  vertices : list vec3; mesh_triangles : list Tri; normals : option (list vec3) }.

(** The bounding-box loop of [generateMetaballMesh]. *)
Definition ballBounds (balls : list Ball) : vec3 * vec3 :=
  let padding := 1.5 in
  foldl (λ '(mn, mx) b,
           let r := radius b * padding in
           (Vec3 (Math_min (vx mn) (ball_x b - r)) (Math_min (vy mn) (ball_y b - r))
                 (Math_min (vz mn) (ball_z b - r)),
            Vec3 (Math_max (vx mx) (ball_x b + r)) (Math_max (vy mx) (ball_y b + r))
                 (Math_max (vz mx) (ball_z b + r))))
        (Vec3 Infinity Infinity Infinity,
         Vec3 (- Infinity) (- Infinity) (- Infinity)) balls.

(** [generateMetaballMesh]. *)
Definition generateMetaballMesh (balls : list Ball) (res : nat) (threshold : number)
  : option Mesh :=
  if decide (length balls = 0)%nat then Some (mkMesh [Vec3 0 0 0] [] None) else
  let '(mn, mx) := ballBounds balls in
  let span := Math_max (Math_max (vx mx - vx mn) (vy mx - vy mn)) (vz mx - vz mn) in
  let cx := (vx mn + vx mx) * 0.5 in
  let cy := (vy mn + vy mx) * 0.5 in
  let cz := (vz mn + vz mx) * 0.5 in
  let half := span * 0.5 in
  let gridMin := Vec3 (cx - half) (cy - half) (cz - half) in
  let cellSize := span / num_of_nat res in
  let field := evaluateField balls gridMin cellSize res in
  '(vs, ts) ← marchingCubes field res gridMin cellSize threshold;
  '(vs, ts) ← smoothMesh vs ts balls threshold 2;
  Some (mkMesh vs ts (Some (computeMetaballNormals vs balls))).

(** ** software-render.js: the scanline rasterizer *)

(** A polygon point [[x, y, z, nx, ny, nz]] as [drawObject] passes it to
    [fillpoly]: the projected position and the rotated normal. *)
Record Pt : Set := mkPt {
  pt_x : number; pt_y : number; pt_z : number;
  pt_nx : number; pt_ny : number; pt_nz : number }.

(** An entry [[x, z, nx, ny, nz]] of the array [scanlineHits] returns. *)
Record SpanEnd : Set := mkSpanEnd {
  se_x : number; se_z : number; se_nx : number; se_ny : number; se_nz : number }.

(** [polyYBounds]: the rows [pts[i][1] | 0] are int32 values, kept as
    integers; [HEIGHT] is 420. *)
Definition polyYBounds (pts : list Pt) : Z * Z :=
  let '(ymin, ymax) :=
    foldl (λ '(ymin, ymax) p,
             let y := ToInt32 (pt_y p) in
             (if (y <? ymin)%Z then y else ymin, if (ymax <? y)%Z then y else ymax))
          (420, 0)%Z pts in
  (Z.max 0 ymin, Z.min (420 - 1) ymax).

(** The test [(y0 <= y && y1 > y) || (y1 <= y && y0 > y)]. *)
Definition crossesScanline (y0 y1 y : number) : bool :=
  ((y0 <=? y) && gtb y1 y) || ((y1 <=? y) && gtb y0 y).

(** The body of the loop of [scanlineHits] for the edge from [p] to [q]. *)
Definition edgeHit (p q : Pt) (y : number) : option SpanEnd :=
  let y0 := pt_y p in
  let y1 := pt_y q in
  if crossesScanline y0 y1 y then
    let t := (y - y0) / (y1 - y0) in
    Some (mkSpanEnd (pt_x p + t * (pt_x q - pt_x p))
                    (pt_z p + t * (pt_z q - pt_z p))
                    (pt_nx p + t * (pt_nx q - pt_nx p))
                    (pt_ny p + t * (pt_ny q - pt_ny p))
                    (pt_nz p + t * (pt_nz q - pt_nz p)))
  else None.

(** [hits.sort((a, b) => a[0] - b[0])], as the stable sort of [sortBy]. *)
Fixpoint sortSpanInsert (x : SpanEnd) (l : list SpanEnd) : list SpanEnd :=
  match l with
  | [] => [x]
  | y :: ys => if se_x y - se_x x <? 0 then y :: sortSpanInsert x ys else x :: y :: ys
  end.

Definition sortSpans (l : list SpanEnd) : list SpanEnd := foldr sortSpanInsert [] l.

(** [scanlineHits]: edge [i] runs from [pts[i]] to [pts[(i + 1) % n]]. *)
Definition scanlineHits (pts : list Pt) (y : number) : list SpanEnd :=
  let n := length pts in
  sortSpans
    (omap (λ i, p ← pts !! i; q ← pts !! ((i + 1) mod n)%nat; edgeHit p q y)
          (seq 0 n)).

(** ** software-render.js and primitives.js: face normals *)

(** [cross]. *)
Definition cross (a b : vec3) : vec3 :=
  Vec3 (vy a * vz b - vz a * vy b)
       (vz a * vx b - vx a * vz b)
       (vx a * vy b - vy a * vx b).

(** [faceNormal]. *)
Definition faceNormal (v0 v1 v2 : vec3) : vec3 :=
  normalize (cross (Vec3 (vx v1 - vx v0) (vy v1 - vy v0) (vz v1 - vz v0))
                   (Vec3 (vx v2 - vx v0) (vy v2 - vy v0) (vz v2 - vz v0))).

(** [computeFaceNormals]: one normal per triangle; reading a coordinate
    of a missing vertex throws. *)
Definition computeFaceNormals (vertices : list vec3) (triangles : list Tri)
  : option (list vec3) :=
  mapM (λ tri,
          v0 ← vertices !! ta tri;
          v1 ← vertices !! tb tri;
          v2 ← vertices !! tc tri;
          Some (faceNormal v0 v1 v2))
       triangles.

(** ** primitives.js and raytrace-common.js: meshes in world space *)

(** The object [rotationCache] returns. *)
Record RotCache : Set := mkRotCache {
  cosX : number; sinX : number; cosY : number; sinY : number;
  cosZ : number; sinZ : number }.

(** [rotateVec]. *)
Definition rotateVec (x y z : number) (rc : RotCache) : vec3 :=
  let x1 := x * cosY rc + z * sinY rc in
  let z1 := - x * sinY rc + z * cosY rc in
  let y1 := y * cosX rc - z1 * sinX rc in
  let z2 := y * sinX rc + z1 * cosX rc in
  Vec3 (x1 * cosZ rc - y1 * sinZ rc) (x1 * sinZ rc + y1 * cosZ rc) z2.

(** The module-level variables [rotX], [rotY], [rotZ]. *)
Record Rotation : Set := mkRotation { rotX : number; rotY : number; rotZ : number }.

(** What [transformMesh] returns: the fields the CPU tracer reads, as a
    [SceneObj], and the object's bounding box. *)
Record WorldMesh : Set := mkWorldMesh {
  wm_obj : SceneObj; wm_bmin : vec3; wm_bmax : vec3 }.

Section Transform.
(** [Math.cos] and [Math.sin], which ECMAScript leaves
    implementation-approximated. *)
Variables Math_cos Math_sin : number → number.

(** [rotationCache], over the rotation globals it reads. *)
Definition rotationCache (rot : Rotation) : RotCache :=
  mkRotCache (Math_cos (rotX rot)) (Math_sin (rotX rot))
             (Math_cos (rotY rot)) (Math_sin (rotY rot))
             (Math_cos (rotZ rot)) (Math_sin (rotZ rot)).

(** [transformMesh]: it sets the rotation globals, which are returned
    beside the object. An array argument that is [null] or [undefined] is
    [None]; so is a missing [reflectivity], and [reflectivity || 0] makes 0
    of that, of zero and of NaN. *)
Definition transformMesh (vertices : list vec3) (triangles : list Tri)
    (colors : list Color) (rx ry rz ox oy oz : number)
    (vertexNormals faceNormals : option (list vec3)) (reflectivity : option number)
  : option (WorldMesh * Rotation) :=
  let rot := mkRotation rx ry rz in
  let rc := rotationCache rot in
  let worldVerts :=
    map (λ v, let r := rotateVec (vx v) (vy v) (vz v) rc in
              Vec3 (vx r + ox) (vy r + oy) (vz r + oz)) vertices in
  let worldVertexNormals :=
    map (λ n, rotateVec (vx n) (vy n) (vz n) rc) <$> vertexNormals in
  let worldFaceNormals :=
    map (λ n, rotateVec (vx n) (vy n) (vz n) rc) <$> faceNormals in
  bvhNodes ← buildBVH worldVerts triangles;
  '(lo, hi) ← match bvhNodes with
              | [] => Some (Vec3 0 0 0, Vec3 0 0 0)
              | Some root :: _ => Some (bmin root, bmax root)
              | None :: _ => None
              end;
  Some (mkWorldMesh
          (mkSceneObj worldVerts triangles colors worldVertexNormals worldFaceNormals
             bvhNodes
             (match reflectivity with
              | Some r => if (r =? 0) || is_nan r then 0 else r
              | None => 0
              end))
          lo hi,
        rot).

End Transform.

(** * Order facts about JS numbers *)

(** Case analysis on the comparisons inside [SFcompare]. *)
Ltac sf_cases :=
  repeat match goal with
  | |- context [(?x ?= ?y)%Z] => destruct (Z.compare_spec x y)
  | |- context [Pos.compare_cont Eq ?x ?y] =>
      change (Pos.compare_cont Eq x y) with (Pos.compare x y);
      destruct (Pos.compare_spec x y)
  end; simpl; try done; try lia.

Ltac sf_order :=
  unfold SFleb, SFltb, SFeqb, SFcompare;
  repeat match goal with
  | a : spec_float |- _ => destruct a as [[]|[]| |[] ? ?]
  end; simpl; try done; sf_cases.

Lemma SFleb_trans a b c : SFleb a b = true → SFleb b c = true → SFleb a c = true.
Proof. sf_order. Qed.

Lemma SFltb_leb_trans a b c : SFltb a b = true → SFleb b c = true → SFltb a c = true.
Proof. sf_order. Qed.

Lemma SFleb_ltb_trans a b c : SFleb a b = true → SFltb b c = true → SFltb a c = true.
Proof. sf_order. Qed.

Lemma SFltb_leb a b : SFltb a b = true → SFleb a b = true.
Proof. sf_order. Qed.

Lemma SFleb_not_ltb a b : SFleb a b = true → SFltb b a = false.
Proof. sf_order. Qed.

Lemma SFltb_false_leb a b :
  SFltb a b = false → SFeqb a a = true → SFeqb b b = true → SFleb b a = true.
Proof. sf_order. Qed.

Lemma SFltb_eqb_refl a b : SFltb a b = true → SFeqb a a = true ∧ SFeqb b b = true.
Proof. sf_order. Qed.

Lemma SFleb_eqb_refl a b : SFleb a b = true → SFeqb a a = true ∧ SFeqb b b = true.
Proof. sf_order. Qed.

Lemma SFleb_refl a : SFeqb a a = true → SFleb a a = true.
Proof. sf_order. Qed.

Lemma SFleb_infinity a : SFeqb a a = true → SFleb a (S754_infinity false) = true.
Proof. sf_order. Qed.

Lemma SFleb_neg_infinity a : SFeqb a a = true → SFleb (S754_infinity true) a = true.
Proof. sf_order. Qed.

(** A number that is not NaN. *)
Definition is_num (x : number) : Prop := is_nan x = false.

Lemma is_num_spec x : is_num x ↔ SFeqb (Prim2SF x) (Prim2SF x) = true.
Proof.
  unfold is_num, is_nan. rewrite FloatAxioms.eqb_spec. destruct (SFeqb _ _); naive_solver.
Qed.

Lemma ltb_leb_trans a b c : (a <? b) = true → (b <=? c) = true → (a <? c) = true.
Proof. rewrite !ltb_spec, leb_spec. apply SFltb_leb_trans. Qed.

Lemma leb_ltb_trans a b c : (a <=? b) = true → (b <? c) = true → (a <? c) = true.
Proof. rewrite !ltb_spec, leb_spec. apply SFleb_ltb_trans. Qed.

Lemma leb_trans a b c : (a <=? b) = true → (b <=? c) = true → (a <=? c) = true.
Proof. rewrite !leb_spec. apply SFleb_trans. Qed.

Lemma ltb_leb a b : (a <? b) = true → (a <=? b) = true.
Proof. rewrite ltb_spec, leb_spec. apply SFltb_leb. Qed.

Lemma leb_not_ltb a b : (a <=? b) = true → (b <? a) = false.
Proof. rewrite ltb_spec, leb_spec. apply SFleb_not_ltb. Qed.

Lemma ltb_false_leb a b : (a <? b) = false → is_num a → is_num b → (b <=? a) = true.
Proof. rewrite ltb_spec, leb_spec, !is_num_spec. apply SFltb_false_leb. Qed.

Lemma ltb_is_num a b : (a <? b) = true → is_num a ∧ is_num b.
Proof. rewrite ltb_spec, !is_num_spec. apply SFltb_eqb_refl. Qed.

Lemma leb_is_num a b : (a <=? b) = true → is_num a ∧ is_num b.
Proof. rewrite leb_spec, !is_num_spec. apply SFleb_eqb_refl. Qed.

Lemma leb_refl a : is_num a → (a <=? a) = true.
Proof. rewrite leb_spec, is_num_spec. apply SFleb_refl. Qed.

Lemma leb_Infinity a : is_num a → (a <=? Infinity) = true.
Proof. rewrite leb_spec, is_num_spec. apply SFleb_infinity. Qed.

Lemma neg_Infinity_leb a : is_num a → (- Infinity <=? a) = true.
Proof. rewrite leb_spec, is_num_spec. apply SFleb_neg_infinity. Qed.

(** * The ray-triangle test (Möller–Trumbore) *)

(** The local variables [det], [u], [v] and [t] of [rayTriangleIntersect] as
    functions of its arguments. *)
Section MollerTrumbore.
Variables (ox oy oz dx dy dz : number) (v0 v1 v2 : vec3).

Definition mtDet : number :=
  (vx v1 - vx v0) * (dy * (vz v2 - vz v0) - dz * (vy v2 - vy v0))
  + (vy v1 - vy v0) * (dz * (vx v2 - vx v0) - dx * (vz v2 - vz v0))
  + (vz v1 - vz v0) * (dx * (vy v2 - vy v0) - dy * (vx v2 - vx v0)).

Definition mtU : number :=
  ((ox - vx v0) * (dy * (vz v2 - vz v0) - dz * (vy v2 - vy v0))
   + (oy - vy v0) * (dz * (vx v2 - vx v0) - dx * (vz v2 - vz v0))
   + (oz - vz v0) * (dx * (vy v2 - vy v0) - dy * (vx v2 - vx v0)))
  * (1 / mtDet).

Definition mtV : number :=
  (dx * ((oy - vy v0) * (vz v1 - vz v0) - (oz - vz v0) * (vy v1 - vy v0))
   + dy * ((oz - vz v0) * (vx v1 - vx v0) - (ox - vx v0) * (vz v1 - vz v0))
   + dz * ((ox - vx v0) * (vy v1 - vy v0) - (oy - vy v0) * (vx v1 - vx v0)))
  * (1 / mtDet).

Definition mtT : number :=
  ((vx v2 - vx v0) * ((oy - vy v0) * (vz v1 - vz v0) - (oz - vz v0) * (vy v1 - vy v0))
   + (vy v2 - vy v0) * ((oz - vz v0) * (vx v1 - vx v0) - (ox - vx v0) * (vz v1 - vz v0))
   + (vz v2 - vz v0) * ((ox - vx v0) * (vy v1 - vy v0) - (oy - vy v0) * (vx v1 - vx v0)))
  * (1 / mtDet).

(** The four rejection tests of the code, in the order it runs them. *)
Definition mtRejects : bool :=
  (Math_abs mtDet <? RT_EPSILON) || (mtU <? 0) || gtb mtU 1
  || (mtV <? 0) || gtb (mtU + mtV) 1 || (mtT <? RT_EPSILON).

Lemma rayTriangleIntersect_cases :
  rayTriangleIntersect ox oy oz dx dy dz v0 v1 v2
  = if mtRejects then None else Some (mkHit mtT mtU mtV).
Proof.
  unfold rayTriangleIntersect, mtRejects.
  fold mtDet. fold mtU. fold mtV. fold mtT.
  destruct (Math_abs mtDet <? RT_EPSILON), (mtU <? 0), (gtb mtU 1),
    (mtV <? 0), (gtb (mtU + mtV) 1), (mtT <? RT_EPSILON); reflexivity.
Qed.

End MollerTrumbore.

(** The claim's bounds fail on a hit whose distance is NaN: here the edge
    products overflow, [det] is infinite, [1 / det] is zero and [t] is the
    product of an infinity and a zero. *)
Lemma rayTriangleIntersect_nan_hit :
  ∃ h, rayTriangleIntersect 0 0 (-1) 0 0 1
         (Vec3 0 0 0) (Vec3 1e200 0 0) (Vec3 0 1e200 0) = Some h
       ∧ (RT_EPSILON <=? hit_t h) = false.
Proof. eexists. split; [vm_compute; reflexivity | vm_compute; reflexivity]. Qed.

(** C6, as the code has it: [rayTriangleIntersect] always returns, [null]
    or a hit [{t, u, v}]; it returns [null] whenever one of the tests
    [|det| < epsilon], [u < 0], [u > 1], [v < 0], [u + v > 1],
    [t < epsilon] holds; on a returned hit none of them holds, and the
    bounds [0 <= u], [0 <= v], [u + v <= 1], [epsilon <= t] follow for the
    values that are not NaN. *)
Theorem rayTriangleIntersect_miss_or_bounded ox oy oz dx dy dz v0 v1 v2 :
  let det := mtDet dx dy dz v0 v1 v2 in
  let u := mtU ox oy oz dx dy dz v0 v1 v2 in
  let v := mtV ox oy oz dx dy dz v0 v1 v2 in
  let t := mtT ox oy oz dx dy dz v0 v1 v2 in
  let r := rayTriangleIntersect ox oy oz dx dy dz v0 v1 v2 in
  (r = None ∨ r = Some (mkHit t u v))
  ∧ ((Math_abs det <? RT_EPSILON) = true ∨ (u <? 0) = true ∨ gtb u 1 = true
     ∨ (v <? 0) = true ∨ gtb (u + v) 1 = true ∨ (t <? RT_EPSILON) = true
     → r = None)
  ∧ (∀ h, r = Some h →
       h = mkHit t u v
       ∧ (Math_abs det <? RT_EPSILON) = false
       ∧ (hit_u h <? 0) = false ∧ gtb (hit_u h) 1 = false
       ∧ (hit_v h <? 0) = false ∧ gtb (hit_u h + hit_v h) 1 = false
       ∧ (hit_t h <? RT_EPSILON) = false
       ∧ (is_num (hit_u h) → (0 <=? hit_u h) = true)
       ∧ (is_num (hit_v h) → (0 <=? hit_v h) = true)
       ∧ (is_num (hit_u h + hit_v h) → (hit_u h + hit_v h <=? 1) = true)
       ∧ (is_num (hit_t h) → (RT_EPSILON <=? hit_t h) = true)).
Proof.
  intros det u v t r. subst r.
  rewrite rayTriangleIntersect_cases. fold det u v t. unfold mtRejects.
  fold det u v t.
  destruct (Math_abs det <? RT_EPSILON) eqn:Hd, (u <? 0) eqn:Hu0, (gtb u 1) eqn:Hu1,
    (v <? 0) eqn:Hv0, (gtb (u + v) 1) eqn:Huv, (t <? RT_EPSILON) eqn:Ht; simpl;
    (split; [auto|]); (split; [intros [?|[?|[?|[?|[?|?]]]]]; (reflexivity || discriminate)|]); try (intros h ?; discriminate).
  intros h [= <-]. simpl.
  repeat split; auto; intros Hn; apply ltb_false_leb; auto; reflexivity.
Qed.

(** * The environment: a bounded checkerboard floor *)

Lemma checkerColor_tile fl hx hz :
  checkerColor fl hx hz = fl_color0 fl ∨ checkerColor fl hx hz = fl_color1 fl.
Proof. unfold checkerColor. case_decide; auto. Qed.

(** The floor stops at [minX .. maxX] and [minZ .. maxZ]: a ray that goes
    straight down onto the plane at x = 10000 has [|dy| >= epsilon] and
    [t = 120 >= epsilon] and still misses. *)
Lemma envIntersect_beyond_floor :
  (RT_EPSILON <=? Math_abs 1) = true
  ∧ (RT_EPSILON <=? (FLOOR_Y - 0) / 1) = true
  ∧ envIntersect 10000 0 0 0 1 0 = None.
Proof. repeat split; vm_compute; reflexivity. Qed.

(** C7, as the code has it: the floor is the plane [y = FLOOR_Y] cut to the
    rectangle [minX <= x <= maxX], [minZ <= z <= maxZ]. For a ray with
    [|dy| >= epsilon] that meets the plane at [t >= epsilon], [envIntersect]
    returns a hit at distance [t] with a checkerboard colour, normal
    [(0, -1, 0)] and reflectivity 0 when the hit point lies in the
    rectangle, and [null] when the hit point lies outside it. *)
Theorem envIntersect_bounded_floor ox oy oz dx dy dz :
  let fl := environment_floor in
  let t := (fl_y fl - oy) / dy in
  let hx := ox + dx * t in
  let hz := oz + dz * t in
  (RT_EPSILON <=? Math_abs dy) = true →
  (RT_EPSILON <=? t) = true →
  ((fl_minX fl <=? hx) = true → (hx <=? fl_maxX fl) = true →
   (fl_minZ fl <=? hz) = true → (hz <=? fl_maxZ fl) = true →
   envIntersect ox oy oz dx dy dz
     = Some (mkEnvHit t (checkerColor fl hx hz) 0 (-1) 0 0)
   ∧ (checkerColor fl hx hz = fl_color0 fl ∨ checkerColor fl hx hz = fl_color1 fl))
  ∧ ((hx <? fl_minX fl) = true ∨ gtb hx (fl_maxX fl) = true
     ∨ (hz <? fl_minZ fl) = true ∨ gtb hz (fl_maxZ fl) = true →
     envIntersect ox oy oz dx dy dz = None).
Proof.
  intros fl t hx hz Hdy Ht.
  unfold envIntersect, envIntersectOn. fold fl. fold t. fold hx. fold hz.
  rewrite (leb_not_ltb _ _ Hdy), (leb_not_ltb _ _ Ht).
  split.
  - intros H1 H2 H3 H4. unfold gtb.
    rewrite (leb_not_ltb _ _ H1), (leb_not_ltb _ _ H2),
      (leb_not_ltb _ _ H3), (leb_not_ltb _ _ H4).
    split; [reflexivity | apply checkerColor_tile].
  - intros [H | [H | [H | H]]]; rewrite H, ?orb_true_r; reflexivity.
Qed.

(** A ray from the origin straight down meets the floor inside its
    rectangle, on a red tile. *)
Lemma envIntersect_bounded_floor_witness :
  envIntersect 0 0 0 0 1 0 = Some (mkEnvHit 120 (Vec3 180 30 30) 0 (-1) 0 0).
Proof.
  refine (proj1 (proj1 (envIntersect_bounded_floor 0 0 0 0 1 0 _ _) _ _ _ _));
    vm_compute; reflexivity.
Defined.

(** * The mesh generator on an empty ball list *)

(** C5, at the failing input: with no balls the generator returns one
    vertex and no triangle, and the returned object has no [normals]. *)
Theorem generateMetaballMesh_no_balls res threshold :
  generateMetaballMesh [] res threshold = Some (mkMesh [Vec3 0 0 0] [] None).
Proof. reflexivity. Qed.

(** With at least one ball the returned object does carry [normals], one
    per vertex. *)
Lemma generateMetaballMesh_normals balls res threshold m :
  balls ≠ [] →
  generateMetaballMesh balls res threshold = Some m →
  normals m = Some (computeMetaballNormals (vertices m) balls).
Proof.
  intros Hne. unfold generateMetaballMesh.
  destruct balls as [|b bs]; [done|]. simpl length.
  case_decide; [lia|].
  destruct (ballBounds _) as [mn mx].
  intros Hm. apply bind_Some in Hm as [[vs ts] [_ H']].
  apply bind_Some in H' as [[vs' ts'] [_ H'']].
  injection H'' as <-. reflexivity.
Qed.

(** * The two field evaluators *)

(** The [val] of [evalFieldAndGradient] is the sum [evaluateField] forms,
    term by term and in the same order. *)
Lemma fieldValue_fg_val balls px py pz :
  fieldValue balls px py pz = fg_val (evalFieldAndGradient px py pz balls).
Proof.
  unfold fieldValue, evalFieldAndGradient.
  change 0 with (fg_val (mkFieldGrad 0 0 0 0)) at 1.
  generalize (mkFieldGrad 0 0 0 0).
  induction balls as [|b bs IH]; intros acc; [reflexivity|].
  simpl. rewrite <- IH. reflexivity.
Qed.

(** [writes R l l']: the array [l'] is [l] with the cells that [R] names
    overwritten by the values [R] gives them. *)
Definition writes {A} (R : nat → A → Prop) (l l' : list A) : Prop :=
  length l' = length l
  ∧ (∀ j a, R j a → l' !! j = Some a)
  ∧ (∀ j, (∀ a, ¬ R j a) → l' !! j = l !! j).

Lemma writes_insert {A} (l : list A) (p : nat) (x : A) :
  (p < length l)%nat → writes (λ j a, j = p ∧ a = x) l (<[p := x]> l).
Proof.
  intros Hp. split; [apply length_insert|]. split.
  - intros j a [-> ->]. by apply list_lookup_insert_eq.
  - intros j Hj. apply list_lookup_insert_ne. intros ->. by apply (Hj x).
Qed.

(** A loop whose rounds write disjoint cells writes the union of them. *)
Lemma writes_foldl {A} (F : list A → nat → list A) (R : nat → nat → A → Prop)
    (n : nat) (l : list A) :
  (∀ i l0, (i < n)%nat → length l0 = length l → writes (R i) l0 (F l0 i)) →
  (∀ i i' j a a', (i < n)%nat → (i' < n)%nat → R i j a → R i' j a' → i = i') →
  writes (λ j a, ∃ i, (i < n)%nat ∧ R i j a) l (foldl F l (seq 0 n)).
Proof.
  induction n as [|n IH]; intros Hbody Hdisj.
  - simpl. split; [done|]. split; [|done]. intros j a (i & Hi & _). lia.
  - rewrite seq_S, foldl_app. simpl.
    destruct IH as (Hlen & Hin & Hout).
    { intros i l0 Hi. apply Hbody. lia. }
    { intros i i' j a a' Hi Hi'. apply Hdisj; lia. }
    destruct (Hbody n (foldl F l (seq 0 n))) as (Hlen' & Hin' & Hout'); [lia|done|].
    split; [congruence|]. split.
    + intros j a (i & Hi & HR).
      destruct (decide (i = n)) as [->|Hne]; [by apply Hin'|].
      rewrite Hout'.
      * apply Hin. exists i. split; [lia|done].
      * intros a' HR'. apply Hne. apply (Hdisj i n j a a'); [lia|lia|done|done].
    + intros j Hj. rewrite Hout'.
      * apply Hout. intros a (i & Hi & HR). apply (Hj a). exists i. split; [lia|done].
      * intros a HR. apply (Hj a). exists n. split; [lia|done].
Qed.

(** The cell of the sample grid for the point [(ix, iy, iz)]. *)
Definition gridCell (n ix iy iz : nat) : nat := ((iz * n + iy) * n + ix)%nat.

(** The coordinates of grid point [i] along one axis. *)
Definition gridCoord (origin cellSize : number) (i : nat) : number :=
  origin + num_of_nat i * cellSize.

Lemma evaluateField_writes balls gridMin cellSize res :
  let n := S res in
  writes (λ j a, ∃ iz, (iz < n)%nat ∧ ∃ iy, (iy < n)%nat ∧ ∃ ix, (ix < n)%nat
                 ∧ j = gridCell n ix iy iz
                 ∧ a = Math_fround (fieldValue balls
                         (gridCoord (vx gridMin) cellSize ix)
                         (gridCoord (vy gridMin) cellSize iy)
                         (gridCoord (vz gridMin) cellSize iz)))
    (replicate (n * n * n) 0) (evaluateField balls gridMin cellSize res).
Proof.
  intros n. unfold evaluateField.
  replace (res + 1)%nat with n by (unfold n; lia).
  apply writes_foldl.
  - intros iz l0 Hiz Hl0. rewrite length_replicate in Hl0.
    apply writes_foldl.
    + intros iy l1 Hiy Hl1.
      apply (writes_foldl
               (λ field ix, <[gridCell n ix iy iz := _]> field)
               (λ ix j a, j = gridCell n ix iy iz ∧ a = _)).
      * intros ix l2 Hix Hl2. apply writes_insert.
        unfold gridCell. rewrite Hl2, Hl1, Hl0. nia.
      * intros ix ix' j a a' _ _ [-> _] [Hj _]. unfold gridCell in Hj. lia.
    + intros iy iy' j a a' _ _ (ix & Hix & -> & _) (ix' & Hix' & Hj & _).
      unfold gridCell in Hj. nia.
  - intros iz iz' j a a' _ _ (iy & Hiy & ix & Hix & -> & _)
      (iy' & Hiy' & ix' & Hix' & Hj & _).
    unfold gridCell in Hj. nia.
Qed.

(** With one ball of radius 1 at the origin and the grid point (1, 0, 0),
    the stored sample and [val] differ: the [Float32Array] cell holds the
    binary32 rounding of the sum. *)
Lemma evaluateField_stored_differs :
  let balls := [mkBall 0 0 0 1] in
  ∃ stored : number,
    evaluateField balls (Vec3 (-1) (-1) (-1)) 1 2 !! gridCell 3 2 1 1 = Some stored
    ∧ (stored =? fg_val (evalFieldAndGradient
                           (gridCoord (-1) 1 2) (gridCoord (-1) 1 1) (gridCoord (-1) 1 1)
                           balls)) = false.
Proof. eexists. split; vm_compute; reflexivity. Qed.

(** C10, as the code has it: at every grid point the sample that
    [evaluateField] stores is the binary32 rounding ([Math.fround]) of the
    [val] that [evalFieldAndGradient] returns at the same coordinates; before
    the store both are the same sum over the balls of
    [radius^2 / (distance^2 + 0.0001)]. *)
Theorem evaluateField_stores_fround_val balls gridMin cellSize res ix iy iz :
  let n := S res in
  let px := gridCoord (vx gridMin) cellSize ix in
  let py := gridCoord (vy gridMin) cellSize iy in
  let pz := gridCoord (vz gridMin) cellSize iz in
  (ix < n)%nat → (iy < n)%nat → (iz < n)%nat →
  evaluateField balls gridMin cellSize res !! gridCell n ix iy iz
    = Some (Math_fround (fg_val (evalFieldAndGradient px py pz balls)))
  ∧ fg_val (evalFieldAndGradient px py pz balls) = fieldValue balls px py pz.
Proof.
  intros n px py pz Hix Hiy Hiz.
  split; [|symmetry; apply fieldValue_fg_val].
  destruct (evaluateField_writes balls gridMin cellSize res) as (_ & Hin & _).
  rewrite <- fieldValue_fg_val. apply Hin.
  exists iz. split; [done|]. exists iy. split; [done|]. exists ix. done.
Qed.

Lemma evaluateField_stores_fround_val_witness :
  evaluateField [mkBall 0 0 0 1] (Vec3 (-1) (-1) (-1)) 1 2 !! gridCell 3 2 1 1
  = Some (Math_fround (fg_val (evalFieldAndGradient
            (gridCoord (-1) 1 2) (gridCoord (-1) 1 1) (gridCoord (-1) 1 1)
            [mkBall 0 0 0 1]))).
Proof.
  refine (proj1 (evaluateField_stores_fround_val [mkBall 0 0 0 1]
                   (Vec3 (-1) (-1) (-1)) 1 2 2 1 1 _ _ _)); lia.
Defined.

(** * Mesh smoothing keeps the topology *)

(** [forM] peels its last round. *)
Lemma forM_S {A} (n : nat) (body : nat → A → option A) (a : A) :
  forM (S n) body a = forM n body a ≫= body n.
Proof. unfold forM. rewrite seq_S, foldl_app. reflexivity. Qed.

(** An invariant of the rounds is an invariant of the loop. *)
Lemma forM_invariant {A} (P : A → Prop) (n : nat) (body : nat → A → option A) (a a' : A) :
  P a →
  (∀ i x x', (i < n)%nat → P x → body i x = Some x' → P x') →
  forM n body a = Some a' → P a'.
Proof.
  revert a'. induction n as [|n IH]; intros a' Ha Hbody.
  - intros [= <-]. done.
  - rewrite forM_S. intros Hr. apply bind_Some in Hr as (x & Hx & Hb).
    apply (Hbody n x a'); [lia| |done].
    apply IH; [done| |done]. intros i y y' Hi. apply Hbody. lia.
Qed.

(** A loop whose rounds cannot throw under an invariant does not throw. *)
Lemma forM_total {A} (P : A → Prop) (n : nat) (body : nat → A → option A) (a : A) :
  P a →
  (∀ i x, (i < n)%nat → P x → ∃ x', body i x = Some x' ∧ P x') →
  ∃ a', forM n body a = Some a' ∧ P a'.
Proof.
  induction n as [|n IH]; intros Ha Hbody.
  - exists a. done.
  - destruct IH as (x & Hx & HP); [done| |].
    { intros i y Hi. apply Hbody. lia. }
    destruct (Hbody n x) as (x' & Hx' & HP'); [lia|done|].
    exists x'. rewrite forM_S, Hx. done.
Qed.

Lemma relaxVertex_length sets i vs vs' :
  relaxVertex sets i vs = Some vs' → length vs' = length vs.
Proof.
  unfold relaxVertex. intros H.
  apply bind_Some in H as (nb & _ & H).
  case_decide; [by injection H as <-|].
  apply bind_Some in H as ([[ax ay] az] & _ & H).
  apply bind_Some in H as (p & _ & H).
  injection H as <-. apply length_insert.
Qed.

Lemma projectVertex_length balls threshold i vs vs' :
  projectVertex balls threshold i vs = Some vs' → length vs' = length vs.
Proof.
  unfold projectVertex. intros H.
  apply bind_Some in H as (p & _ & H).
  destruct (_ <? _); injection H as <-; [done|apply length_insert].
Qed.

(** Every triangle index names a vertex. *)
Definition triInRange (vertexCount : nat) (t : Tri) : Prop :=
  (ta t < vertexCount)%nat ∧ (tb t < vertexCount)%nat ∧ (tc t < vertexCount)%nat.

(** Neighbour sets for [vertexCount] vertices: one set per vertex, holding
    vertex indices. *)
Definition neighborsOk (vertexCount : nat) (sets : list (list nat)) : Prop :=
  length sets = vertexCount ∧ Forall (Forall (λ j, (j < vertexCount)%nat)) sets.

Lemma addNeighbor_ok vertexCount sets i j :
  neighborsOk vertexCount sets → (i < vertexCount)%nat → (j < vertexCount)%nat →
  ∃ sets', addNeighbor sets i j = Some sets' ∧ neighborsOk vertexCount sets'.
Proof.
  intros [Hlen Hall] Hi Hj. unfold addNeighbor.
  destruct (lookup_lt_is_Some_2 sets i) as [s Hs]; [lia|].
  rewrite Hs. simpl. eexists. split; [done|].
  split; [by rewrite length_insert|].
  apply Forall_insert; [done|].
  assert (Forall (λ j, (j < vertexCount)%nat) s) as Hs'
    by (eapply Forall_lookup_1; eauto).
  unfold setAdd. case_decide; [done|].
  apply Forall_app. split; [done|]. by constructor.
Qed.

Lemma buildNeighborSets_ok vertexCount ts :
  Forall (triInRange vertexCount) ts →
  ∃ sets, buildNeighborSets vertexCount ts = Some sets ∧ neighborsOk vertexCount sets.
Proof.
  unfold buildNeighborSets.
  assert (neighborsOk vertexCount (replicate vertexCount [])) as H0.
  { split; [apply length_replicate|]. apply Forall_replicate. constructor. }
  revert H0. generalize (replicate vertexCount ([] : list nat)).
  induction ts as [|t ts IH]; intros sets Hok Hts.
  - exists sets. done.
  - apply Forall_cons in Hts as [(Ha & Hb & Hc) Hts]. simpl.
    destruct (addNeighbor_ok _ _ (ta t) (tb t) Hok) as (s1 & -> & H1); [done..|].
    destruct (addNeighbor_ok _ _ (ta t) (tc t) H1) as (s2 & E2 & H2); [done..|].
    destruct (addNeighbor_ok _ _ (tb t) (ta t) H2) as (s3 & E3 & H3); [done..|].
    destruct (addNeighbor_ok _ _ (tb t) (tc t) H3) as (s4 & E4 & H4); [done..|].
    destruct (addNeighbor_ok _ _ (tc t) (ta t) H4) as (s5 & E5 & H5); [done..|].
    destruct (addNeighbor_ok _ _ (tc t) (tb t) H5) as (s6 & E6 & H6); [done..|].
    simpl. rewrite E2. simpl. rewrite E3. simpl. rewrite E4. simpl.
    rewrite E5. simpl. rewrite E6. by apply IH.
Qed.

Lemma relaxVertex_total sets i vs :
  neighborsOk (length vs) sets → (i < length vs)%nat →
  is_Some (relaxVertex sets i vs).
Proof.
  intros [Hlen Hall] Hi. unfold relaxVertex.
  destruct (lookup_lt_is_Some_2 sets i) as [nb Hnb]; [lia|].
  rewrite Hnb. simpl. case_decide; [done|].
  assert (Forall (λ j, (j < length vs)%nat) nb) as Hin
    by (eapply Forall_lookup_1; eauto).
  assert (∀ acc, is_Some acc →
            is_Some (foldl (λ acc ni,
                      '(ax, ay, az) ← acc; v ← vs !! ni;
                      Some (ax + vx v, ay + vy v, az + vz v)) acc nb)) as Hsum.
  { clear Hnb H. induction Hin as [|ni nb Hni Hnb IH]; intros acc Hacc; [done|].
    simpl. apply IH. destruct Hacc as [[[ax ay] az] ->]. simpl.
    destruct (lookup_lt_is_Some_2 vs ni Hni) as [v ->]. done. }
  destruct (Hsum (Some (0, 0, 0))) as [[[ax ay] az] ->]; [done|]. simpl.
  destruct (lookup_lt_is_Some_2 vs i Hi) as [p ->]. done.
Qed.

Lemma projectVertex_total balls threshold i vs :
  (i < length vs)%nat → is_Some (projectVertex balls threshold i vs).
Proof.
  intros Hi. unfold projectVertex.
  destruct (lookup_lt_is_Some_2 vs i Hi) as [p ->]. simpl.
  destruct (_ <? _); done.
Qed.

(** C8: when [smoothMesh] returns, the triangle array is the one it was
    given and the vertex array has its old length; and it does return on
    every mesh whose triangles name existing vertices. *)
Theorem smoothMesh_keeps_topology vs ts balls threshold iterations :
  (∀ vs' ts', smoothMesh vs ts balls threshold iterations = Some (vs', ts') →
     ts' = ts ∧ length vs' = length vs)
  ∧ (Forall (triInRange (length vs)) ts →
     is_Some (smoothMesh vs ts balls threshold iterations)).
Proof.
  unfold smoothMesh. split.
  - intros vs' ts' H.
    apply bind_Some in H as (sets & _ & H).
    apply bind_Some in H as (vs1 & Hloop & H).
    injection H as <- <-. split; [done|].
    revert Hloop. apply (forM_invariant (λ v, length v = length vs)); [done|].
    intros _ x x' _ Hx Hround.
    apply bind_Some in Hround as (y & Hrelax & Hproject).
    transitivity (length y).
    + revert Hproject. apply (forM_invariant (λ v, length v = length y)); [done|].
      intros i z z' _ Hz Hp. apply projectVertex_length in Hp. congruence.
    + rewrite <- Hx.
      revert Hrelax. apply (forM_invariant (λ v, length v = length x)); [done|].
      intros i z z' _ Hz Hr. apply relaxVertex_length in Hr. congruence.
  - intros Hts.
    destruct (buildNeighborSets_ok _ _ Hts) as (sets & -> & Hsets). simpl.
    destruct (forM_total (λ v, length v = length vs) iterations
                (λ _ vertices,
                   vertices ← forM (length vertices) (relaxVertex sets) vertices;
                   forM (length vertices) (projectVertex balls threshold) vertices)
                vs) as (vs' & -> & _); [done| |done].
    intros _ x _ Hx.
    destruct (forM_total (λ v, length v = length vs) (length x)
                (relaxVertex sets) x) as (y & Hy & Hylen); [done| |].
    { intros i z Hi Hz.
      destruct (relaxVertex_total sets i z) as [z' Hz']; [by rewrite Hz|lia|].
      exists z'. split; [done|]. apply relaxVertex_length in Hz'. congruence. }
    destruct (forM_total (λ v, length v = length vs) (length y)
                (projectVertex balls threshold) y) as (w & Hw & Hwlen); [done| |].
    { intros i z Hi Hz.
      destruct (projectVertex_total balls threshold i z) as [z' Hz']; [lia|].
      exists z'. split; [done|]. apply projectVertex_length in Hz'. congruence. }
    exists w. rewrite Hy. simpl. done.
Qed.

(** * The BVH as a tree *)

(** ** Sorting and the write-back *)

Lemma sortInsert_perm k x l : sortInsert k x l ≡ₚ x :: l.
Proof.
  induction l as [|y ys IH]; simpl; [done|].
  destruct (_ <? _); [|done].
  rewrite IH. apply Permutation_swap.
Qed.

Lemma sortBy_perm k l : sortBy k l ≡ₚ l.
Proof.
  induction l as [|x xs IH]; simpl; [done|].
  rewrite sortInsert_perm. by constructor.
Qed.

Lemma slice_middle {A} (pre seg post : list A) :
  slice (length pre) (length pre + length seg) (pre ++ seg ++ post) = seg.
Proof.
  unfold slice. rewrite drop_app_length.
  replace (length pre + length seg - length pre)%nat with (length seg) by lia.
  apply take_app_length.
Qed.

Lemma writeBack_middle {A} (pre seg post sub : list A) :
  length sub = length seg →
  writeBack (pre ++ seg ++ post) (length pre) sub = pre ++ sub ++ post.
Proof.
  revert pre seg. induction sub as [|x sub IH]; intros pre seg Hlen.
  - destruct seg; [done|discriminate].
  - destruct seg as [|y seg]; [discriminate|]. simpl in *.
    rewrite insert_app_r_alt by lia.
    replace (length pre - length pre)%nat with 0%nat by lia. simpl.
    replace (S (length pre)) with (length (pre ++ [x])) by (rewrite length_app; simpl; lia).
    replace (pre ++ x :: seg ++ post) with ((pre ++ [x]) ++ seg ++ post)
      by (rewrite <- app_assoc; done).
    rewrite (IH (pre ++ [x]) seg) by lia.
    rewrite <- app_assoc. done.
Qed.

(** ** Bounding boxes *)

(** [m] is the least of the numbers in [xs], as the running minimum of
    [computeTriangleAABB] finds it: NaN entries are passed over and the
    start value is [Infinity]. *)
Definition lowerBound (m : number) (xs : list number) : Prop :=
  is_num m ∧ (m = Infinity ∨ m ∈ xs)
  ∧ ∀ x, x ∈ xs → is_num x → (m <=? x) = true.

Definition upperBound (m : number) (xs : list number) : Prop :=
  is_num m ∧ (m = - Infinity ∨ m ∈ xs)
  ∧ ∀ x, x ∈ xs → is_num x → (x <=? m) = true.

Lemma lowerBound_nil : lowerBound Infinity [].
Proof.
  split; [reflexivity|]. split; [by left|]. intros x Hx. by apply elem_of_nil in Hx.
Qed.

Lemma upperBound_nil : upperBound (- Infinity) [].
Proof.
  split; [reflexivity|]. split; [by left|]. intros x Hx. by apply elem_of_nil in Hx.
Qed.

Lemma lowerBound_step m xs v :
  lowerBound m xs → lowerBound (lower m v) (xs ++ [v]).
Proof.
  intros (Hm & Hin & Hle). unfold lower.
  destruct (v <? m) eqn:Hv.
  - destruct (ltb_is_num _ _ Hv) as [Hv' _].
    split; [done|]. split; [right; apply elem_of_app; right; by apply list_elem_of_singleton|].
    intros x Hx Hnx. apply elem_of_app in Hx as [Hx|Hx].
    + eapply leb_trans; [apply ltb_leb, Hv|]. by apply Hle.
    + apply list_elem_of_singleton in Hx as ->. by apply leb_refl.
  - split; [done|]. split; [destruct Hin; [by left|right; apply elem_of_app; by left]|].
    intros x Hx Hnx. apply elem_of_app in Hx as [Hx|Hx].
    + by apply Hle.
    + apply list_elem_of_singleton in Hx as ->. by apply ltb_false_leb.
Qed.

Lemma upperBound_step m xs v :
  upperBound m xs → upperBound (upper m v) (xs ++ [v]).
Proof.
  intros (Hm & Hin & Hle). unfold upper, gtb.
  destruct (m <? v) eqn:Hv.
  - destruct (ltb_is_num _ _ Hv) as [_ Hv'].
    split; [done|]. split; [right; apply elem_of_app; right; by apply list_elem_of_singleton|].
    intros x Hx Hnx. apply elem_of_app in Hx as [Hx|Hx].
    + eapply leb_trans; [by apply Hle|]. apply ltb_leb, Hv.
    + apply list_elem_of_singleton in Hx as ->. by apply leb_refl.
  - split; [done|]. split; [destruct Hin; [by left|right; apply elem_of_app; by left]|].
    intros x Hx Hnx. apply elem_of_app in Hx as [Hx|Hx].
    + by apply Hle.
    + apply list_elem_of_singleton in Hx as ->. by apply ltb_false_leb.
Qed.

Lemma lowerBound_subset m xs m' xs' :
  lowerBound m xs → lowerBound m' xs' → xs' ⊆ xs → (m <=? m') = true.
Proof.
  intros (Hm & _ & Hle) (Hm' & [->|Hin] & _) Hsub.
  - by apply leb_Infinity.
  - apply Hle; [by apply Hsub|done].
Qed.

Lemma upperBound_subset m xs m' xs' :
  upperBound m xs → upperBound m' xs' → xs' ⊆ xs → (m' <=? m) = true.
Proof.
  intros (Hm & _ & Hle) (Hm' & [->|Hin] & _) Hsub.
  - by apply neg_Infinity_leb.
  - apply Hle; [by apply Hsub|done].
Qed.

(** [b] is the box of the points [pts], axis by axis. *)
Definition boxFits (b : Box) (pts : list vec3) : Prop :=
  lowerBound (vx (box_min b)) (vx <$> pts)
  ∧ lowerBound (vy (box_min b)) (vy <$> pts)
  ∧ lowerBound (vz (box_min b)) (vz <$> pts)
  ∧ upperBound (vx (box_max b)) (vx <$> pts)
  ∧ upperBound (vy (box_max b)) (vy <$> pts)
  ∧ upperBound (vz (box_max b)) (vz <$> pts).

(** Box [c] lies inside box [p]: [c.bmin >= p.bmin] and [c.bmax <= p.bmax]
    on every axis, with the comparisons of JS. *)
Definition boxWithin (c p : Box) : Prop :=
  geb (vx (box_min c)) (vx (box_min p)) = true
  ∧ geb (vy (box_min c)) (vy (box_min p)) = true
  ∧ geb (vz (box_min c)) (vz (box_min p)) = true
  ∧ (vx (box_max c) <=? vx (box_max p)) = true
  ∧ (vy (box_max c) <=? vy (box_max p)) = true
  ∧ (vz (box_max c) <=? vz (box_max p)) = true.

Lemma boxFits_empty : boxFits emptyBox [].
Proof.
  repeat split; first [reflexivity | by left | intros x Hx; by apply elem_of_nil in Hx].
Qed.

Lemma boxFits_grow b pts v : boxFits b pts → boxFits (growBox b v) (pts ++ [v]).
Proof.
  intros (H1 & H2 & H3 & H4 & H5 & H6). unfold boxFits.
  rewrite !fmap_app. simpl.
  exact (conj (lowerBound_step _ _ _ H1) (conj (lowerBound_step _ _ _ H2)
        (conj (lowerBound_step _ _ _ H3) (conj (upperBound_step _ _ _ H4)
        (conj (upperBound_step _ _ _ H5) (upperBound_step _ _ _ H6)))))).
Qed.

Lemma boxFits_within p pts c pts' :
  boxFits p pts → boxFits c pts' → pts' ⊆ pts → boxWithin c p.
Proof.
  intros (H1 & H2 & H3 & H4 & H5 & H6) (G1 & G2 & G3 & G4 & G5 & G6) Hsub.
  assert (∀ f : vec3 → number, f <$> pts' ⊆ f <$> pts) as Hf.
  { intros f x Hx. apply list_elem_of_fmap in Hx as (y & -> & Hy).
    apply list_elem_of_fmap. exists y. split; [done|]. by apply Hsub. }
  unfold boxWithin, geb.
  exact (conj (lowerBound_subset _ _ _ _ H1 G1 (Hf vx))
        (conj (lowerBound_subset _ _ _ _ H2 G2 (Hf vy))
        (conj (lowerBound_subset _ _ _ _ H3 G3 (Hf vz))
        (conj (upperBound_subset _ _ _ _ H4 G4 (Hf vx))
        (conj (upperBound_subset _ _ _ _ H5 G5 (Hf vy))
              (upperBound_subset _ _ _ _ H6 G6 (Hf vz))))))).
Qed.

Lemma lowerBound_equiv m xs xs' :
  lowerBound m xs → (∀ x, x ∈ xs ↔ x ∈ xs') → lowerBound m xs'.
Proof.
  intros (Hm & Hin & Hle) Heq. split; [done|]. split.
  - destruct Hin; [by left|right; by apply Heq].
  - intros x Hx. apply Hle. by apply Heq.
Qed.

Lemma upperBound_equiv m xs xs' :
  upperBound m xs → (∀ x, x ∈ xs ↔ x ∈ xs') → upperBound m xs'.
Proof.
  intros (Hm & Hin & Hle) Heq. split; [done|]. split.
  - destruct Hin; [by left|right; by apply Heq].
  - intros x Hx. apply Hle. by apply Heq.
Qed.

Lemma boxFits_equiv b pts pts' :
  boxFits b pts → (∀ v, v ∈ pts ↔ v ∈ pts') → boxFits b pts'.
Proof.
  intros (B1 & B2 & B3 & B4 & B5 & B6) Heq.
  assert (∀ f : vec3 → number, ∀ x, x ∈ f <$> pts ↔ x ∈ f <$> pts') as Hf.
  { intros f x. rewrite !list_elem_of_fmap.
    split; intros (y & -> & Hy); exists y; (split; [done|]); by apply Heq. }
  exact (conj (lowerBound_equiv _ _ _ B1 (Hf vx))
        (conj (lowerBound_equiv _ _ _ B2 (Hf vy))
        (conj (lowerBound_equiv _ _ _ B3 (Hf vz))
        (conj (upperBound_equiv _ _ _ B4 (Hf vx))
        (conj (upperBound_equiv _ _ _ B5 (Hf vy))
              (upperBound_equiv _ _ _ B6 (Hf vz))))))).
Qed.

(** ** Trees and their flat layout *)

(** The shape [buildNode] lays out: a leaf holds a triangle index, an inner
    node two subtrees; every node has its box. *)
Inductive Tree : Set :=
| TLeaf (b : Box) (i : nat)
| TNode (b : Box) (l r : Tree).

Fixpoint size (t : Tree) : nat :=
  match t with TLeaf _ _ => 1 | TNode _ l r => S (size l + size r) end.

Fixpoint height (t : Tree) : nat :=
  match t with TLeaf _ _ => 0 | TNode _ l r => S (height l `max` height r) end.

Fixpoint leaves (t : Tree) : list nat :=
  match t with TLeaf _ i => [i] | TNode _ l r => leaves l ++ leaves r end.

Definition tbox (t : Tree) : Box :=
  match t with TLeaf b _ => b | TNode b _ _ => b end.

(** The array cell of the root of [t] when [t] is laid out from index
    [base]: the left subtree follows at [base + 1], the right one after it. *)
Definition rootNode (base : nat) (t : Tree) : BVHNode :=
  match t with
  | TLeaf b i => mkNode (box_min b) (box_max b) (-1) (-1) (Z.of_nat i)
  | TNode b l r =>
      mkNode (box_min b) (box_max b)
             (Z.of_nat (S base)) (Z.of_nat (S base + size l)) (-1)
  end.

Fixpoint flat (base : nat) (t : Tree) : list BVHNode :=
  match t with
  | TLeaf _ _ => [rootNode base t]
  | TNode _ l r => rootNode base t :: flat (S base) l ++ flat (S base + size l) r
  end.

Lemma length_flat base t : length (flat base t) = size t.
Proof.
  revert base. induction t as [|b l IHl r IHr]; intros base; simpl; [done|].
  rewrite length_app, IHl, IHr. done.
Qed.

Lemma size_pos t : (0 < size t)%nat.
Proof. destruct t; simpl; lia. Qed.

Lemma length_leaves_pos t : (0 < length (leaves t))%nat.
Proof.
  induction t as [|b l IHl r IHr]; simpl; [lia|]. rewrite length_app. lia.
Qed.

(** A tree with [k] leaves has [2 k - 1] nodes. *)
Lemma size_leaves t : size t = (2 * length (leaves t) - 1)%nat.
Proof.
  induction t as [|b l IHl r IHr]; simpl; [done|].
  rewrite length_app.
  pose proof (length_leaves_pos l). pose proof (length_leaves_pos r). lia.
Qed.

(** The vertices of triangle [i], when it has all three. *)
Definition triPts (worldVerts : list vec3) (triangles : list Tri) (i : nat) : list vec3 :=
  match triVerts worldVerts triangles i with
  | Some (v0, v1, v2) => [v0; v1; v2]
  | None => []
  end.

Definition leafPts (worldVerts : list vec3) (triangles : list Tri) (ids : list nat)
  : list vec3 :=
  ids ≫= triPts worldVerts triangles.

(** Every node's box is the box of the triangles below it. *)
Fixpoint boxesOk (worldVerts : list vec3) (triangles : list Tri) (t : Tree) : Prop :=
  boxFits (tbox t) (leafPts worldVerts triangles (leaves t))
  ∧ match t with
    | TLeaf _ _ => True
    | TNode _ l r => boxesOk worldVerts triangles l ∧ boxesOk worldVerts triangles r
    end.

(** The median split: the left subtree takes half the leaves, rounded down. *)
Fixpoint balanced (t : Tree) : Prop :=
  match t with
  | TLeaf _ _ => True
  | TNode _ l r =>
      length (leaves l) = ((length (leaves l) + length (leaves r)) / 2)%nat
      ∧ balanced l ∧ balanced r
  end.

Lemma balanced_height t h :
  balanced t → (length (leaves t) ≤ 2 ^ h)%nat → (height t ≤ h)%nat.
Proof.
  revert h. induction t as [|b l IHl r IHr]; intros h; [simpl; lia|].
  cbn [balanced leaves height].
  intros (Hhalf & Hl & Hr). rewrite length_app. intros Hle.
  pose proof (length_leaves_pos l). pose proof (length_leaves_pos r).
  pose proof (Nat.div_mod_eq (length (leaves l) + length (leaves r)) 2) as Hdm.
  pose proof (Nat.mod_upper_bound (length (leaves l) + length (leaves r)) 2
                ltac:(lia)) as Hmod.
  destruct h as [|h]; [simpl in Hle; lia|].
  rewrite Nat.pow_succ_r' in Hle.
  assert (length (leaves l) ≤ 2 ^ h)%nat by lia.
  assert (length (leaves r) ≤ 2 ^ h)%nat by lia.
  specialize (IHl h Hl). specialize (IHr h Hr). lia.
Qed.

(** The median-split tree over [n] triangles has depth at most
    [ceil (log2 n)]. *)
Lemma balanced_height_log2 t :
  balanced t → (height t ≤ Nat.log2_up (length (leaves t)))%nat.
Proof.
  intros Hb. apply balanced_height; [done|].
  pose proof (length_leaves_pos t).
  destruct (decide (length (leaves t) = 1)%nat) as [->|]; [simpl; lia|].
  apply Nat.log2_up_spec. lia.
Qed.

(** ** What [buildNode] builds *)

(** An entry of [triInfos] whose triangle has its three vertices. *)
Definition validInfo (worldVerts : list vec3) (triangles : list Tri) (t : TriInfo) : Prop :=
  is_Some (triVerts worldVerts triangles (idx t)).

Section Build.
Variables (worldVerts : list vec3) (triangles : list Tri).

Lemma triPts_valid t :
  validInfo worldVerts triangles t →
  ∃ v0 v1 v2, triVerts worldVerts triangles (idx t) = Some (v0, v1, v2)
              ∧ triPts worldVerts triangles (idx t) = [v0; v1; v2].
Proof.
  intros [[[v0 v1] v2] H]. exists v0, v1, v2. unfold triPts. rewrite H. done.
Qed.

Lemma aabbLoop_seg pre seg post acc :
  Forall (validInfo worldVerts triangles) seg →
  aabbLoop worldVerts triangles (pre ++ seg ++ post) (length pre) (length seg) acc
  = Some (foldl growBox acc (leafPts worldVerts triangles (idx <$> seg))).
Proof.
  revert pre acc. induction seg as [|x seg IH]; intros pre acc Hv; [done|].
  apply Forall_cons in Hv as [Hx Hv].
  destruct (triPts_valid x Hx) as (v0 & v1 & v2 & Htv & Hpts).
  simpl. rewrite lookup_app_r by lia.
  replace (length pre - length pre)%nat with 0%nat by lia. simpl.
  rewrite Htv. simpl.
  replace (S (length pre)) with (length (pre ++ [x])) by (rewrite length_app; simpl; lia).
  replace (pre ++ x :: seg ++ post) with ((pre ++ [x]) ++ seg ++ post)
    by (rewrite <- app_assoc; done).
  rewrite IH by done.
  unfold leafPts. rewrite Hpts. done.
Qed.

Lemma boxFits_foldl acc pts0 pts :
  boxFits acc pts0 → boxFits (foldl growBox acc pts) (pts0 ++ pts).
Proof.
  revert acc pts0. induction pts as [|v pts IH]; intros acc pts0 H.
  - by rewrite app_nil_r.
  - simpl. replace (pts0 ++ v :: pts) with ((pts0 ++ [v]) ++ pts)
      by (rewrite <- app_assoc; done).
    apply IH. by apply boxFits_grow.
Qed.

Lemma computeTriangleAABB_seg pre seg post :
  Forall (validInfo worldVerts triangles) seg →
  ∃ box, computeTriangleAABB worldVerts triangles (pre ++ seg ++ post)
           (length pre) (length pre + length seg) = Some box
         ∧ boxFits box (leafPts worldVerts triangles (idx <$> seg)).
Proof.
  intros Hv. unfold computeTriangleAABB.
  replace (length pre + length seg - length pre)%nat with (length seg) by lia.
  rewrite aabbLoop_seg by done. eexists. split; [done|].
  apply (boxFits_foldl emptyBox []). apply boxFits_empty.
Qed.

Lemma leafPts_perm (l l' : list nat) v :
  l ≡ₚ l' →
  v ∈ leafPts worldVerts triangles l ↔ v ∈ leafPts worldVerts triangles l'.
Proof. intros H. unfold leafPts. by rewrite H. Qed.

(** One level of [buildNode]. *)
Lemma buildNode_S fuel start end_ triInfos nodes :
  buildNode (S fuel) worldVerts triangles start end_ (triInfos, nodes) =
    let nodeIdx := length nodes in
    let nodes := nodes ++ [None] in
    box ← computeTriangleAABB worldVerts triangles triInfos start end_;
    if decide (end_ - start = 1)%nat then
      info ← triInfos !! start;
      Some (nodeIdx,
            (triInfos,
             <[nodeIdx := Some (mkNode (box_min box) (box_max box) (-1) (-1)
                                       (Z.of_nat (idx info)))]> nodes))
    else
      let dx := vx (box_max box) - vx (box_min box) in
      let dy := vy (box_max box) - vy (box_min box) in
      let dz := vz (box_max box) - vz (box_min box) in
      let key := if geb dx dy && geb dx dz then AxisX
                 else if geb dy dz then AxisY else AxisZ in
      let sub := sortBy key (slice start end_ triInfos) in
      let triInfos := writeBack triInfos start sub in
      let mid := (start + Z.to_nat (shr1 (end_ - start)))%nat in
      '(l, st1) ← buildNode fuel worldVerts triangles start mid (triInfos, nodes);
      '(r, st2) ← buildNode fuel worldVerts triangles mid end_ st1;
      Some (nodeIdx,
            (st2.1,
             <[nodeIdx := Some (mkNode (box_min box) (box_max box)
                                       (Z.of_nat l) (Z.of_nat r) (-1))]> st2.2)).
Proof. reflexivity. Qed.

Lemma wrap_int32_small z :
  (-2147483648 ≤ z < 2147483648)%Z → wrap_int32 z = z.
Proof.
  intros Hz. unfold wrap_int32.
  rewrite Z.mod_small by lia. lia.
Qed.

Lemma shr1_half n :
  (Z.of_nat n < 2147483648)%Z → Z.to_nat (shr1 n) = (n / 2)%nat.
Proof.
  intros Hn. unfold shr1. rewrite wrap_int32_small by lia.
  rewrite Z.shiftr_div_pow2 by lia. change (2 ^ 1)%Z with (Z.of_nat 2).
  rewrite <- (Nat2Z.inj_div n 2). apply Nat2Z.id.
Qed.

Lemma insert_placeholder {A} (nodes rest : list (option A)) (x : A) :
  <[length nodes := Some x]> (nodes ++ None :: rest) = nodes ++ Some x :: rest.
Proof.
  rewrite insert_app_r_alt by lia.
  replace (length nodes - length nodes)%nat with 0%nat by lia. done.
Qed.

(** [buildNode] on the segment [seg] of [triInfos]: it returns, reorders
    the segment only, and appends the flat layout of a tree whose leaves are
    the triangles of the reordered segment, left to right. *)
Lemma buildNode_seg fuel : ∀ pre seg post nodes,
  seg ≠ [] → (length seg ≤ fuel)%nat →
  (Z.of_nat (length seg) < 2147483648)%Z →
  Forall (validInfo worldVerts triangles) seg →
  ∃ t seg',
    buildNode fuel worldVerts triangles (length pre) (length pre + length seg)
      (pre ++ seg ++ post, nodes)
    = Some (length nodes,
            (pre ++ seg' ++ post, nodes ++ (Some <$> flat (length nodes) t)))
    ∧ seg' ≡ₚ seg
    ∧ leaves t = idx <$> seg'
    ∧ boxesOk worldVerts triangles t
    ∧ balanced t.
Proof.
  induction fuel as [|fuel IH]; intros pre seg post nodes Hne Hfuel Hsmall Hvalid.
  { destruct seg; [done|simpl in Hfuel; lia]. }
  rewrite buildNode_S. cbv zeta.
  destruct (computeTriangleAABB_seg pre seg post Hvalid) as (box & -> & Hbox).
  simpl.
  case_decide as Hone.
  - (* a single triangle: a leaf *)
    destruct seg as [|x [|y seg]]; [done| |simpl in Hone; lia].
    rewrite lookup_app_r by lia.
    replace (length pre - length pre)%nat with 0%nat by lia. simpl.
    exists (TLeaf box (idx x)), [x].
    rewrite (insert_placeholder nodes []).
    split; [done|]. split; [done|]. split; [done|]. split; [|done].
    simpl. split; [|done]. exact Hbox.
  - (* at least two: sort, split at the median, recurse *)
    assert (2 ≤ length seg)%nat as Htwo.
    { destruct seg as [|x [|y seg]]; [done|simpl in Hone; lia|simpl; lia]. }
    rewrite slice_middle.
    set (key := if _ : bool then AxisX else _).
    pose proof (sortBy_perm key seg) as Hperm.
    assert (length (sortBy key seg) = length seg) as Hlen by (by rewrite Hperm).
    rewrite (writeBack_middle pre seg post) by done.
    replace (length pre + length seg - length pre)%nat with (length seg) by lia.
    rewrite shr1_half by done.
    set (h := (length seg / 2)%nat).
    assert (1 ≤ h ∧ h < length seg)%nat as [Hh1 Hh2].
    { pose proof (Nat.div_mod_eq (length seg) 2).
      pose proof (Nat.mod_upper_bound (length seg) 2 ltac:(lia)).
      unfold h. lia. }
    set (s1 := take h (sortBy key seg)).
    set (s2 := drop h (sortBy key seg)).
    assert (sortBy key seg = s1 ++ s2) as Hsplit by (symmetry; apply take_drop).
    assert (length s1 = h) as Hs1 by (unfold s1; rewrite length_take; lia).
    assert (length s2 = length seg - h)%nat as Hs2
      by (unfold s2; rewrite length_drop; lia).
    assert (Forall (validInfo worldVerts triangles) (s1 ++ s2)) as Hv12.
    { rewrite <- Hsplit. by rewrite Hperm. }
    apply Forall_app in Hv12 as [Hv1 Hv2].
    rewrite Hsplit.
    (* left half *)
    destruct (IH pre s1 (s2 ++ post) (nodes ++ [None]))
      as (tl & s1' & Hl & Hp1 & Hleaves1 & Hboxes1 & Hbal1);
      [by intros E; rewrite E in Hs1; simpl in Hs1; lia|lia|lia|done|].
    rewrite Hs1 in Hl. rewrite <- app_assoc. rewrite Hl. simpl.
    (* right half *)
    assert (length s1' = h) as Hs1' by (by rewrite Hp1).
    destruct (IH (pre ++ s1') s2 post
                ((nodes ++ [None]) ++ (Some <$> flat (length (nodes ++ [None])) tl)))
      as (tr & s2' & Hr & Hp2 & Hleaves2 & Hboxes2 & Hbal2);
      [by intros E; rewrite E in Hs2; simpl in Hs2; lia|lia|lia|done|].
    rewrite length_app, Hs1', Hs2 in Hr.
    replace (length pre + h + (length seg - h))%nat
      with (length pre + length seg)%nat in Hr by lia.
    rewrite <- app_assoc in Hr. rewrite Hr. simpl.
    exists (TNode box tl tr), (s1' ++ s2').
    split.
    { f_equal. f_equal. f_equal; [by rewrite <- !app_assoc|].
      rewrite !length_app, length_fmap, length_flat. simpl.
      rewrite <- !app_assoc. simpl. rewrite insert_placeholder.
      rewrite fmap_app. simpl.
      replace (length nodes + 1)%nat with (S (length nodes)) by lia.
      replace (length nodes + 1 + size tl)%nat with (S (length nodes) + size tl)%nat by lia.
      done. }
    assert (s1' ++ s2' ≡ₚ seg) as Hp.
    { rewrite Hp1, Hp2, <- Hsplit. done. }
    split; [done|].
    split; [simpl; by rewrite Hleaves1, Hleaves2, fmap_app|].
    split.
    + simpl. split; [|done].
      eapply boxFits_equiv; [exact Hbox|].
      intros v. apply leafPts_perm.
      rewrite Hleaves1, Hleaves2, <- fmap_app. by rewrite Hp.
    + simpl. split; [|done].
      rewrite Hleaves1, Hleaves2, !length_fmap, Hs1'.
      rewrite Hp2, Hs2. replace (h + (length seg - h))%nat with (length seg) by lia.
      done.
Qed.

End Build.

(** ** What [buildBVH] returns *)

Section BuildBVH.
Variables (worldVerts : list vec3) (triangles : list Tri).

Lemma mkTriInfos_spec count : ∀ i infos,
  mkTriInfos worldVerts triangles i count = Some infos →
  idx <$> infos = seq i count ∧ Forall (validInfo worldVerts triangles) infos.
Proof.
  induction count as [|count IH]; intros i infos H; simpl in H.
  - injection H as <-. done.
  - apply bind_Some in H as ([[v0 v1] v2] & Hv & H).
    apply bind_Some in H as (rest & Hrest & H). injection H as <-.
    destruct (IH _ _ Hrest) as [Hidx Hvalid]. split; [by rewrite fmap_cons, Hidx|].
    constructor; [|done]. unfold validInfo. simpl. by rewrite Hv.
Qed.

Lemma mkTriInfos_total count : ∀ i,
  (∀ j, (i ≤ j < i + count)%nat → is_Some (triVerts worldVerts triangles j)) →
  is_Some (mkTriInfos worldVerts triangles i count).
Proof.
  induction count as [|count IH]; intros i H; simpl; [done|].
  destruct (H i) as [[[v0 v1] v2] ->]; [lia|]. simpl.
  destruct (IH (S i)) as [rest ->]; [|done].
  intros j Hj. apply H. lia.
Qed.

Lemma triVerts_in_range i :
  (i < length triangles)%nat →
  Forall (triInRange (length worldVerts)) triangles →
  is_Some (triVerts worldVerts triangles i).
Proof.
  intros Hi Hall. unfold triVerts.
  destruct (lookup_lt_is_Some_2 triangles i Hi) as [tri Htri]. rewrite Htri. simpl.
  destruct (Forall_lookup_1 _ _ _ _ Hall Htri) as (Ha & Hb & Hc).
  destruct (lookup_lt_is_Some_2 worldVerts _ Ha) as [v0 ->].
  destruct (lookup_lt_is_Some_2 worldVerts _ Hb) as [v1 ->].
  destruct (lookup_lt_is_Some_2 worldVerts _ Hc) as [v2 ->].
  done.
Qed.

(** An empty range never becomes a leaf: the recursion does not return. *)
Lemma buildNode_empty fuel : ∀ start st,
  buildNode fuel worldVerts triangles start start st = None.
Proof.
  induction fuel as [|fuel IH]; intros start [triInfos nodes]; [done|].
  rewrite buildNode_S. cbv zeta.
  destruct (computeTriangleAABB _ _ _ _ _) as [box|]; [|done]. simpl.
  case_decide; [lia|].
  replace (start - start)%nat with 0%nat by lia.
  change (Z.to_nat (shr1 0)) with 0%nat. rewrite Nat.add_0_r.
  by rewrite IH.
Qed.

(** From 2^31 elements on, [(end - start) >> 1] is negative and the first
    recursive call gets an empty range. *)
Lemma buildNode_huge fuel start end_ st :
  (2147483648 ≤ Z.of_nat (end_ - start) < 4294967296)%Z →
  buildNode fuel worldVerts triangles start end_ st = None.
Proof.
  intros Hbig. destruct fuel as [|fuel]; [done|]. destruct st as [triInfos nodes].
  rewrite buildNode_S. cbv zeta.
  destruct (computeTriangleAABB _ _ _ _ _) as [box|]; [|done]. simpl.
  case_decide; [lia|].
  assert (Z.to_nat (shr1 (end_ - start)) = 0%nat) as ->.
  { unfold shr1. assert (Z.shiftr (wrap_int32 (Z.of_nat (end_ - start))) 1 < 0)%Z; [|lia].
    apply Z.shiftr_neg. unfold wrap_int32.
    replace (Z.of_nat (end_ - start) + 2147483648)%Z
      with ((Z.of_nat (end_ - start) - 2147483648) + 1 * 4294967296)%Z by lia.
    rewrite Z.mod_add by lia. rewrite Z.mod_small by lia. lia. }
  rewrite Nat.add_0_r. by rewrite buildNode_empty.
Qed.

(** [buildBVH] returns the flat layout of a median-split tree over all the
    triangles. A JS array has fewer than 2^32 elements. *)
Lemma buildBVH_tree nodes :
  triangles ≠ [] →
  (Z.of_nat (length triangles) < 4294967296)%Z →
  buildBVH worldVerts triangles = Some nodes →
  ∃ t, nodes = Some <$> flat 0 t
       ∧ leaves t ≡ₚ seq 0 (length triangles)
       ∧ boxesOk worldVerts triangles t
       ∧ balanced t
       ∧ (Z.of_nat (length triangles) < 2147483648)%Z
       ∧ Forall (λ i, is_Some (triVerts worldVerts triangles i)) (leaves t).
Proof.
  intros Hne Hjs. unfold buildBVH. intros H.
  apply bind_Some in H as (infos & Hinfos & H).
  apply mkTriInfos_spec in Hinfos as [Hidx Hvalid].
  assert (length infos = length triangles) as Hlen.
  { rewrite <- (length_fmap idx), Hidx. apply length_seq. }
  case_decide as Hpos; [|destruct triangles; [done|simpl in Hpos; lia]].
  apply bind_Some in H as ([root st] & Hb & H). injection H as <-.
  destruct (decide (Z.of_nat (length triangles) < 2147483648)%Z) as [Hsmall|Hbig].
  - destruct (buildNode_seg worldVerts triangles (length triangles) [] infos [] [])
      as (t & seg' & Hr & Hp & Hleaves & Hboxes & Hbal);
      [intros ->; simpl in Hlen; lia|lia|lia|done|].
    simpl in Hr. rewrite app_nil_r, Hlen in Hr. rewrite Hr in Hb.
    injection Hb as <- <-. exists t. simpl.
    split; [done|]. split; [by rewrite Hleaves, Hp, Hidx|].
    split; [done|]. split; [done|]. split; [done|].
    rewrite Hleaves, Hp. by apply Forall_fmap.
  - rewrite buildNode_huge in Hb; [done|lia].
Qed.

Lemma buildBVH_returns :
  (Z.of_nat (length triangles) < 2147483648)%Z →
  Forall (triInRange (length worldVerts)) triangles →
  is_Some (buildBVH worldVerts triangles).
Proof.
  intros Hsmall Hall. unfold buildBVH.
  destruct (mkTriInfos_total (length triangles) 0) as [infos Hinfos].
  { intros j Hj. apply triVerts_in_range; [lia|done]. }
  rewrite Hinfos. simpl.
  apply mkTriInfos_spec in Hinfos as [Hidx Hvalid].
  assert (length infos = length triangles) as Hlen.
  { rewrite <- (length_fmap idx), Hidx. apply length_seq. }
  case_decide as Hpos; [|done].
  destruct (buildNode_seg worldVerts triangles (length triangles) [] infos [] [])
    as (t & seg' & Hr & _); [intros ->; simpl in Hlen; lia|lia|lia|done|].
  simpl in Hr. rewrite app_nil_r, Hlen in Hr. rewrite Hr. done.
Qed.

End BuildBVH.

(** * The leaves partition the triangles *)

(** The [triIdx] values of the leaf nodes of a node array, in array order.
    A leaf is a node with [triIdx >= 0]. *)
Definition leafTriIdxs (nodes : list (option BVHNode)) : list Z :=
  omap (λ cell, nd ← cell; if (0 <=? triIdx nd)%Z then Some (triIdx nd) else None) nodes.

Lemma leafTriIdxs_flat base t :
  leafTriIdxs (Some <$> flat base t) = Z.of_nat <$> leaves t.
Proof.
  unfold leafTriIdxs. revert base.
  induction t as [b i|b l IHl r IHr]; intros base; simpl.
  - destruct (Z.leb_spec 0 (Z.of_nat i)); [done|lia].
  - rewrite fmap_app, omap_app, IHl, IHr, fmap_app. done.
Qed.

(** C1: for a non-empty triangle list (a JS array, so shorter than 2^32),
    the [triIdx] values in the leaves of the array [buildBVH] returns are
    the indices [0 .. triangleCount - 1], each in exactly one leaf; and
    [buildBVH] does return when every triangle names existing vertices. *)
Theorem buildBVH_leaves_partition worldVerts triangles :
  triangles ≠ [] →
  (Z.of_nat (length triangles) < 4294967296)%Z →
  (∀ nodes, buildBVH worldVerts triangles = Some nodes →
     leafTriIdxs nodes ≡ₚ Z.of_nat <$> seq 0 (length triangles)
     ∧ NoDup (leafTriIdxs nodes)
     ∧ ∀ i, i ∈ leafTriIdxs nodes ↔ (0 ≤ i < Z.of_nat (length triangles))%Z)
  ∧ ((Z.of_nat (length triangles) < 2147483648)%Z →
     Forall (triInRange (length worldVerts)) triangles →
     is_Some (buildBVH worldVerts triangles)).
Proof.
  intros Hne Hjs. split; [|apply buildBVH_returns].
  intros nodes Hb.
  destruct (buildBVH_tree _ _ _ Hne Hjs Hb) as (t & -> & Hleaves & _).
  rewrite leafTriIdxs_flat.
  assert (Z.of_nat <$> leaves t ≡ₚ Z.of_nat <$> seq 0 (length triangles)) as Hp
    by (by rewrite Hleaves).
  split; [done|]. split.
  - rewrite Hp. apply NoDup_fmap_2; [apply Nat2Z.inj'|apply NoDup_seq].
  - intros i. rewrite Hp, list_elem_of_fmap. split.
    + intros (j & -> & Hj). apply elem_of_seq in Hj. lia.
    + intros Hi. exists (Z.to_nat i). split; [lia|]. apply elem_of_seq. lia.
Qed.

Definition twoTriVerts : list vec3 :=
  [Vec3 0 0 0; Vec3 1 0 0; Vec3 0 1 0; Vec3 5 5 5; Vec3 6 5 5; Vec3 5 6 5].
Definition twoTris : list Tri := [mkTri 3 4 5; mkTri 0 1 2].

Lemma buildBVH_leaves_partition_witness :
  ∃ nodes, buildBVH twoTriVerts twoTris = Some nodes
           ∧ leafTriIdxs nodes ≡ₚ [0; 1]%Z.
Proof.
  destruct (buildBVH_leaves_partition twoTriVerts twoTris) as [Hpart Hret];
    [done|simpl; lia|].
  destruct Hret as [nodes Hnodes];
    [simpl; lia|repeat constructor; simpl; lia|].
  exists nodes. split; [done|]. apply (Hpart nodes Hnodes).
Defined.

(** * Child boxes lie inside the parent's box *)

Definition nodeBox (nd : BVHNode) : Box := mkBox (bmin nd) (bmax nd).

Lemma nodeBox_rootNode base t : nodeBox (rootNode base t) = tbox t.
Proof. destruct t as [[]|[]]; reflexivity. Qed.

Lemma flat_head base t : flat base t !! 0%nat = Some (rootNode base t).
Proof. destruct t; reflexivity. Qed.

Lemma leafPts_app worldVerts triangles l r :
  leafPts worldVerts triangles (l ++ r)
  = leafPts worldVerts triangles l ++ leafPts worldVerts triangles r.
Proof. unfold leafPts. apply bind_app. Qed.

Lemma boxesOk_fits worldVerts triangles t :
  boxesOk worldVerts triangles t →
  boxFits (tbox t) (leafPts worldVerts triangles (leaves t)).
Proof. destruct t; simpl; tauto. Qed.

(** In the flat layout every inner node finds both children in the array,
    and their boxes lie inside its own. *)
Lemma flat_children worldVerts triangles t : ∀ base k nd,
  boxesOk worldVerts triangles t →
  flat base t !! k = Some nd →
  (triIdx nd < 0)%Z →
  ∃ l r kl kr,
    left nd = Z.of_nat (base + kl) ∧ right nd = Z.of_nat (base + kr)
    ∧ flat base t !! kl = Some l ∧ flat base t !! kr = Some r
    ∧ boxWithin (nodeBox l) (nodeBox nd) ∧ boxWithin (nodeBox r) (nodeBox nd).
Proof.
  induction t as [b i|b l IHl r IHr]; intros base k nd Hok Hk Hinner.
  - destruct k; [|done]. injection Hk as <-. simpl in Hinner. lia.
  - destruct Hok as (Hfit & Hokl & Hokr). simpl in Hfit.
    rewrite leafPts_app in Hfit.
    destruct k as [|k].
    + injection Hk as <-.
      exists (rootNode (S base) l), (rootNode (S base + size l) r), 1%nat, (S (size l)).
      simpl flat. split; [simpl; f_equal; lia|]. split; [simpl; f_equal; lia|].
      split; [simpl; apply lookup_app_l_Some, flat_head|].
      split.
      { simpl. rewrite lookup_app_r by (rewrite length_flat; lia).
        rewrite length_flat. replace (size l - size l)%nat with 0%nat by lia.
        apply flat_head. }
      rewrite !nodeBox_rootNode. simpl.
      split; (eapply boxFits_within; [exact Hfit|by apply boxesOk_fits|]).
      * intros v Hv. apply elem_of_app. by left.
      * intros v Hv. apply elem_of_app. by right.
    + simpl in Hk. apply lookup_app_Some in Hk as [Hk|[Hge Hk]].
      * destruct (IHl _ _ _ Hokl Hk Hinner) as (cl & cr & kl & kr & El & Er & Hl & Hr & Hw).
        exists cl, cr, (S kl), (S kr).
        split; [rewrite El; f_equal; lia|]. split; [rewrite Er; f_equal; lia|].
        split; [simpl; by apply lookup_app_l_Some|].
        split; [simpl; by apply lookup_app_l_Some|]. done.
      * rewrite length_flat in Hk, Hge.
        destruct (IHr _ _ _ Hokr Hk Hinner) as (cl & cr & kl & kr & El & Er & Hl & Hr & Hw).
        exists cl, cr, (S (size l + kl)), (S (size l + kr)).
        split; [rewrite El; f_equal; lia|]. split; [rewrite Er; f_equal; lia|].
        split.
        { simpl. rewrite lookup_app_r by (rewrite length_flat; lia).
          rewrite length_flat. by replace (size l + kl - size l)%nat with kl by lia. }
        split; [|done].
        simpl. rewrite lookup_app_r by (rewrite length_flat; lia).
        rewrite length_flat. by replace (size l + kr - size l)%nat with kr by lia.
Qed.

(** C3: in the array [buildBVH] returns, every inner node (a node with
    [triIdx < 0]) has both children in the array, and on each axis
    [child.bmin >= parent.bmin] and [child.bmax <= parent.bmax] for the left
    and for the right child. *)
Theorem buildBVH_children_within worldVerts triangles nodes :
  triangles ≠ [] →
  (Z.of_nat (length triangles) < 4294967296)%Z →
  buildBVH worldVerts triangles = Some nodes →
  ∀ i nd, nodes !! i = Some (Some nd) → (triIdx nd < 0)%Z →
    ∃ l r, (0 ≤ left nd)%Z ∧ (0 ≤ right nd)%Z
           ∧ nodes !! Z.to_nat (left nd) = Some (Some l)
           ∧ nodes !! Z.to_nat (right nd) = Some (Some r)
           ∧ boxWithin (nodeBox l) (nodeBox nd)
           ∧ boxWithin (nodeBox r) (nodeBox nd).
Proof.
  intros Hne Hjs Hb i nd Hi Hinner.
  destruct (buildBVH_tree _ _ _ Hne Hjs Hb) as (t & -> & _ & Hok & _).
  rewrite list_lookup_fmap in Hi.
  destruct (flat 0 t !! i) as [nd'|] eqn:Hnd; [|done]. injection Hi as ->.
  destruct (flat_children _ _ _ _ _ _ Hok Hnd Hinner)
    as (l & r & kl & kr & El & Er & Hl & Hr & Hwl & Hwr).
  exists l, r. rewrite El, Er. simpl. rewrite !Nat2Z.id.
  split; [lia|]. split; [lia|].
  rewrite !list_lookup_fmap, Hl, Hr. done.
Qed.

Lemma buildBVH_children_within_witness :
  ∃ nd l r,
    buildBVH twoTriVerts twoTris ≫= (.!! 0%nat) = Some (Some nd)
    ∧ buildBVH twoTriVerts twoTris ≫= (.!! Z.to_nat (left nd)) = Some (Some l)
    ∧ buildBVH twoTriVerts twoTris ≫= (.!! Z.to_nat (right nd)) = Some (Some r)
    ∧ boxWithin (nodeBox l) (nodeBox nd) ∧ boxWithin (nodeBox r) (nodeBox nd).
Proof.
  destruct (buildBVH twoTriVerts twoTris) as [nodes|] eqn:Hb; [|by vm_compute in Hb].
  destruct (nodes !! 0%nat) as [[nd|]|] eqn:Hnd;
    [|by vm_compute in Hb; injection Hb as <-..].
  assert (triIdx nd < 0)%Z as Hinner.
  { vm_compute in Hb. injection Hb as <-. injection Hnd as <-. done. }
  destruct (buildBVH_children_within twoTriVerts twoTris nodes
              ltac:(done) ltac:(simpl; lia) Hb 0%nat nd Hnd Hinner)
    as (l & r & _ & _ & Hl & Hr & Hw).
  exists nd, l, r. simpl. done.
Defined.

(** * The walk over a built tree *)

Section Walk.
Context {S : Type}.
Variables (ox oy oz dx dy dz : number).
Variable nodes : list (option BVHNode).
Variable onLeaf : S → Z → option (S * bool).

Local Abbreviation round := (bvhRound ox oy oz dx dy dz nodes onLeaf).
Local Abbreviation loop := (bvhLoop ox oy oz dx dy dz nodes onLeaf).

(** The loop variables [k] rounds after [w], while the loop is running. *)
Fixpoint walkAfter (k : nat) (w : Walk S) : option (Walk S) :=
  match k with
  | O => Some w
  | Datatypes.S k' =>
      match stackPtr w with
      | O => None
      | _ => match round w with
             | Some (GoOn w') => walkAfter k' w'
             | _ => None
             end
      end
  end.

(** [walkAfter] follows the loop. *)
Lemma bvhLoop_walkAfter k : ∀ w w' fuel,
  walkAfter k w = Some w' → loop (k + fuel) w = loop fuel w'.
Proof.
  induction k as [|k IH]; intros w w' fuel H; simpl in H.
  - by injection H as <-.
  - simpl. destruct (stackPtr w); [done|].
    destruct (round w) as [[w1|]|]; [|done..]. simpl. by apply IH.
Qed.

(** The ray test on the box of a subtree. *)
Definition hitsBox (t : Tree) : bool :=
  rayAABBIntersect ox oy oz dx dy dz (box_min (tbox t)) (box_max (tbox t)).

(** The leaves the walk reaches in a subtree, in the order it reaches them:
    the right child is pushed last and popped first. *)
Fixpoint visit (t : Tree) : list nat :=
  match t with
  | TLeaf _ i => if hitsBox t then [i] else []
  | TNode _ l r => if hitsBox t then visit r ++ visit l else []
  end.

(** [onLeaf] along a list of leaves, until it asks to stop. *)
Fixpoint runLeaves (s : S) (ids : list nat) : option (S * bool) :=
  match ids with
  | [] => Some (s, false)
  | i :: rest =>
      '(s', stop) ← onLeaf s (Z.of_nat i);
      if stop : bool then Some (s', true) else runLeaves s' rest
  end.

Lemma runLeaves_app s l1 l2 :
  runLeaves s (l1 ++ l2) =
    match runLeaves s l1 with
    | Some (s', false) => runLeaves s' l2
    | r => r
    end.
Proof.
  revert s. induction l1 as [|i l1 IH]; intros s; simpl; [done|].
  destruct (onLeaf s (Z.of_nat i)) as [[s' [|]]|]; simpl; [done| |done].
  apply IH.
Qed.

(** The array holds the layout of [t] from index [base]. *)
Definition holds (base : nat) (t : Tree) : Prop :=
  ∀ k nd, flat base t !! k = Some nd → nodes !! (base + k)%nat = Some (Some nd).

Lemma holds_root base t : holds base t → nodes !! base = Some (Some (rootNode base t)).
Proof.
  intros H. specialize (H 0%nat _ (flat_head base t)). by rewrite Nat.add_0_r in H.
Qed.

Lemma holds_left base b l r : holds base (TNode b l r) → holds (Datatypes.S base) l.
Proof.
  intros H k nd Hk.
  replace (Datatypes.S base + k)%nat with (base + Datatypes.S k)%nat by lia.
  apply H. simpl. by apply lookup_app_l_Some.
Qed.

Lemma holds_right base b l r :
  holds base (TNode b l r) → holds (Datatypes.S base + size l) r.
Proof.
  intros H k nd Hk.
  replace (Datatypes.S base + size l + k)%nat
    with (base + Datatypes.S (size l + k))%nat by lia.
  apply H. simpl. rewrite lookup_app_r by (rewrite length_flat; lia).
  rewrite length_flat. by replace (size l + k - size l)%nat with k by lia.
Qed.

(** ** One round *)

Lemma nodeAt_nat base nd :
  nodes !! base = Some (Some nd) → nodeAt nodes (Z.of_nat base) = Some nd.
Proof.
  intros H. unfold nodeAt.
  destruct (Z.ltb_spec (Z.of_nat base) 0); [lia|].
  rewrite Nat2Z.id, H. done.
Qed.

(** An index from 2^31 on reads back negative from the [Int32Array]. *)
Lemma nodeAt_wrapped base :
  (2147483648 ≤ Z.of_nat base < 4294967296)%Z →
  nodeAt nodes (wrap_int32 (Z.of_nat base)) = None.
Proof.
  intros Hb. unfold nodeAt, wrap_int32.
  replace (Z.of_nat base + 2147483648)%Z
    with ((Z.of_nat base - 2147483648) + 1 * 4294967296)%Z by lia.
  rewrite Z.mod_add by lia. rewrite Z.mod_small by lia.
  destruct (Z.ltb_spec (Z.of_nat base - 2147483648 - 2147483648) 0); [done|lia].
Qed.

Lemma round_miss base t stk ptr s :
  stk !! ptr = Some (Z.of_nat base) →
  holds base t → hitsBox t = false →
  round (mkWalk stk (Datatypes.S ptr) s) = Some (GoOn (mkWalk stk ptr s)).
Proof.
  intros Hcell Hholds Hmiss. unfold bvhRound. simpl. rewrite Hcell. simpl.
  rewrite (nodeAt_nat _ _ (holds_root _ _ Hholds)). simpl.
  unfold hitsBox in Hmiss. replace (bmin (rootNode base t)) with (box_min (tbox t))
    by (by destruct t). replace (bmax (rootNode base t)) with (box_max (tbox t))
    by (by destruct t).
  rewrite Hmiss. done.
Qed.

Lemma round_leaf base b i stk ptr s :
  stk !! ptr = Some (Z.of_nat base) →
  holds base (TLeaf b i) → hitsBox (TLeaf b i) = true →
  round (mkWalk stk (Datatypes.S ptr) s) =
    '(s', stop) ← onLeaf s (Z.of_nat i);
    if stop : bool then Some (Stop stk s') else Some (GoOn (mkWalk stk ptr s')).
Proof.
  intros Hcell Hholds Hhit. unfold bvhRound. simpl. rewrite Hcell. simpl.
  rewrite (nodeAt_nat _ _ (holds_root _ _ Hholds)). simpl.
  unfold hitsBox in Hhit. simpl in Hhit. rewrite Hhit. simpl.
  destruct (Z.leb_spec 0 (Z.of_nat i)); [done|lia].
Qed.

Lemma round_inner base b l r stk ptr s :
  stk !! ptr = Some (Z.of_nat base) →
  holds base (TNode b l r) → hitsBox (TNode b l r) = true →
  round (mkWalk stk (Datatypes.S ptr) s) =
    Some (GoOn (mkWalk
      (stackStore (stackStore stk ptr (Z.of_nat (Datatypes.S base)))
                  (Datatypes.S ptr) (Z.of_nat (Datatypes.S base + size l)))
      (Datatypes.S (Datatypes.S ptr)) s)).
Proof.
  intros Hcell Hholds Hhit. unfold bvhRound. simpl. rewrite Hcell. simpl.
  rewrite (nodeAt_nat _ _ (holds_root _ _ Hholds)). simpl.
  unfold hitsBox in Hhit. simpl in Hhit. rewrite Hhit. done.
Qed.

(** The two stores of an inner round, inside the 64 cells. *)
Lemma stack_after_push stk ptr (a b : Z) :
  length stk = BVH_STACK_SIZE → (ptr + 2 ≤ BVH_STACK_SIZE)%nat →
  let stk' := stackStore (stackStore stk ptr a) (Datatypes.S ptr) b in
  length stk' = BVH_STACK_SIZE
  ∧ take ptr stk' = take ptr stk
  ∧ stk' !! ptr = Some (wrap_int32 a)
  ∧ stk' !! Datatypes.S ptr = Some (wrap_int32 b).
Proof.
  intros Hlen Hptr stk'. unfold stk', stackStore.
  split; [by rewrite !length_insert|].
  split; [rewrite !take_insert_ge by lia; done|].
  split.
  - rewrite list_lookup_insert_ne by lia.
    apply list_lookup_insert_eq. lia.
  - apply list_lookup_insert_eq. rewrite length_insert. lia.
Qed.

Lemma take_eq_le {A} (a b : list A) (n m : nat) :
  (n ≤ m)%nat → take m a = take m b → take n a = take n b.
Proof.
  intros Hnm H.
  rewrite <- (Nat.min_l n m) by done.
  rewrite <- !take_take. by rewrite H.
Qed.

Lemma take_eq_lookup {A} (a b : list A) (i m : nat) :
  (i < m)%nat → take m a = take m b → a !! i = b !! i.
Proof.
  intros Him H.
  rewrite <- (lookup_take_lt a m) by done.
  rewrite <- (lookup_take_lt b m i) by done.
  by rewrite H.
Qed.

(** ** The stack while a subtree is walked *)

(** Entered with the root of [t] on top of the stack, in cell [ptr], the
    loop keeps [stackPtr] within [ptr + height t + 1] until the subtree is
    done; it then stands at [stackPtr = ptr] with the cells below [ptr]
    untouched. The cell holds the root index as the [Int32Array] stored it. *)
Lemma walk_tree t : ∀ base stk ptr s k w',
  holds base t →
  length stk = BVH_STACK_SIZE →
  stk !! ptr = Some (wrap_int32 (Z.of_nat base)) →
  (ptr + height t + 1 ≤ BVH_STACK_SIZE)%nat →
  (Z.of_nat (base + size t) ≤ 4294967296)%Z →
  walkAfter k (mkWalk stk (Datatypes.S ptr) s) = Some w' →
  (stackPtr w' ≤ ptr + height t + 1)%nat
  ∨ ∃ k' stk' s',
      (k' ≤ k)%nat ∧ length stk' = BVH_STACK_SIZE ∧ take ptr stk' = take ptr stk
      ∧ walkAfter k' (mkWalk stk' ptr s') = Some w'.
Proof.
  induction t as [b i|b l IHl r IHr];
    intros base stk ptr s k w' Hholds Hlen Hcell Hcap Hidx Hwalk.
  - (* a leaf *)
    destruct k as [|k]; [injection Hwalk as <-; left; simpl; lia|].
    simpl in Hwalk.
    destruct (decide (Z.of_nat base < 2147483648)%Z) as [Hsmall|Hbig].
    + rewrite wrap_int32_small in Hcell by lia.
      destruct (hitsBox (TLeaf b i)) eqn:Hhit.
      * rewrite (round_leaf base b i) in Hwalk by done.
        destruct (onLeaf s (Z.of_nat i)) as [[s' [|]]|]; simpl in Hwalk; [done| |done].
        right. exists k, stk, s'. split; [lia|done].
      * rewrite (round_miss base (TLeaf b i)) in Hwalk by done.
        right. exists k, stk, s. split; [lia|done].
    + unfold bvhRound in Hwalk. simpl in Hwalk. rewrite Hcell in Hwalk. simpl in Hwalk.
      rewrite nodeAt_wrapped in Hwalk; [done|]. simpl in Hidx. lia.
  - (* an inner node *)
    destruct k as [|k]; [injection Hwalk as <-; left; simpl; lia|].
    simpl in Hwalk. cbn [height size] in Hcap, Hidx.
    destruct (decide (Z.of_nat base < 2147483648)%Z) as [Hsmall|Hbig].
    + rewrite wrap_int32_small in Hcell by lia.
      destruct (hitsBox (TNode b l r)) eqn:Hhit.
      * rewrite (round_inner base b l r) in Hwalk by done.
        destruct (stack_after_push stk ptr (Z.of_nat (Datatypes.S base))
                    (Z.of_nat (Datatypes.S base + size l)) Hlen ltac:(lia))
          as (Hlen2 & Htake2 & Hcl & Hcr).
        set (stk2 := stackStore _ _ _) in *.
        destruct (IHr _ stk2 (Datatypes.S ptr) s k w' (holds_right _ _ _ _ Hholds)
                    Hlen2 Hcr ltac:(lia) ltac:(lia) Hwalk)
          as [Hle|(k3 & stk3 & s3 & Hk3 & Hlen3 & Htake3 & Hwalk3)].
        { left. simpl. lia. }
        assert (stk3 !! ptr = Some (wrap_int32 (Z.of_nat (Datatypes.S base)))) as Hcl3.
        { rewrite <- Hcl. apply (take_eq_lookup _ _ _ (Datatypes.S ptr)); [lia|done]. }
        destruct (IHl _ stk3 ptr s3 k3 w' (holds_left _ _ _ _ Hholds)
                    Hlen3 Hcl3 ltac:(lia) ltac:(lia) Hwalk3)
          as [Hle|(k4 & stk4 & s4 & Hk4 & Hlen4 & Htake4 & Hwalk4)].
        { left. simpl. lia. }
        right. exists k4, stk4, s4. split; [lia|]. split; [done|]. split; [|done].
        rewrite Htake4, <- Htake2.
        apply (take_eq_le _ _ _ (Datatypes.S ptr)); [lia|done].
      * rewrite (round_miss base (TNode b l r)) in Hwalk by done.
        right. exists k, stk, s. split; [lia|done].
    + unfold bvhRound in Hwalk. simpl in Hwalk. rewrite Hcell in Hwalk. simpl in Hwalk.
      rewrite nodeAt_wrapped in Hwalk; [done|]. lia.
Qed.

(** ** What the loop computes on a subtree *)

(** Entered with the root of [t] on top of the stack, the loop runs
    [onLeaf] along [visit t]; unless [onLeaf] throws or stops the walk, it
    then stands at [stackPtr = ptr] with the cells below [ptr] untouched. *)
Lemma loop_tree t : ∀ base stk ptr s fuel,
  holds base t →
  length stk = BVH_STACK_SIZE →
  stk !! ptr = Some (Z.of_nat base) →
  (ptr + height t + 1 ≤ BVH_STACK_SIZE)%nat →
  (Z.of_nat (base + size t) ≤ 2147483648)%Z →
  (size t ≤ fuel)%nat →
  ∃ stk' fuel',
    length stk' = BVH_STACK_SIZE ∧ take ptr stk' = take ptr stk
    ∧ (fuel - size t ≤ fuel')%nat
    ∧ loop fuel (mkWalk stk (Datatypes.S ptr) s) =
        match runLeaves s (visit t) with
        | None => None
        | Some (s', true) => Some (stk', s')
        | Some (s', false) => loop fuel' (mkWalk stk' ptr s')
        end.
Proof.
  induction t as [b i|b l IHl r IHr];
    intros base stk ptr s fuel Hholds Hlen Hcell Hcap Hidx Hfuel.
  - (* a leaf *)
    destruct fuel as [|fuel]; [simpl in Hfuel; lia|].
    exists stk, fuel. split; [done|]. split; [done|]. split; [simpl; lia|].
    cbn [bvhLoop stackPtr visit].
    destruct (hitsBox (TLeaf b i)) eqn:Hhit.
    + rewrite (round_leaf base b i) by done. simpl.
      destruct (onLeaf s (Z.of_nat i)) as [[s' [|]]|]; done.
    + rewrite (round_miss base (TLeaf b i)) by done. done.
  - (* an inner node *)
    destruct fuel as [|fuel]; [simpl in Hfuel; lia|].
    cbn [height size] in Hcap, Hidx, Hfuel.
    pose proof (size_pos l). pose proof (size_pos r).
    cbn [bvhLoop stackPtr visit size].
    destruct (hitsBox (TNode b l r)) eqn:Hhit.
    + rewrite (round_inner base b l r) by done. cbn [mbind option_bind].
      destruct (stack_after_push stk ptr (Z.of_nat (Datatypes.S base))
                  (Z.of_nat (Datatypes.S base + size l)) Hlen ltac:(lia))
        as (Hlen2 & Htake2 & Hcl & Hcr).
      set (stk2 := stackStore _ _ _) in *.
      rewrite wrap_int32_small in Hcl by lia.
      rewrite wrap_int32_small in Hcr by lia.
      destruct (IHr _ stk2 (Datatypes.S ptr) s fuel (holds_right _ _ _ _ Hholds)
                  Hlen2 Hcr ltac:(lia) ltac:(lia) ltac:(lia))
        as (stk3 & fuel3 & Hlen3 & Htake3 & Hfuel3 & Hloop3).
      rewrite Hloop3, runLeaves_app.
      destruct (runLeaves s (visit r)) as [[s3 [|]]|].
      * exists stk3, fuel3. split; [done|]. split; [|split; [lia|done]].
        rewrite <- Htake2. apply (take_eq_le _ _ _ (Datatypes.S ptr)); [lia|done].
      * assert (stk3 !! ptr = Some (Z.of_nat (Datatypes.S base))) as Hcl3.
        { rewrite <- Hcl. apply (take_eq_lookup _ _ _ (Datatypes.S ptr)); [lia|done]. }
        destruct (IHl _ stk3 ptr s3 fuel3 (holds_left _ _ _ _ Hholds)
                    Hlen3 Hcl3 ltac:(lia) ltac:(lia) ltac:(lia))
          as (stk4 & fuel4 & Hlen4 & Htake4 & Hfuel4 & Hloop4).
        exists stk4, fuel4. split; [done|]. split; [|split; [lia|done]].
        rewrite Htake4, <- Htake2.
        apply (take_eq_le _ _ _ (Datatypes.S ptr)); [lia|done].
      * exists stk, fuel. split; [done|]. split; [done|]. split; [lia|done].
    + rewrite (round_miss base (TNode b l r)) by done.
      exists stk, fuel. split; [done|]. split; [done|]. split; [lia|done].
Qed.

(** [bvhTraverse] over the layout of a whole tree: [onLeaf] along the
    leaves the ray reaches. *)
Lemma bvhTraverse_tree t fuel stk s :
  holds 0 t →
  length stk = BVH_STACK_SIZE →
  (height t + 1 ≤ BVH_STACK_SIZE)%nat →
  (Z.of_nat (size t) ≤ 2147483648)%Z →
  (size t ≤ fuel)%nat →
  ∃ stk', bvhTraverse ox oy oz dx dy dz nodes onLeaf fuel stk s =
            '(s', _) ← runLeaves s (visit t); Some (stk', s').
Proof.
  intros Hholds Hlen Hcap Hidx Hfuel. unfold bvhTraverse.
  destruct (loop_tree t 0 (stackStore stk 0 0) 0 s fuel)
    as (stk' & fuel' & _ & _ & _ & Hloop); [done| |..|].
  - unfold stackStore. by rewrite length_insert.
  - unfold stackStore. apply list_lookup_insert_eq. rewrite Hlen. unfold BVH_STACK_SIZE. lia.
  - lia.
  - simpl. lia.
  - done.
  - exists stk'. rewrite Hloop.
    destruct (runLeaves s (visit t)) as [[s' [|]]|]; simpl; [done| |done].
    by destruct fuel'.
Qed.

End Walk.

Lemma holds_flat t : holds (Some <$> flat 0 t) 0 t.
Proof. intros k nd Hk. simpl. by rewrite list_lookup_fmap, Hk. Qed.

Lemma log2_up_js_array n :
  (Z.of_nat n < 4294967296)%Z → (Nat.log2_up n ≤ 32)%nat.
Proof.
  intros Hn. destruct (decide (n = 0)%nat) as [->|Hpos]; [change (0 ≤ 32)%nat; lia|].
  apply Nat.log2_up_le_pow2; [lia|].
  apply Nat2Z.inj_le. rewrite Nat2Z.inj_pow.
  change (Z.of_nat 2 ^ Z.of_nat 32)%Z with 4294967296%Z. lia.
Qed.

(** C9: over the array [buildBVH] returns for [n >= 1] triangles, whatever
    the ray, the callback and the old contents of the shared stack, the loop
    of [bvhTraverse] never has more than [ceil (log2 n) + 1] entries on its
    stack, which is within the 64 cells: no store falls outside them. *)
Theorem bvhTraverse_stack_bound {S : Type} ox oy oz dx dy dz worldVerts triangles nodes
    (onLeaf : S → Z → option (S * bool)) (stk : list Z) (s : S) (k : nat) (w' : Walk S) :
  triangles ≠ [] →
  (Z.of_nat (length triangles) < 4294967296)%Z →
  buildBVH worldVerts triangles = Some nodes →
  length stk = BVH_STACK_SIZE →
  walkAfter ox oy oz dx dy dz nodes onLeaf k (mkWalk (stackStore stk 0 0) 1 s) = Some w' →
  (stackPtr w' ≤ Nat.log2_up (length triangles) + 1)%nat
  ∧ (Nat.log2_up (length triangles) + 1 ≤ BVH_STACK_SIZE)%nat.
Proof.
  intros Hne Hjs Hb Hlen Hwalk.
  destruct (buildBVH_tree _ _ _ Hne Hjs Hb) as (t & -> & Hleaves & _ & Hbal & Hsmall & _).
  pose proof (log2_up_js_array _ Hjs) as Hlog.
  pose proof (balanced_height_log2 t Hbal) as Hheight.
  assert (length (leaves t) = length triangles) as Hcount
    by (by rewrite Hleaves, length_seq).
  rewrite Hcount in Hheight.
  split; [|unfold BVH_STACK_SIZE; lia].
  destruct (walk_tree ox oy oz dx dy dz (Some <$> flat 0 t) onLeaf t 0
              (stackStore stk 0 0) 0 s k w')
    as [Hle|(k' & stk' & s' & _ & _ & _ & Hwalk')].
  - apply holds_flat.
  - unfold stackStore. by rewrite length_insert.
  - unfold stackStore. apply list_lookup_insert_eq. rewrite Hlen. unfold BVH_STACK_SIZE. lia.
  - unfold BVH_STACK_SIZE. lia.
  - rewrite size_leaves, Hcount. lia.
  - done.
  - lia.
  - destruct k' as [|k']; [|done]. injection Hwalk' as <-. simpl. lia.
Qed.

(** A walk that pushes: the ray enters the root box of the two-triangle
    tree, so after the first round both children are on the stack, which
    is the bound [ceil (log2 2) + 1 = 2]. *)
Lemma bvhTraverse_stack_bound_witness :
  ∃ nodes w',
    buildBVH twoTriVerts twoTris = Some nodes
    ∧ walkAfter 5.2 5.2 0 0.001 0.001 1 nodes (λ (s : unit) _, Some (s, false)) 1
        (mkWalk (stackStore (replicate 64 0%Z) 0 0) 1 tt) = Some w'
    ∧ stackPtr w' = 2%nat
    ∧ (stackPtr w' ≤ Nat.log2_up (length twoTris) + 1)%nat.
Proof.
  destruct (buildBVH twoTriVerts twoTris) as [nodes|] eqn:Hb; [|by vm_compute in Hb].
  destruct (walkAfter 5.2 5.2 0 0.001 0.001 1 nodes (λ (s : unit) _, Some (s, false)) 1
              (mkWalk (stackStore (replicate 64 0%Z) 0 0) 1 tt)) as [w'|] eqn:Hw;
    [|by vm_compute in Hb; injection Hb as <-; vm_compute in Hw].
  exists nodes, w'. split; [done|]. split; [done|]. split.
  - vm_compute in Hb. injection Hb as <-. vm_compute in Hw. injection Hw as <-.
    reflexivity.
  - apply (bvhTraverse_stack_bound 5.2 5.2 0 0.001 0.001 1 twoTriVerts twoTris nodes
             (λ (s : unit) _, Some (s, false)) (replicate 64 0%Z) tt 1 w');
      [done|simpl; lia|done|done|done].
Defined.

(** * Any-hit against closest-hit *)

Section Queries.
Variables (ox oy oz dx dy dz : number).
Variables (worldVerts : list vec3) (triangles : list Tri).

(** The distance at which the ray hits triangle [i], if it does. *)
Definition hitT (i : nat) : option number :=
  '(v0, v1, v2) ← triVerts worldVerts triangles i;
  hit_t <$> rayTriangleIntersect ox oy oz dx dy dz v0 v1 v2.

(** The hit distances along a list of leaves, in order. *)
Definition hitTs (ids : list nat) : list number := omap hitT ids.

(** The variables of [bvhClosestHit] after the hit distances [ts], when it
    was called with the bound [maxT]: either no distance was below [maxT]
    and they are as they started, or [bestT] is the least of the distances,
    and below [maxT]. *)
Definition closestInv (maxT : number) (best : Best) (ts : list number) : Prop :=
  (best.1.2 = (-1)%Z ∧ best.1.1 = maxT ∧ ∀ t, t ∈ ts → (t <? maxT) = false)
  ∨ ((0 ≤ best.1.2)%Z ∧ best.1.1 ∈ ts ∧ (best.1.1 <? maxT) = true
     ∧ ∀ t, t ∈ ts → is_num t → (best.1.1 <=? t) = true).

Lemma closestLeaf_valid best i v0 v1 v2 :
  triVerts worldVerts triangles i = Some (v0, v1, v2) →
  closestLeaf ox oy oz dx dy dz worldVerts triangles best (Z.of_nat i) =
    match rayTriangleIntersect ox oy oz dx dy dz v0 v1 v2 with
    | Some h => if hit_t h <? best.1.1 then Some ((hit_t h, Z.of_nat i, Some h), false)
                else Some (best, false)
    | None => Some (best, false)
    end.
Proof. intros Hv. unfold closestLeaf. by rewrite Nat2Z.id, Hv. Qed.

Lemma anyLeaf_valid maxT found i v0 v1 v2 :
  triVerts worldVerts triangles i = Some (v0, v1, v2) →
  anyLeaf ox oy oz dx dy dz worldVerts triangles maxT found (Z.of_nat i) =
    match rayTriangleIntersect ox oy oz dx dy dz v0 v1 v2 with
    | Some h => if hit_t h <? maxT then Some (true, true) else Some (found, false)
    | None => Some (found, false)
    end.
Proof. intros Hv. unfold anyLeaf. by rewrite Nat2Z.id, Hv. Qed.

Lemma hitTs_cons i ids v0 v1 v2 :
  triVerts worldVerts triangles i = Some (v0, v1, v2) →
  hitTs (i :: ids) =
    match rayTriangleIntersect ox oy oz dx dy dz v0 v1 v2 with
    | Some h => hit_t h :: hitTs ids
    | None => hitTs ids
    end.
Proof.
  intros Hv. unfold hitTs. simpl. unfold hitT at 1. rewrite Hv. simpl.
  by destruct (rayTriangleIntersect _ _ _ _ _ _ _ _ _).
Qed.

Lemma closestLeaf_run maxT ids : ∀ best ts,
  Forall (λ i, is_Some (triVerts worldVerts triangles i)) ids →
  closestInv maxT best ts →
  ∃ best',
    runLeaves (closestLeaf ox oy oz dx dy dz worldVerts triangles) best ids
      = Some (best', false)
    ∧ closestInv maxT best' (ts ++ hitTs ids).
Proof.
  induction ids as [|i ids IH]; intros best ts Hvalid Hinv.
  - exists best. simpl. by rewrite app_nil_r.
  - apply Forall_cons in Hvalid as [[[[v0 v1] v2] Hv] Hvalid].
    cbn [runLeaves]. rewrite (closestLeaf_valid _ _ _ _ _ Hv), (hitTs_cons _ _ _ _ _ Hv).
    destruct (rayTriangleIntersect ox oy oz dx dy dz v0 v1 v2) as [h|]; simpl;
      [|by apply IH].
    replace (ts ++ hit_t h :: hitTs ids) with ((ts ++ [hit_t h]) ++ hitTs ids)
      by (rewrite <- app_assoc; done).
    destruct (hit_t h <? best.1.1) eqn:Hlt; simpl; (apply IH; [done|]).
    + (* a nearer hit: it becomes the best *)
      destruct (ltb_is_num _ _ Hlt) as [Hnum Hnum'].
      right. simpl. split; [lia|].
      split; [apply elem_of_app; right; by apply list_elem_of_singleton|].
      destruct Hinv as [(_ & Hbest & Hnone)|(_ & _ & Hbelow & Hleast)].
      * rewrite Hbest in Hlt, Hnum'. split; [done|].
        intros t Ht Hnt. apply elem_of_app in Ht as [Ht|Ht].
        -- (* [t] is not below [maxT], and the new hit is *)
           apply ltb_leb. eapply ltb_leb_trans; [exact Hlt|].
           apply ltb_false_leb; [by apply Hnone|done|done].
        -- apply list_elem_of_singleton in Ht as ->. by apply leb_refl.
      * split; [eapply ltb_leb_trans; [exact Hlt|by apply ltb_leb]|].
        intros t Ht Hnt. apply elem_of_app in Ht as [Ht|Ht].
        -- eapply leb_trans; [apply ltb_leb, Hlt|by apply Hleast].
        -- apply list_elem_of_singleton in Ht as ->. by apply leb_refl.
    + (* not nearer: the best stays *)
      destruct Hinv as [(Hidx & Hbest & Hnone)|(Hidx & Hin & Hbelow & Hleast)].
      * left. split; [done|]. split; [done|].
        intros t Ht. apply elem_of_app in Ht as [Ht|Ht]; [by apply Hnone|].
        apply list_elem_of_singleton in Ht as ->. by rewrite <- Hbest.
      * right. split; [done|]. split; [apply elem_of_app; by left|]. split; [done|].
        intros t Ht Hnt. apply elem_of_app in Ht as [Ht|Ht]; [by apply Hleast|].
        apply list_elem_of_singleton in Ht as ->.
        apply ltb_false_leb; [done|done|].
        by destruct (ltb_is_num _ _ Hbelow).
Qed.

Lemma anyLeaf_run maxT ids :
  Forall (λ i, is_Some (triVerts worldVerts triangles i)) ids →
  ∃ found stop,
    runLeaves (anyLeaf ox oy oz dx dy dz worldVerts triangles maxT) false ids
      = Some (found, stop)
    ∧ (found = true ↔ ∃ t, t ∈ hitTs ids ∧ (t <? maxT) = true).
Proof.
  induction ids as [|i ids IH]; intros Hvalid.
  - exists false, false. split; [done|]. split; [done|].
    intros (t & Ht & _). by apply elem_of_nil in Ht.
  - apply Forall_cons in Hvalid as [[[[v0 v1] v2] Hv] Hvalid].
    destruct (IH Hvalid) as (found & stop & Hrun & Hiff).
    cbn [runLeaves]. rewrite (anyLeaf_valid _ _ _ _ _ _ Hv), (hitTs_cons _ _ _ _ _ Hv).
    destruct (rayTriangleIntersect ox oy oz dx dy dz v0 v1 v2) as [h|]; simpl.
    + destruct (hit_t h <? maxT) eqn:Hlt; simpl.
      * exists true, true. split; [done|]. split; [|done].
        intros _. exists (hit_t h). split; [by left|done].
      * exists found, stop. split; [done|]. rewrite Hiff.
        split; intros (t & Ht & Hm); exists t; (split; [|done]).
        -- by right.
        -- apply elem_of_cons in Ht as [->|Ht]; [congruence|done].
    + exists found, stop. done.
Qed.

Lemma visit_leaves t i : i ∈ visit ox oy oz dx dy dz t → i ∈ leaves t.
Proof.
  induction t as [b j|b l IHl r IHr]; simpl.
  - destruct (hitsBox _ _ _ _ _ _ _); [done|]. intros H. by apply elem_of_nil in H.
  - destruct (hitsBox _ _ _ _ _ _ _); [|intros H; by apply elem_of_nil in H].
    rewrite !elem_of_app. intros [H|H]; [right; by apply IHr|left; by apply IHl].
Qed.

End Queries.

(** At the boundary the two queries differ: the ray meets the one triangle
    at exactly [t = 1]; closest-hit reports it and [1 <= 1], but any-hit
    with [maxDistance = 1] tests [t < 1] and reports nothing. *)
Lemma bvhAnyHit_boundary_differs :
  let verts := [Vec3 (-1) (-1) 1; Vec3 3 (-1) 1; Vec3 (-1) 3 1] in
  let tris := [mkTri 0 1 2] in
  let stk := replicate 64 0%Z in
  ∃ nodes stkC stkA h,
    buildBVH verts tris = Some nodes
    ∧ bvhClosestHit 1 0 0 0 0 0 1 nodes verts tris Infinity stk = Some (stkC, Some h)
    ∧ (oh_t h <=? 1) = true
    ∧ bvhAnyHit 1 0 0 0 0 0 1 nodes verts tris 1 stk = Some (stkA, false).
Proof.
  do 4 eexists. split; [vm_compute; reflexivity|].
  split; [vm_compute; reflexivity|]. split; vm_compute; reflexivity.
Qed.

(** C2, as the code has it: on the array [buildBVH] returns (for at most
    2^30 triangles, so that node indices fit the [Int32Array]), for every
    ray and every [maxDistance], both queries return, and [bvhAnyHit] is
    true exactly when [bvhClosestHit] returns a hit with [t < maxDistance];
    this for the unbounded closest-hit ([maxT = Infinity]) and also for
    closest-hit given the same bound ([maxT = maxDistance]). The old
    contents of the shared stack do not matter. *)
Theorem bvhAnyHit_iff_closest_below fuel ox oy oz dx dy dz worldVerts triangles nodes
    maxDistance maxT stkA stkC :
  (Z.of_nat (length triangles) ≤ 1073741824)%Z →
  buildBVH worldVerts triangles = Some nodes →
  length stkA = BVH_STACK_SIZE → length stkC = BVH_STACK_SIZE →
  (length nodes ≤ fuel)%nat →
  maxT = Infinity ∨ maxT = maxDistance →
  ∃ stkA' stkC' found closest,
    bvhAnyHit fuel ox oy oz dx dy dz nodes worldVerts triangles maxDistance stkA
      = Some (stkA', found)
    ∧ bvhClosestHit fuel ox oy oz dx dy dz nodes worldVerts triangles maxT stkC
      = Some (stkC', closest)
    ∧ (found = true ↔ ∃ h, closest = Some h ∧ (oh_t h <? maxDistance) = true).
Proof.
  intros Hsmall Hb HlenA HlenC Hfuel HmaxT.
  destruct (decide (triangles = [])) as [->|Hne].
  { injection Hb as <-. exists stkA, stkC, false, None.
    split; [done|]. split; [done|]. split; [done|]. by intros (h & ? & _). }
  destruct (buildBVH_tree _ _ _ Hne ltac:(lia) Hb)
    as (t & -> & Hleaves & _ & Hbal & _ & Hvalid).
  assert (length (leaves t) = length triangles) as Hcount
    by (by rewrite Hleaves, length_seq).
  pose proof (log2_up_js_array (length triangles) ltac:(lia)) as Hlog.
  pose proof (balanced_height_log2 t Hbal) as Hheight. rewrite Hcount in Hheight.
  pose proof (size_pos t) as Hpos.
  rewrite length_fmap, length_flat in Hfuel.
  assert (Forall (λ i, is_Some (triVerts worldVerts triangles i))
            (visit ox oy oz dx dy dz t)) as Hvisit.
  { apply Forall_forall. intros i Hi.
    eapply (proj1 (Forall_forall _ _) Hvalid). by eapply visit_leaves. }
  unfold bvhAnyHit, bvhClosestHit.
  rewrite length_fmap, length_flat.
  case_decide; [lia|].
  (* any-hit *)
  destruct (bvhTraverse_tree ox oy oz dx dy dz (Some <$> flat 0 t)
              (anyLeaf ox oy oz dx dy dz worldVerts triangles maxDistance)
              t fuel stkA false) as (stkA' & ->);
    [apply holds_flat|done|unfold BVH_STACK_SIZE; lia|rewrite size_leaves, Hcount; lia|done|].
  destruct (anyLeaf_run ox oy oz dx dy dz worldVerts triangles maxDistance _ Hvisit)
    as (found & stop & -> & Hfound).
  (* closest-hit *)
  destruct (bvhTraverse_tree ox oy oz dx dy dz (Some <$> flat 0 t)
              (closestLeaf ox oy oz dx dy dz worldVerts triangles)
              t fuel stkC (maxT, (-1)%Z, None)) as (stkC' & ->);
    [apply holds_flat|done|unfold BVH_STACK_SIZE; lia|rewrite size_leaves, Hcount; lia|done|].
  destruct (closestLeaf_run ox oy oz dx dy dz worldVerts triangles maxT _
              (maxT, (-1)%Z, None) [] Hvisit)
    as ([[bestT bestTriIdx] bestHit] & -> & Hinv).
  { left. split; [done|]. split; [done|]. intros t0 Ht0. by apply elem_of_nil in Ht0. }
  unfold closestInv in Hinv. cbn [fst snd] in Hinv. simpl.
  eexists stkA', stkC', found, _. split; [done|]. split; [done|].
  rewrite Hfound. split.
  - (* some reached triangle is hit below maxDistance *)
    intros (t0 & Ht0 & Hlt).
    destruct (ltb_is_num _ _ Hlt) as [Hn0 HnM].
    assert ((t0 <? maxT) = true) as Hlt'.
    { destruct HmaxT as [->| ->]; [|done].
      eapply ltb_leb_trans; [exact Hlt|]. by apply leb_Infinity. }
    destruct Hinv as [(_ & _ & Hnone)|(Hidx & _ & _ & Hleast)].
    + rewrite (Hnone t0 Ht0) in Hlt'. done.
    + destruct (Z.leb_spec 0 bestTriIdx); [|lia]. eexists. split; [done|]. simpl.
      eapply leb_ltb_trans; [by apply Hleast|done].
  - (* closest-hit returned a hit below maxDistance *)
    intros (h & Hh & Hlt).
    destruct (Z.leb_spec 0 bestTriIdx); [|done]. injection Hh as <-. simpl in Hlt.
    destruct Hinv as [(Hidx & _)|(_ & Hin & _)]; [lia|].
    exists bestT. done.
Qed.

(** A ray that hits: it enters the root box of the two-triangle tree and
    meets triangle 0 at [t = 5]; any-hit within 10 is true and the unbounded
    closest-hit returns that hit. *)
Lemma bvhAnyHit_iff_closest_below_witness :
  ∃ stkA' stkC' h,
    bvhAnyHit 3 5.2 5.2 0 0.001 0.001 1 (default [] (buildBVH twoTriVerts twoTris))
      twoTriVerts twoTris 10 (replicate 64 0%Z) = Some (stkA', true)
    ∧ bvhClosestHit 3 5.2 5.2 0 0.001 0.001 1 (default [] (buildBVH twoTriVerts twoTris))
        twoTriVerts twoTris Infinity (replicate 64 0%Z) = Some (stkC', Some h)
    ∧ oh_t h = 5 ∧ oh_triIdx h = 0%Z
    ∧ (true = true ↔ ∃ h', Some h = Some h' ∧ (oh_t h' <? 10) = true).
Proof.
  destruct (bvhAnyHit_iff_closest_below 3 5.2 5.2 0 0.001 0.001 1 twoTriVerts twoTris
              (default [] (buildBVH twoTriVerts twoTris)) 10 Infinity
              (replicate 64 0%Z) (replicate 64 0%Z))
    as (stkA' & stkC' & found & closest & HA & HC & Hiff);
    [simpl; lia|vm_compute; reflexivity|reflexivity|reflexivity|vm_compute; lia
    |by left|].
  pose proof HA as HA'. vm_compute in HA'. injection HA' as _ <-.
  pose proof HC as HC'. vm_compute in HC'. injection HC' as _ <-.
  eexists stkA', stkC', _. split; [exact HA|]. split; [exact HC|].
  split; [reflexivity|]. split; [reflexivity|]. exact Hiff.
Defined.

(** * Determinism of a shaded sample *)

(** ** The walk does not read what earlier walks left on the stack *)

Section StackIndependence.
Context {S : Type}.
Variables (ox oy oz dx dy dz : number).
Variable nodes : list (option BVHNode).
Variable onLeaf : S → Z → option (S * bool).

(** Two runs of the loop that differ only in the stack cells at and above
    [stackPtr]. *)
Definition sameWalk (w1 w2 : Walk S) : Prop :=
  stackPtr w1 = stackPtr w2 ∧ captured w1 = captured w2
  ∧ length (stack w1) = length (stack w2)
  ∧ take (stackPtr w1) (stack w1) = take (stackPtr w1) (stack w2).

Definition sameRound (r1 r2 : option (Round S)) : Prop :=
  match r1, r2 with
  | Some (GoOn w1), Some (GoOn w2) => sameWalk w1 w2
  | Some (Stop stk1 s1), Some (Stop stk2 s2) => s1 = s2 ∧ length stk1 = length stk2
  | None, None => True
  | _, _ => False
  end.

Lemma take_S_insert {A} (a b : list A) (p : nat) (x : A) :
  length a = length b → take p a = take p b →
  take (Datatypes.S p) (<[p := x]> a) = take (Datatypes.S p) (<[p := x]> b).
Proof.
  intros Hlen Htake. apply list_eq. intros i.
  destruct (decide (i < Datatypes.S p)%nat) as [Hi|Hi].
  - rewrite !lookup_take_lt by done.
    destruct (decide (i = p)) as [->|Hne].
    + destruct (decide (p < length a)%nat).
      * rewrite !list_lookup_insert_eq by lia. done.
      * rewrite !list_insert_ge by lia.
        rewrite !lookup_ge_None_2 by lia. done.
    + rewrite !list_lookup_insert_ne by done.
      apply (take_eq_lookup _ _ _ p); [lia|done].
  - rewrite !lookup_take_ge by lia. done.
Qed.

Lemma bvhRound_same w1 w2 :
  sameWalk w1 w2 → (0 < stackPtr w1)%nat →
  sameRound (bvhRound ox oy oz dx dy dz nodes onLeaf w1)
            (bvhRound ox oy oz dx dy dz nodes onLeaf w2).
Proof.
  destruct w1 as [stk1 ptr1 s1], w2 as [stk2 ptr2 s2].
  intros (Hptr & Hs & Hlen & Htake) Hpos. simpl in *. subst ptr2 s2.
  destruct ptr1 as [|ptr]; [lia|].
  unfold bvhRound. simpl.
  assert (stk1 !! ptr = stk2 !! ptr) as Hcell
    by (apply (take_eq_lookup _ _ _ (Datatypes.S ptr)); [lia|done]).
  rewrite <- Hcell.
  destruct (stk1 !! ptr) as [i|]; simpl; [|done].
  destruct (nodeAt nodes i) as [node|]; simpl; [|done].
  assert (take ptr stk1 = take ptr stk2) as Htake'
    by (apply (take_eq_le _ _ _ (Datatypes.S ptr)); [lia|done]).
  destruct (rayAABBIntersect _ _ _ _ _ _ _ _); simpl; [|done].
  destruct (0 <=? triIdx node)%Z.
  - destruct (onLeaf s1 (triIdx node)) as [[s' [|]]|]; simpl; done.
  - unfold stackStore. split; [done|]. split; [done|]. simpl.
    split; [by rewrite !length_insert|].
    apply take_S_insert; [by rewrite !length_insert|].
    by apply take_S_insert.
Qed.

Definition sameResult (r1 r2 : option (list Z * S)) : Prop :=
  match r1, r2 with
  | Some (stk1, s1), Some (stk2, s2) => s1 = s2 ∧ length stk1 = length stk2
  | None, None => True
  | _, _ => False
  end.

Lemma bvhLoop_same fuel : ∀ w1 w2,
  sameWalk w1 w2 →
  sameResult (bvhLoop ox oy oz dx dy dz nodes onLeaf fuel w1)
             (bvhLoop ox oy oz dx dy dz nodes onLeaf fuel w2).
Proof.
  induction fuel as [|fuel IH]; intros w1 w2 Hsame.
  - destruct Hsame as (Hptr & Hs & Hlen & _). simpl. rewrite <- Hptr.
    destruct (stackPtr w1); simpl; done.
  - pose proof Hsame as (Hptr & Hs & Hlen & _).
    simpl. rewrite <- Hptr. destruct (stackPtr w1) eqn:Hp; [done|].
    pose proof (bvhRound_same w1 w2 Hsame ltac:(lia)) as Hround.
    destruct (bvhRound _ _ _ _ _ _ _ _ w1) as [[w1'|stk1 s1]|],
             (bvhRound _ _ _ _ _ _ _ _ w2) as [[w2'|stk2 s2]|]; simpl in *; try done.
    by apply IH.
Qed.

Lemma bvhTraverse_same fuel stk1 stk2 s :
  length stk1 = length stk2 →
  sameResult (bvhTraverse ox oy oz dx dy dz nodes onLeaf fuel stk1 s)
             (bvhTraverse ox oy oz dx dy dz nodes onLeaf fuel stk2 s).
Proof.
  intros Hlen. unfold bvhTraverse. apply bvhLoop_same.
  split; [done|]. split; [done|]. unfold stackStore. simpl.
  split; [by rewrite !length_insert|].
  by apply (take_S_insert stk1 stk2 0).
Qed.

End StackIndependence.

(** ** Two runs from different globals *)

(** Two states of the globals during two runs of the same sample: the
    seeds agree, and each run has drawn the same numbers [j] since it
    started with [d1], respectively [d2], already drawn. The contents of
    the traversal stacks are unrelated. *)
Definition sameRun (d1 d2 : list number) (g1 g2 : Globals) : Prop :=
  _shadowSeed g1 = _shadowSeed g2
  ∧ length (_bvhStack g1) = length (_bvhStack g2)
  ∧ ∃ j, drawn g1 = d1 ++ j ∧ drawn g2 = d2 ++ j.

(** A computation that cannot tell two such runs apart. *)
Definition agrees {A} (d1 d2 : list number) (m : M A) : Prop :=
  ∀ g1 g2, sameRun d1 d2 g1 g2 →
    match m g1, m g2 with
    | Some (a1, g1'), Some (a2, g2') => a1 = a2 ∧ sameRun d1 d2 g1' g2'
    | None, None => True
    | _, _ => False
    end.

Section Agreement.
Variables d1 d2 : list number.

Lemma agrees_ret {A} (a : A) : agrees d1 d2 (retM a).
Proof. intros g1 g2 H. simpl. done. Qed.

Lemma agrees_throw {A} : agrees d1 d2 (@throwM A).
Proof. intros g1 g2 H. simpl. done. Qed.

Lemma agrees_lift {A} (o : option A) : agrees d1 d2 (liftM o).
Proof. destruct o; [apply agrees_ret|apply agrees_throw]. Qed.

Lemma agrees_bind {A B} (m : M A) (k : A → M B) :
  agrees d1 d2 m → (∀ a, agrees d1 d2 (k a)) → agrees d1 d2 (bindM m k).
Proof.
  intros Hm Hk g1 g2 H. unfold bindM. specialize (Hm g1 g2 H).
  destruct (m g1) as [[a1 g1']|], (m g2) as [[a2 g2']|]; try done.
  destruct Hm as [-> H']. by apply Hk.
Qed.

Lemma agrees_fastRand : agrees d1 d2 fastRand.
Proof.
  intros g1 g2 (Hseed & Hstk & j & Hj1 & Hj2). unfold fastRand. rewrite Hseed.
  split; [done|]. split; [done|]. split; [done|]. simpl.
  eexists (j ++ [_]). rewrite Hj1, Hj2, !app_assoc. done.
Qed.

Lemma agrees_withStack {A} (f : list Z → option (list Z * A)) :
  (∀ stk1 stk2, length stk1 = length stk2 →
     match f stk1, f stk2 with
     | Some (stk1', a1), Some (stk2', a2) => a1 = a2 ∧ length stk1' = length stk2'
     | None, None => True
     | _, _ => False
     end) →
  agrees d1 d2 (withStack f).
Proof.
  intros Hf g1 g2 (Hseed & Hstk & Hj). unfold withStack.
  specialize (Hf _ _ Hstk).
  destruct (f (_bvhStack g1)) as [[stk1 a1]|], (f (_bvhStack g2)) as [[stk2 a2]|];
    try done.
  destruct Hf as [-> Hlen]. done.
Qed.

Lemma agrees_bvhAnyHit fuel ox oy oz dx dy dz nodes worldVerts triangles maxT :
  agrees d1 d2
    (withStack (bvhAnyHit fuel ox oy oz dx dy dz nodes worldVerts triangles maxT)).
Proof.
  apply agrees_withStack. intros stk1 stk2 Hlen. unfold bvhAnyHit.
  case_decide; [done|].
  exact (bvhTraverse_same ox oy oz dx dy dz nodes
           (anyLeaf ox oy oz dx dy dz worldVerts triangles maxT)
           fuel stk1 stk2 false Hlen).
Qed.

Lemma agrees_bvhClosestHit fuel ox oy oz dx dy dz nodes worldVerts triangles maxT :
  agrees d1 d2
    (withStack (bvhClosestHit fuel ox oy oz dx dy dz nodes worldVerts triangles maxT)).
Proof.
  apply agrees_withStack. intros stk1 stk2 Hlen. unfold bvhClosestHit.
  case_decide; [done|].
  pose proof (bvhTraverse_same ox oy oz dx dy dz nodes
                (closestLeaf ox oy oz dx dy dz worldVerts triangles)
                fuel stk1 stk2 (maxT, (-1)%Z, None) Hlen) as H'.
  destruct (bvhTraverse _ _ _ _ _ _ _ _ _ stk1 _) as [[s1 [[bt1 bi1] bh1]]|],
           (bvhTraverse _ _ _ _ _ _ _ _ _ stk2 _) as [[s2 [[bt2 bi2] bh2]]|];
    simpl in *; [|done..].
  destruct H' as [[= -> -> ->] H']. done.
Qed.

Variable Math_pow : number → number → number.
Variable sky : option Sky.
Variable fuel : nat.

(** Peel binds, returns and the branches on values both runs share. *)
Ltac agree_step :=
  first
    [ apply agrees_ret
    | apply agrees_throw
    | apply agrees_lift
    | apply agrees_fastRand
    | apply agrees_bvhAnyHit
    | apply agrees_bvhClosestHit
    | apply agrees_bind; [|intros ?]
    | match goal with
      | |- agrees _ _ (if ?b then _ else _) => destruct b
      | |- agrees _ _ (match ?x with _ => _ end) => destruct x
      | |- agrees _ _ (let _ := _ in _) => cbv zeta
      end ].

Lemma agrees_sceneAnyHitFrom ox oy oz dx dy dz objs : ∀ oi maxDist skipObj,
  agrees d1 d2 (sceneAnyHitFrom fuel ox oy oz dx dy dz objs oi maxDist skipObj).
Proof.
  induction objs as [|obj rest IH]; intros oi maxDist skipObj; simpl.
  - apply agrees_ret.
  - case_decide; [apply IH|].
    apply agrees_bind; [apply agrees_bvhAnyHit|].
    intros [|]; [apply agrees_ret|apply IH].
Qed.

Lemma agrees_sceneAnyHit ox oy oz dx dy dz scene maxDist skipObj :
  agrees d1 d2 (sceneAnyHit fuel ox oy oz dx dy dz scene maxDist skipObj).
Proof.
  unfold sceneAnyHit.
  apply agrees_bind; [apply agrees_sceneAnyHitFrom|].
  intros [|]; repeat agree_step.
Qed.

Lemma agrees_shadowLoop ox oy oz scene origObjIdx s : ∀ blocked,
  agrees d1 d2 (shadowLoop fuel ox oy oz scene origObjIdx s blocked).
Proof.
  induction s as [|s IH]; intros blocked; simpl; [apply agrees_ret|].
  do 3 (apply agrees_bind; [apply agrees_fastRand|intros ?]).
  apply agrees_bind; [apply agrees_sceneAnyHit|]. intros b. apply IH.
Qed.

Lemma agrees_shadowTest ox oy oz scene origObjIdx :
  agrees d1 d2 (shadowTest fuel ox oy oz scene origObjIdx).
Proof.
  unfold shadowTest.
  apply agrees_bind; [apply agrees_shadowLoop|]. intros ?. apply agrees_ret.
Qed.

Lemma agrees_sampleHemisphere nx ny nz : agrees d1 d2 (sampleHemisphere nx ny nz).
Proof.
  unfold sampleHemisphere.
  do 3 (apply agrees_bind; [apply agrees_fastRand|intros ?]).
  cbv zeta. repeat agree_step.
Qed.

Lemma agrees_aoLoop ox oy oz nx ny nz scene origObjIdx s : ∀ occluded,
  agrees d1 d2 (aoLoop fuel ox oy oz nx ny nz scene origObjIdx s occluded).
Proof.
  induction s as [|s IH]; intros occluded; simpl; [apply agrees_ret|].
  apply agrees_bind; [apply agrees_sampleHemisphere|].
  intros [d|]; [|apply IH].
  apply agrees_bind; [apply agrees_sceneAnyHit|]. intros b. apply IH.
Qed.

Lemma agrees_aoTest ox oy oz nx ny nz scene origObjIdx :
  agrees d1 d2 (aoTest fuel ox oy oz nx ny nz scene origObjIdx).
Proof.
  unfold aoTest.
  apply agrees_bind; [apply agrees_aoLoop|]. intros ?. apply agrees_ret.
Qed.

Lemma agrees_sceneIntersectFrom ox oy oz dx dy dz objs : ∀ oi skipObj closestT result,
  agrees d1 d2
    (sceneIntersectFrom fuel ox oy oz dx dy dz objs oi skipObj closestT result).
Proof.
  induction objs as [|obj rest IH]; intros oi skipObj closestT result; simpl.
  - apply agrees_ret.
  - case_decide; [apply IH|].
    apply agrees_bind; [apply agrees_bvhClosestHit|].
    intros [oh|]; [|apply IH].
    do 3 (apply agrees_bind; [apply agrees_lift|intros ?]).
    apply IH.
Qed.

Lemma agrees_sceneIntersect ox oy oz dx dy dz scene skipObj :
  agrees d1 d2 (sceneIntersect fuel ox oy oz dx dy dz scene skipObj).
Proof.
  unfold sceneIntersect.
  apply agrees_bind; [apply agrees_sceneIntersectFrom|].
  intros [closestT result]. repeat agree_step.
Qed.

Lemma agrees_traceRay depth : ∀ ox oy oz dx dy dz scene skipObj,
  agrees d1 d2 (traceRay Math_pow sky fuel ox oy oz dx dy dz scene depth skipObj).
Proof.
  induction depth as [|depth IH]; intros ox oy oz dx dy dz scene skipObj; simpl.
  - apply agrees_bind; [apply agrees_sceneIntersect|].
    intros [h|]; [|apply agrees_ret].
    apply agrees_bind; [apply agrees_shadowTest|intros shadow].
    apply agrees_bind; [apply agrees_aoTest|intros ao].
    apply agrees_bind; [apply agrees_lift|intros color].
    apply agrees_bind; [apply agrees_ret|intros [[r g] b]]. apply agrees_ret.
  - apply agrees_bind; [apply agrees_sceneIntersect|].
    intros [h|]; [|apply agrees_ret].
    apply agrees_bind; [apply agrees_shadowTest|intros shadow].
    apply agrees_bind; [apply agrees_aoTest|intros ao].
    apply agrees_bind; [apply agrees_lift|intros color].
    apply agrees_bind; [|intros [[r g] b]; apply agrees_ret].
    destruct (gtb (sh_reflectivity h) 0); [|apply agrees_ret].
    destruct (_ <? 0); [|apply agrees_ret].
    apply agrees_bind; [apply IH|intros ref; apply agrees_ret].
Qed.

End Agreement.

(** [shadeSample] overwrites the seed before anything reads it. *)
Lemma shadeSample_reseeds Math_pow sky fuel scene aa px py ax ay :
  ∃ seed ox oy oz dx dy dz,
    ∀ g, shadeSample Math_pow sky fuel scene aa px py ax ay g
         = traceRay Math_pow sky fuel ox oy oz dx dy dz scene RT_MAX_BOUNCES (-1)%Z
             (mkGlobals seed (_bvhStack g) (drawn g)).
Proof. do 7 eexists. intros g. reflexivity. Qed.

(** C4: for a fixed scene, environment and pixel and sub-sample
    coordinates, two runs of the per-sample computation, started from any
    two states of the globals (any old seed, any old stack contents, any
    history of draws), either both throw or both return, with the same
    colour, the same sequence of numbers drawn from [fastRand] and the same
    final seed. *)
Theorem shadeSample_deterministic Math_pow sky fuel scene aa px py ax ay g1 g2 :
  length (_bvhStack g1) = BVH_STACK_SIZE →
  length (_bvhStack g2) = BVH_STACK_SIZE →
  match shadeSample Math_pow sky fuel scene aa px py ax ay g1,
        shadeSample Math_pow sky fuel scene aa px py ax ay g2 with
  | Some (c1, g1'), Some (c2, g2') =>
      c1 = c2
      ∧ _shadowSeed g1' = _shadowSeed g2'
      ∧ ∃ jitter, drawn g1' = drawn g1 ++ jitter ∧ drawn g2' = drawn g2 ++ jitter
  | None, None => True
  | _, _ => False
  end.
Proof.
  intros Hstk1 Hstk2.
  assert (length (_bvhStack g1) = length (_bvhStack g2)) as Hstk by congruence.
  destruct (shadeSample_reseeds Math_pow sky fuel scene aa px py ax ay)
    as (seed & ox & oy & oz & dx & dy & dz & Hrun).
  rewrite !Hrun.
  pose proof (agrees_traceRay (drawn g1) (drawn g2) Math_pow sky fuel
                RT_MAX_BOUNCES ox oy oz dx dy dz scene (-1)%Z
                (mkGlobals seed (_bvhStack g1) (drawn g1))
                (mkGlobals seed (_bvhStack g2) (drawn g2))) as H.
  lapply H.
  - clear H. intros H.
    destruct (traceRay _ _ _ _ _ _ _ _ _ _ _ _ (mkGlobals _ (_bvhStack g1) _))
      as [[c1 g1']|],
      (traceRay _ _ _ _ _ _ _ _ _ _ _ _ (mkGlobals _ (_bvhStack g2) _))
      as [[c2 g2']|]; try done.
    destruct H as (-> & Hseed & _ & Hj). done.
  - split; [done|]. split; [done|]. exists []. by rewrite !app_nil_r.
Qed.

(** A run that returns: one triangle facing the camera, the primary ray
    through the centre of the screen, no sky image, and integer powers for
    [Math.pow]. *)
Definition exampleScene : list SceneObj :=
  let verts := [Vec3 (-100) (-100) 0; Vec3 100 (-100) 0; Vec3 0 100 0] in
  let tris := [mkTri 0 1 2] in
  [mkSceneObj verts tris [Vec3 200 80 80] None (Some [Vec3 0 0 (-1)])
     (default [] (buildBVH verts tris)) 0.2].

Definition examplePow (x y : number) : number :=
  Nat.iter (Z.to_nat (trunc_Z y)) (λ acc, acc * x) 1.

Definition exampleGlobals (seed : number) (cell : Z) : Globals :=
  mkGlobals seed (replicate BVH_STACK_SIZE cell) [].

Lemma shadeSample_example_returns :
  ∃ c g, shadeSample examplePow None 4 exampleScene 1 400 210 0 0
           (exampleGlobals 0 0) = Some (c, g)
         ∧ length (drawn g) = 72%nat.
Proof. do 2 eexists. split; vm_compute; reflexivity. Qed.

Lemma shadeSample_deterministic_witness :
  match shadeSample examplePow None 4 exampleScene 1 400 210 0 0 (exampleGlobals 0 0),
        shadeSample examplePow None 4 exampleScene 1 400 210 0 0 (exampleGlobals 12345 7)
  with
  | Some (c1, g1'), Some (c2, g2') =>
      c1 = c2
      ∧ _shadowSeed g1' = _shadowSeed g2'
      ∧ ∃ jitter, drawn g1' = [] ++ jitter ∧ drawn g2' = [] ++ jitter
  | None, None => True
  | _, _ => False
  end.
Proof.
  apply (shadeSample_deterministic examplePow None 4 exampleScene 1 400 210 0 0
           (exampleGlobals 0 0) (exampleGlobals 12345 7)); reflexivity.
Defined.

(** * Further properties of the BVH *)

(** Every cell of the flat layout is the root cell of a subtree, laid out
    from that cell on. *)
Lemma flat_node worldVerts triangles t : ∀ base k nd,
  boxesOk worldVerts triangles t →
  flat base t !! k = Some nd →
  ∃ s, nd = rootNode (base + k) s
       ∧ (k + size s ≤ size t)%nat
       ∧ boxesOk worldVerts triangles s
       ∧ ∀ i, i ∈ leaves s → i ∈ leaves t.
Proof.
  induction t as [b i|b l IHl r IHr]; intros base k nd Hok Hk.
  - destruct k; [|done]. injection Hk as <-.
    exists (TLeaf b i). rewrite Nat.add_0_r. simpl. split; [done|]. split; [lia|]. done.
  - destruct k as [|k].
    + injection Hk as <-. exists (TNode b l r). rewrite Nat.add_0_r.
      split; [done|]. split; [lia|]. done.
    + destruct Hok as (_ & Hokl & Hokr).
      simpl in Hk. apply lookup_app_Some in Hk as [Hk|[Hge Hk]].
      * destruct (IHl _ _ _ Hokl Hk) as (s & -> & Hsize & Hoks & Hin).
        exists s. split; [f_equal; lia|]. split; [simpl; lia|]. split; [done|].
        intros i Hi. simpl. apply elem_of_app. left. by apply Hin.
      * rewrite length_flat in Hk, Hge.
        destruct (IHr _ _ _ Hokr Hk) as (s & -> & Hsize & Hoks & Hin).
        exists s. split; [f_equal; lia|]. split; [simpl; lia|]. split; [done|].
        intros i Hi. simpl. apply elem_of_app. right. by apply Hin.
Qed.

(** [buildBVH] builds [2 n - 1] nodes for [n] triangles, and none for none. *)
Theorem buildBVH_node_count worldVerts triangles nodes :
  (Z.of_nat (length triangles) < 4294967296)%Z →
  buildBVH worldVerts triangles = Some nodes →
  length nodes = (2 * length triangles - 1)%nat.
Proof.
  intros Hjs Hb.
  destruct (decide (triangles = [])) as [->|Hne]; [by injection Hb as <-|].
  destruct (buildBVH_tree _ _ _ Hne Hjs Hb) as (t & -> & Hleaves & _).
  rewrite length_fmap, length_flat, size_leaves, Hleaves, length_seq. done.
Qed.

Lemma buildBVH_node_count_witness :
  ∃ nodes, buildBVH twoTriVerts twoTris = Some nodes ∧ length nodes = 3%nat.
Proof.
  destruct (buildBVH twoTriVerts twoTris) as [nodes|] eqn:Hb; [|by vm_compute in Hb].
  exists nodes. split; [done|].
  apply (buildBVH_node_count twoTriVerts twoTris nodes); [simpl; lia|exact Hb].
Defined.

(** Every cell of the array [buildBVH] returns holds a node (no [null] is
    left), and the node is either a leaf, with a triangle index of the
    input and [left = right = -1], or an inner node, with [triIdx = -1], its
    left child in the next cell and its right child further on in the
    array. *)
Theorem buildBVH_node_shape worldVerts triangles nodes i cell :
  (Z.of_nat (length triangles) < 4294967296)%Z →
  buildBVH worldVerts triangles = Some nodes →
  nodes !! i = Some cell →
  ∃ nd, cell = Some nd
    ∧ ((0 ≤ triIdx nd < Z.of_nat (length triangles))%Z
         ∧ left nd = (-1)%Z ∧ right nd = (-1)%Z
       ∨ triIdx nd = (-1)%Z ∧ left nd = Z.of_nat (i + 1)
         ∧ (Z.of_nat (i + 1) < right nd < Z.of_nat (length nodes))%Z).
Proof.
  intros Hjs Hb Hi.
  destruct (decide (triangles = [])) as [->|Hne]; [by injection Hb as <-|].
  destruct (buildBVH_tree _ _ _ Hne Hjs Hb) as (t & -> & Hleaves & Hok & _).
  rewrite list_lookup_fmap in Hi.
  destruct (flat 0 t !! i) as [nd|] eqn:Hnd; [|done]. injection Hi as <-.
  exists nd. split; [done|].
  destruct (flat_node _ _ _ _ _ _ Hok Hnd) as (s & -> & Hsize & _ & Hin).
  rewrite length_fmap, length_flat.
  destruct s as [b j|b l r]; simpl.
  - left. split; [|done].
    assert (j ∈ seq 0 (length triangles)) as Hj.
    { rewrite <- Hleaves. apply Hin. simpl. by apply list_elem_of_singleton. }
    apply elem_of_seq in Hj. lia.
  - right. simpl in Hsize. pose proof (size_pos l). pose proof (size_pos r).
    split; [done|]. split; [f_equal; lia|]. lia.
Qed.

Lemma buildBVH_node_shape_witness :
  ∃ nodes nd, buildBVH twoTriVerts twoTris = Some nodes
    ∧ nodes !! 0%nat = Some (Some nd)
    ∧ ((0 ≤ triIdx nd < 2)%Z ∧ left nd = (-1)%Z ∧ right nd = (-1)%Z
       ∨ triIdx nd = (-1)%Z ∧ left nd = 1%Z ∧ (1 < right nd < Z.of_nat (length nodes))%Z).
Proof.
  destruct (buildBVH twoTriVerts twoTris) as [nodes|] eqn:Hb; [|by vm_compute in Hb].
  destruct (nodes !! 0%nat) as [cell|] eqn:Hcell;
    [|by vm_compute in Hb; injection Hb as <-].
  destruct (buildBVH_node_shape twoTriVerts twoTris nodes 0 cell
              ltac:(simpl; lia) Hb Hcell) as (nd & -> & Hshape).
  exists nodes, nd. done.
Defined.

(** The box of the root is the box of all the triangles' vertices, and the
    box of every leaf is the box of the three vertices of its triangle: on
    each axis [bmin] is the least and [bmax] the greatest coordinate (NaN
    coordinates apart, which the comparisons pass over). *)
Theorem buildBVH_boxes_enclose worldVerts triangles nodes :
  triangles ≠ [] →
  (Z.of_nat (length triangles) < 4294967296)%Z →
  buildBVH worldVerts triangles = Some nodes →
  (∃ root, nodes !! 0%nat = Some (Some root)
           ∧ boxFits (nodeBox root)
               (leafPts worldVerts triangles (seq 0 (length triangles))))
  ∧ ∀ i nd, nodes !! i = Some (Some nd) → (0 ≤ triIdx nd)%Z →
      boxFits (nodeBox nd) (triPts worldVerts triangles (Z.to_nat (triIdx nd))).
Proof.
  intros Hne Hjs Hb.
  destruct (buildBVH_tree _ _ _ Hne Hjs Hb) as (t & -> & Hleaves & Hok & _).
  split.
  - exists (rootNode 0 t). split; [by rewrite list_lookup_fmap, flat_head|].
    rewrite nodeBox_rootNode.
    eapply boxFits_equiv; [by apply boxesOk_fits|].
    intros v. unfold leafPts. rewrite !list_elem_of_bind.
    split; intros (j & Hv & Hj); exists j; (split; [done|]).
    + by rewrite <- Hleaves.
    + by rewrite Hleaves.
  - intros i nd Hi Hleaf. rewrite list_lookup_fmap in Hi.
    destruct (flat 0 t !! i) as [nd'|] eqn:Hnd; [|done]. injection Hi as ->.
    destruct (flat_node _ _ _ _ _ _ Hok Hnd) as (s & -> & _ & Hoks & _).
    destruct s as [b j|b l r]; [|simpl in Hleaf; lia].
    simpl triIdx. rewrite Nat2Z.id. rewrite nodeBox_rootNode.
    apply boxesOk_fits in Hoks. simpl in Hoks.
    unfold leafPts in Hoks. simpl in Hoks. by rewrite app_nil_r in Hoks.
Qed.

Lemma buildBVH_boxes_enclose_witness :
  ∃ nodes root, buildBVH twoTriVerts twoTris = Some nodes
    ∧ nodes !! 0%nat = Some (Some root)
    ∧ boxFits (nodeBox root) (leafPts twoTriVerts twoTris [0; 1]%nat).
Proof.
  destruct (buildBVH twoTriVerts twoTris) as [nodes|] eqn:Hb; [|by vm_compute in Hb].
  destruct (buildBVH_boxes_enclose twoTriVerts twoTris nodes
              ltac:(done) ltac:(simpl; lia) Hb) as [(root & Hroot & Hfit) _].
  exists nodes, root. done.
Defined.

Lemma triVerts_is_Some worldVerts triangles i :
  is_Some (triVerts worldVerts triangles i) →
  ∃ tri, triangles !! i = Some tri ∧ triInRange (length worldVerts) tri.
Proof.
  intros [[[v0 v1] v2] H]. unfold triVerts in H.
  apply bind_Some in H as (tri & Htri & H).
  apply bind_Some in H as (w0 & H0 & H).
  apply bind_Some in H as (w1 & H1 & H).
  apply bind_Some in H as (w2 & H2 & _).
  exists tri. split; [done|].
  apply lookup_lt_Some in H0, H1, H2. done.
Qed.

(** [buildBVH] throws exactly when some triangle names a vertex that is
    not in [worldVerts] (for fewer than 2^31 triangles; from there on the
    recursion overflows the call stack). *)
Theorem buildBVH_returns_iff worldVerts triangles :
  (Z.of_nat (length triangles) < 2147483648)%Z →
  is_Some (buildBVH worldVerts triangles)
  ↔ Forall (triInRange (length worldVerts)) triangles.
Proof.
  intros Hsmall. split; [|by apply buildBVH_returns].
  intros [nodes Hb]. unfold buildBVH in Hb.
  apply bind_Some in Hb as (infos & Hinfos & _).
  apply mkTriInfos_spec in Hinfos as [Hidx Hvalid].
  apply Forall_lookup. intros i tri Htri.
  assert (i ∈ idx <$> infos) as Hi.
  { rewrite Hidx. apply elem_of_seq. apply lookup_lt_Some in Htri. lia. }
  apply list_elem_of_fmap in Hi as (info & -> & Hinfo).
  pose proof (proj1 (Forall_forall _ _) Hvalid _ Hinfo) as Hv.
  apply triVerts_is_Some in Hv as (tri' & Htri' & Hrange). congruence.
Qed.

Lemma buildBVH_returns_iff_witness :
  is_Some (buildBVH twoTriVerts twoTris)
  ∧ buildBVH twoTriVerts [mkTri 0 1 6] = None.
Proof.
  split.
  - apply (buildBVH_returns_iff twoTriVerts twoTris); [simpl; lia|].
    repeat constructor; simpl; lia.
  - reflexivity.
Defined.

(** * The BVH queries report real intersections *)

(** What [onLeaf] keeps on the leaf indices the walk can pass to it, the
    walk keeps. *)
Lemma bvhLoop_keeps {S : Type} ox oy oz dx dy dz nodes
    (onLeaf : S → Z → option (S * bool)) (P : S → Prop) fuel :
  (∀ s i s' b, (0 ≤ i)%Z → P s → onLeaf s i = Some (s', b) → P s') →
  ∀ w stk' s',
    P (captured w) →
    bvhLoop ox oy oz dx dy dz nodes onLeaf fuel w = Some (stk', s') → P s'.
Proof.
  intros onLeaf_keeps.
  induction fuel as [|fuel IH]; intros w stk' s' HP H.
  - simpl in H. destruct (stackPtr w); [|done]. by injection H as _ <-.
  - simpl in H. destruct (stackPtr w) as [|ptr]; [by injection H as _ <-|].
    apply bind_Some in H as (r & Hr & H).
    unfold bvhRound in Hr.
    apply bind_Some in Hr as (i & _ & Hr).
    apply bind_Some in Hr as (node & _ & Hr).
    destruct (negb _).
    { injection Hr as <-. eapply IH; [|exact H]. exact HP. }
    destruct (Z.leb_spec 0 (triIdx node)) as [Hleaf|_].
    + apply bind_Some in Hr as ([s stop] & Hs & Hr).
      pose proof (onLeaf_keeps _ _ _ _ Hleaf HP Hs) as HP'.
      destruct stop; injection Hr as <-.
      * by injection H as _ <-.
      * eapply IH; [|exact H]. exact HP'.
    + injection Hr as <-. eapply IH; [|exact H]. exact HP.
Qed.

Lemma bvhTraverse_keeps {S : Type} ox oy oz dx dy dz nodes
    (onLeaf : S → Z → option (S * bool)) (P : S → Prop) fuel stk s stk' s' :
  (∀ s i s' b, (0 ≤ i)%Z → P s → onLeaf s i = Some (s', b) → P s') →
  P s →
  bvhTraverse ox oy oz dx dy dz nodes onLeaf fuel stk s = Some (stk', s') → P s'.
Proof. intros Hkeeps HP. unfold bvhTraverse. by apply bvhLoop_keeps. Qed.

Lemma ltb_trans a b c : (a <? b) = true → (b <? c) = true → (a <? c) = true.
Proof. intros Hab Hbc. eapply ltb_leb_trans; [exact Hab|by apply ltb_leb]. Qed.

(** A hit that [bvhClosestHit] returns is the intersection of the ray with
    the triangle it names: the triangle exists, [hit] is what
    [rayTriangleIntersect] returns for it, [t] is that hit's distance, and
    [t < maxT]. This holds over any node array. *)
Theorem bvhClosestHit_sound fuel ox oy oz dx dy dz nodes worldVerts triangles
    maxT stk stk' h :
  bvhClosestHit fuel ox oy oz dx dy dz nodes worldVerts triangles maxT stk
    = Some (stk', Some h) →
  ∃ i v0 v1 v2 hit,
    oh_triIdx h = Z.of_nat i ∧ (i < length triangles)%nat
    ∧ triVerts worldVerts triangles i = Some (v0, v1, v2)
    ∧ rayTriangleIntersect ox oy oz dx dy dz v0 v1 v2 = Some hit
    ∧ oh_hit h = Some hit ∧ oh_t h = hit_t hit
    ∧ (oh_t h <? maxT) = true.
Proof.
  unfold bvhClosestHit. case_decide; [done|]. intros Hq.
  apply bind_Some in Hq as ([stk1 [[bestT bestTriIdx] bestHit]] & Hwalk & Hq).
  injection Hq as -> Hq.
  destruct (Z.leb_spec 0 bestTriIdx) as [Hidx|]; [|done]. injection Hq as <-.
  pose (P := λ best : Best,
    best = (maxT, (-1)%Z, None)
    ∨ (0 ≤ best.1.2)%Z
      ∧ ∃ v0 v1 v2 hit,
          triVerts worldVerts triangles (Z.to_nat best.1.2) = Some (v0, v1, v2)
          ∧ rayTriangleIntersect ox oy oz dx dy dz v0 v1 v2 = Some hit
          ∧ best.2 = Some hit ∧ best.1.1 = hit_t hit ∧ (best.1.1 <? maxT) = true).
  assert (P (bestT, bestTriIdx, bestHit)) as HP.
  { apply (bvhTraverse_keeps ox oy oz dx dy dz nodes
             (closestLeaf ox oy oz dx dy dz worldVerts triangles) P)
      with (fuel := fuel) (stk := stk) (s := (maxT, (-1)%Z, None)) (stk' := stk');
      [|by left|done].
    intros best i best' b Hi Hbest Hleaf. unfold closestLeaf in Hleaf.
    apply bind_Some in Hleaf as ([[v0 v1] v2] & Hv & Hleaf).
    destruct (rayTriangleIntersect ox oy oz dx dy dz v0 v1 v2) as [hit|] eqn:Hhit;
      [|by injection Hleaf as <- _].
    destruct (hit_t hit <? best.1.1) eqn:Hlt; injection Hleaf as <- _; [|done].
    right. split; [done|]. exists v0, v1, v2, hit. simpl.
    split; [done|]. split; [done|]. split; [done|]. split; [done|].
    destruct Hbest as [Hstart|(_ & w0 & w1 & w2 & hit' & _ & _ & _ & _ & Hbelow)].
    - subst best. exact Hlt.
    - by eapply ltb_trans. }
  destruct HP as [HP|(_ & v0 & v1 & v2 & hit & Hv & Hhit & Hbh & Hbt & Hlt)].
  { injection HP as _ -> _. lia. }
  simpl in *. exists (Z.to_nat bestTriIdx), v0, v1, v2, hit.
  split; [lia|]. split; [|done].
  destruct (triVerts_is_Some worldVerts triangles (Z.to_nat bestTriIdx))
    as (tri & Htri & _); [by rewrite Hv|].
  by apply lookup_lt_Some in Htri.
Qed.

Definition oneTriVerts : list vec3 := [Vec3 (-1) (-1) 1; Vec3 3 (-1) 1; Vec3 (-1) 3 1].
Definition oneTri : list Tri := [mkTri 0 1 2].

Lemma bvhClosestHit_sound_witness :
  ∃ i v0 v1 v2 hit,
    0%Z = Z.of_nat i ∧ (i < 1)%nat
    ∧ triVerts oneTriVerts oneTri i = Some (v0, v1, v2)
    ∧ rayTriangleIntersect 0 0 0 0 0 1 v0 v1 v2 = Some hit
    ∧ Some (mkHit 1 0.25 0.25) = Some hit ∧ 1 = hit_t hit
    ∧ (1 <? Infinity) = true.
Proof.
  apply (bvhClosestHit_sound 1 0 0 0 0 0 1
           (default [] (buildBVH oneTriVerts oneTri)) oneTriVerts oneTri Infinity
           (replicate 64 0%Z) (replicate 64 0%Z) (mkObjHit 1 0 (Some (mkHit 1 0.25 0.25)))).
  vm_compute. reflexivity.
Defined.

(** When [bvhAnyHit] returns true, the ray does intersect some triangle of
    the list at a distance [t < maxT]. This holds over any node array. *)
Theorem bvhAnyHit_sound fuel ox oy oz dx dy dz nodes worldVerts triangles
    maxT stk stk' :
  bvhAnyHit fuel ox oy oz dx dy dz nodes worldVerts triangles maxT stk
    = Some (stk', true) →
  ∃ i v0 v1 v2 hit,
    (i < length triangles)%nat
    ∧ triVerts worldVerts triangles i = Some (v0, v1, v2)
    ∧ rayTriangleIntersect ox oy oz dx dy dz v0 v1 v2 = Some hit
    ∧ (hit_t hit <? maxT) = true.
Proof.
  unfold bvhAnyHit. case_decide; [done|]. intros Hq.
  pose (P := λ found : bool,
    found = true →
    ∃ i v0 v1 v2 hit,
      (i < length triangles)%nat
      ∧ triVerts worldVerts triangles i = Some (v0, v1, v2)
      ∧ rayTriangleIntersect ox oy oz dx dy dz v0 v1 v2 = Some hit
      ∧ (hit_t hit <? maxT) = true).
  assert (P true) as HP; [|by apply HP].
  apply (bvhTraverse_keeps ox oy oz dx dy dz nodes
           (anyLeaf ox oy oz dx dy dz worldVerts triangles maxT) P)
    with (fuel := fuel) (stk := stk) (s := false) (stk' := stk'); [|done|done].
  intros found i found' b Hi Hfound Hleaf. unfold anyLeaf in Hleaf.
  apply bind_Some in Hleaf as ([[v0 v1] v2] & Hv & Hleaf).
  destruct (rayTriangleIntersect ox oy oz dx dy dz v0 v1 v2) as [hit|] eqn:Hhit;
    [|by injection Hleaf as <- _].
  destruct (hit_t hit <? maxT) eqn:Hlt; injection Hleaf as <- _; [|done].
  intros _. exists (Z.to_nat i), v0, v1, v2, hit.
  split; [|done].
  destruct (triVerts_is_Some worldVerts triangles (Z.to_nat i))
    as (tri & Htri & _); [by rewrite Hv|].
  by apply lookup_lt_Some in Htri.
Qed.

Lemma bvhAnyHit_sound_witness :
  ∃ i v0 v1 v2 hit,
    (i < 1)%nat
    ∧ triVerts oneTriVerts oneTri i = Some (v0, v1, v2)
    ∧ rayTriangleIntersect 0 0 0 0 0 1 v0 v1 v2 = Some hit
    ∧ (hit_t hit <? 2) = true.
Proof.
  apply (bvhAnyHit_sound 1 0 0 0 0 0 1
           (default [] (buildBVH oneTriVerts oneTri)) oneTriVerts oneTri 2
           (replicate 64 0%Z) (replicate 64 0%Z)).
  vm_compute. reflexivity.
Defined.

(** * The environment: any-hit against intersect *)

(** [envAnyHit] is true exactly when [envIntersect] returns a hit whose
    distance is not above [maxDist] (the bound is inclusive here) and whose
    hit point is a number on both axes: [envIntersect] rejects by
    [hx < minX || hx > maxX] and lets a NaN coordinate through, [envAnyHit]
    accepts by [hx >= minX && hx <= maxX] and does not. *)
Theorem envAnyHit_iff_envIntersect ox oy oz dx dy dz maxDist :
  envAnyHit ox oy oz dx dy dz maxDist = true
  ↔ ∃ h, envIntersect ox oy oz dx dy dz = Some h
         ∧ gtb (eh_t h) maxDist = false
         ∧ is_num (ox + dx * eh_t h) ∧ is_num (oz + dz * eh_t h).
Proof.
  unfold envAnyHit, envIntersect, envIntersectOn. cbv zeta.
  destruct (Math_abs dy <? RT_EPSILON); [split; [done|by intros (h & ? & _)]|].
  set (t := (fl_y environment_floor - oy) / dy).
  destruct (t <? RT_EPSILON); [split; [done|by intros (h & ? & _)]|].
  set (hx := ox + dx * t). set (hz := oz + dz * t).
  assert (∀ m x, is_num m →
            (geb x m = true ↔ (x <? m) = false ∧ is_num x)
            ∧ ((x <=? m) = true ↔ gtb x m = false ∧ is_num x)) as Hcmp.
  { intros m x Hm. unfold geb, gtb. split; split.
    - intros H. split; [by apply leb_not_ltb|]. by destruct (leb_is_num _ _ H).
    - intros [H Hx]. by apply ltb_false_leb.
    - intros H. split; [by apply leb_not_ltb|]. by destruct (leb_is_num _ _ H).
    - intros [H Hx]. by apply ltb_false_leb. }
  destruct (Hcmp (fl_minX environment_floor) hx ltac:(reflexivity)) as [HminX _].
  destruct (Hcmp (fl_maxX environment_floor) hx ltac:(reflexivity)) as [_ HmaxX].
  destruct (Hcmp (fl_minZ environment_floor) hz ltac:(reflexivity)) as [HminZ _].
  destruct (Hcmp (fl_maxZ environment_floor) hz ltac:(reflexivity)) as [_ HmaxZ].
  cbn [orb].
  destruct (gtb t maxDist) eqn:Hfar.
  { split; [done|]. intros (h & Hh & Hnear & _).
    destruct (_ || _); [done|]. injection Hh as <-. simpl in Hnear. congruence. }
  rewrite !andb_true_iff, HminX, HmaxX, HminZ, HmaxZ.
  split.
  - intros ((((Hx1 & Hnx) & (Hx2 & _)) & (Hz1 & Hnz)) & (Hz2 & _)).
    rewrite Hx1, Hx2, Hz1, Hz2. cbn [orb]. eexists. split; [done|]. done.
  - intros (h & Hh & _ & Hnx & Hnz).
    destruct (hx <? _), (gtb hx _), (hz <? _), (gtb hz _); try done.
    injection Hh as <-. done.
Qed.

(** With the ray origin infinitely high the hit point has a NaN
    coordinate: [envIntersect] reports the floor, [envAnyHit] does not. *)
Lemma envAnyHit_nan_point :
  is_Some (envIntersect 0 Infinity 0 0 (-1) 0)
  ∧ envAnyHit 0 Infinity 0 0 (-1) 0 Infinity = false.
Proof. split; [vm_compute; eexists; reflexivity|reflexivity]. Qed.

(** * The scene queries and the skipped object *)

Lemma sceneAnyHitFrom_ignores fuel ox oy oz dx dy dz maxDist obj' objs :
  ∀ oi k g,
    sceneAnyHitFrom fuel ox oy oz dx dy dz (<[k := obj']> objs) oi maxDist
      (oi + Z.of_nat k)%Z g
    = sceneAnyHitFrom fuel ox oy oz dx dy dz objs oi maxDist (oi + Z.of_nat k)%Z g.
Proof.
  induction objs as [|obj rest IH]; intros oi k g; [done|].
  destruct k as [|k].
  - simpl. case_decide; [done|lia].
  - replace (oi + Z.of_nat (S k))%Z with (oi + 1 + Z.of_nat k)%Z by lia.
    simpl. case_decide; [lia|]. unfold bindM.
    destruct (withStack _ g) as [[[|] g1]|]; [done| |done].
    apply IH.
Qed.

Lemma sceneIntersectFrom_ignores fuel ox oy oz dx dy dz obj' objs :
  ∀ oi k closestT result g,
    sceneIntersectFrom fuel ox oy oz dx dy dz (<[k := obj']> objs) oi
      (oi + Z.of_nat k)%Z closestT result g
    = sceneIntersectFrom fuel ox oy oz dx dy dz objs oi (oi + Z.of_nat k)%Z
        closestT result g.
Proof.
  induction objs as [|obj rest IH]; intros oi k closestT result g; [done|].
  destruct k as [|k].
  - simpl. case_decide; [done|lia].
  - replace (oi + Z.of_nat (S k))%Z with (oi + 1 + Z.of_nat k)%Z by lia.
    simpl. case_decide; [lia|]. unfold bindM.
    destruct (intersectObject _ _ _ _ _ _ _ _ _ g) as [[[oh|] g1]|]; [|apply IH|done].
    destruct (liftM (triangles obj !! _) g1) as [[tri g2]|]; [|done].
    destruct (liftM (oh_hit oh) g2) as [[hit g3]|]; [|done].
    destruct (liftM (interpolateNormal _ _ _ _ _) g3) as [[n g4]|]; [|done].
    apply IH.
Qed.

(** The object a query is told to skip is never looked at: putting any
    other object in its place changes neither [sceneAnyHit] nor
    [sceneIntersect]. *)
Theorem scene_queries_ignore_skipped fuel ox oy oz dx dy dz scene i obj' maxDist g :
  sceneAnyHit fuel ox oy oz dx dy dz (<[i := obj']> scene) maxDist (Z.of_nat i) g
  = sceneAnyHit fuel ox oy oz dx dy dz scene maxDist (Z.of_nat i) g
  ∧ sceneIntersect fuel ox oy oz dx dy dz (<[i := obj']> scene) (Z.of_nat i) g
    = sceneIntersect fuel ox oy oz dx dy dz scene (Z.of_nat i) g.
Proof.
  split.
  - unfold sceneAnyHit, bindM.
    pose proof (sceneAnyHitFrom_ignores fuel ox oy oz dx dy dz maxDist obj' scene 0 i g)
      as H.
    rewrite Z.add_0_l in H. by rewrite H.
  - unfold sceneIntersect, bindM.
    pose proof (sceneIntersectFrom_ignores fuel ox oy oz dx dy dz obj' scene 0 i
                  Infinity None g) as H.
    rewrite Z.add_0_l in H. by rewrite H.
Qed.




(** * How many numbers a shaded hit draws *)

(** When [m] returns, its result satisfies [Q] and the number of values it
    has drawn from [fastRand] satisfies [C]. *)
Definition draws {A} (C : nat → Prop) (Q : A → Prop) (m : M A) : Prop :=
  ∀ g a g', m g = Some (a, g') →
    Q a ∧ ∃ ds, drawn g' = drawn g ++ ds ∧ C (length ds).

Lemma draws_ret {A} (a : A) : draws (eq 0%nat) (eq a) (retM a).
Proof. intros g a' g' [= <- <-]. split; [done|]. exists []. by rewrite app_nil_r. Qed.


Lemma draws_bind {A B} C1 C2 (Q : A → Prop) (R : B → Prop) (m : M A) (k : A → M B) :
  draws C1 Q m → (∀ a, Q a → draws C2 R (k a)) →
  draws (λ n, ∃ n1 n2, n = (n1 + n2)%nat ∧ C1 n1 ∧ C2 n2) R (bindM m k).
Proof.
  intros Hm Hk g b g' H. unfold bindM in H.
  destruct (m g) as [[a g1]|] eqn:Hmg; [|done].
  destruct (Hm _ _ _ Hmg) as (HQ & ds1 & Hd1 & HC1).
  destruct (Hk a HQ _ _ _ H) as (HR & ds2 & Hd2 & HC2).
  split; [done|]. exists (ds1 ++ ds2).
  split; [by rewrite Hd2, Hd1, app_assoc|].
  exists (length ds1), (length ds2). by rewrite length_app.
Qed.

Lemma draws_weaken {A} (C C' : nat → Prop) (Q Q' : A → Prop) (m : M A) :
  draws C Q m → (∀ n, C n → C' n) → (∀ a, Q a → Q' a) → draws C' Q' m.
Proof.
  intros Hm HC HQ g a g' H. destruct (Hm _ _ _ H) as (Ha & ds & Hd & Hn).
  split; [by apply HQ|]. exists ds. split; [done|]. by apply HC.
Qed.

Lemma draws_fastRand : draws (eq 1%nat) (λ _, True) fastRand.
Proof. intros g a g' [= <- <-]. split; [done|]. simpl. by eexists [_]. Qed.

Lemma draws_withStack {A} (f : list Z → option (list Z * A)) :
  draws (eq 0%nat) (λ _, True) (withStack f).
Proof.
  intros g a g' H. unfold withStack in H.
  destruct (f _) as [[stk a']|]; [|done]. injection H as <- <-.
  split; [done|]. exists []. by rewrite app_nil_r.
Qed.

(** A bind whose first part draws [n] numbers and whose rest draws [k]. *)
Lemma draws_after {A B} n k (Q : A → Prop) (R : B → Prop) (m : M A) (f : A → M B) :
  draws (eq n) Q m → (∀ a, Q a → draws (eq k) R (f a)) →
  draws (eq (n + k)%nat) R (bindM m f).
Proof.
  intros Hm Hf.
  apply (draws_weaken (λ i, ∃ n1 n2, i = (n1 + n2)%nat ∧ n = n1 ∧ k = n2) _ R R);
    [by apply (draws_bind _ _ Q)| |done].
  intros ? (n1 & n2 & -> & <- & <-). done.
Qed.

Lemma draws_then {A B} n k (R : B → Prop) (m : M A) (f : A → M B) :
  draws (eq n) (λ _, True) m → (∀ a, draws (eq k) R (f a)) →
  draws (eq (n + k)%nat) R (bindM m f).
Proof. intros Hm Hf. apply (draws_after n k (λ _, True)); [done|]. intros a _. apply Hf. Qed.

Lemma draws_count {A} n n' (Q : A → Prop) (m : M A) :
  n = n' → draws (eq n) Q m → draws (eq n') Q m.
Proof. by intros ->. Qed.

Lemma draws_sceneAnyHitFrom fuel ox oy oz dx dy dz objs : ∀ oi maxDist skipObj,
  draws (eq 0%nat) (λ _, True)
    (sceneAnyHitFrom fuel ox oy oz dx dy dz objs oi maxDist skipObj).
Proof.
  induction objs as [|obj rest IH]; intros oi maxDist skipObj; simpl.
  - eapply draws_weaken; [apply draws_ret|done..].
  - case_decide; [apply IH|].
    apply (draws_then 0 0); [apply draws_withStack|].
    intros [|]; [|apply IH]. eapply draws_weaken; [apply draws_ret|done..].
Qed.

Lemma draws_sceneAnyHit fuel ox oy oz dx dy dz scene maxDist skipObj :
  draws (eq 0%nat) (λ _, True)
    (sceneAnyHit fuel ox oy oz dx dy dz scene maxDist skipObj).
Proof.
  unfold sceneAnyHit. apply (draws_then 0 0); [apply draws_sceneAnyHitFrom|].
  intros [|]; [|destruct (_ && _)]; (eapply draws_weaken; [apply draws_ret|done..]).
Qed.

(** Counting in JS numbers: [k + 1] is exact for the counts the sampling
    loops reach. *)
Lemma num_of_nat_succ k :
  (k < 16)%nat → num_of_nat k + 1 = num_of_nat (S k).
Proof.
  intros Hk. do 16 (destruct k as [|k]; [reflexivity|]). lia.
Qed.

Lemma shadowLoop_draws fuel ox oy oz scene origObjIdx s : ∀ j,
  (j + s ≤ 16)%nat →
  draws (eq (3 * s)%nat) (λ r, ∃ k, (j ≤ k ≤ j + s)%nat ∧ r = num_of_nat k)
    (shadowLoop fuel ox oy oz scene origObjIdx s (num_of_nat j)).
Proof.
  induction s as [|s IH]; intros j Hj.
  - simpl. eapply draws_weaken; [apply draws_ret|done|].
    intros ? <-. exists j. split; [lia|done].
  - cbn [shadowLoop].
    apply (draws_count (1 + (1 + (1 + (0 + 3 * s))))); [lia|].
    apply draws_then; [apply draws_fastRand|].
    intros r1. apply draws_then; [apply draws_fastRand|].
    intros r2. apply draws_then; [apply draws_fastRand|].
    intros r3. cbv zeta. apply draws_then; [apply draws_sceneAnyHit|].
    intros [|].
    + rewrite num_of_nat_succ by lia.
      eapply draws_weaken; [apply (IH (S j)); lia|done|].
      intros r (k & Hk & ->). exists k. split; [lia|done].
    + eapply draws_weaken; [apply (IH j); lia|done|].
      intros r (k & Hk & ->). exists k. split; [lia|done].
Qed.

Lemma sixteenths_in_unit k :
  (k ≤ 16)%nat →
  (0 <=? num_of_nat k / 16) = true ∧ (num_of_nat k / 16 <=? 1) = true.
Proof.
  intros Hk. do 17 (destruct k as [|k]; [split; reflexivity|]). lia.
Qed.

Lemma eighths_in_unit k :
  (k ≤ 8)%nat →
  (0 <=? num_of_nat k / 8) = true ∧ (num_of_nat k / 8 <=? 1) = true.
Proof.
  intros Hk. do 9 (destruct k as [|k]; [split; reflexivity|]). lia.
Qed.

Lemma shadowTest_draws fuel ox oy oz scene origObjIdx :
  draws (eq 48%nat) (λ r, ∃ k, (k ≤ 16)%nat ∧ r = num_of_nat k / 16)
    (shadowTest fuel ox oy oz scene origObjIdx).
Proof.
  unfold shadowTest.
  apply (draws_count (3 * 16 + 0)); [done|].
  eapply draws_after; [apply (shadowLoop_draws _ _ _ _ _ _ 16 0); lia|].
  intros blocked (k & Hk & ->). eapply draws_weaken; [apply draws_ret|done|].
  intros ? <-. exists k. split; [lia|done].
Qed.

(** [shadowTest], when it returns, has drawn exactly 48 numbers (three per
    sample) and returns [k / 16] for the number [k <= 16] of blocked
    samples: a number from 0 (fully lit) to 1 (fully shadowed). *)
Theorem shadowTest_draws_and_range fuel ox oy oz scene origObjIdx g r g' :
  shadowTest fuel ox oy oz scene origObjIdx g = Some (r, g') →
  (∃ k, (k ≤ 16)%nat ∧ r = num_of_nat k / 16)
  ∧ (0 <=? r) = true ∧ (r <=? 1) = true
  ∧ ∃ ds, drawn g' = drawn g ++ ds ∧ length ds = 48%nat.
Proof.
  intros H.
  destruct (shadowTest_draws fuel ox oy oz scene origObjIdx _ _ _ H)
    as ((k & Hk & ->) & ds & Hds & Hlen).
  split; [by exists k|].
  destruct (sixteenths_in_unit k Hk) as [H0 H1].
  split; [done|]. split; [done|]. by exists ds.
Qed.

Lemma shadowTest_draws_and_range_witness :
  ∃ r g', shadowTest 4 0 0 (-1) exampleScene 0 (exampleGlobals 0 0) = Some (r, g')
          ∧ (0 <=? r) = true ∧ (r <=? 1) = true ∧ length (drawn g') = 48%nat.
Proof.
  destruct (shadowTest 4 0 0 (-1) exampleScene 0 (exampleGlobals 0 0))
    as [[r g']|] eqn:H; [|by vm_compute in H].
  destruct (shadowTest_draws_and_range 4 0 0 (-1) exampleScene 0
              (exampleGlobals 0 0) r g' H) as (_ & H0 & H1 & ds & Hds & Hlen).
  exists r, g'. rewrite Hds. split; [reflexivity|].
  split; [exact H0|]. split; [exact H1|]. rewrite length_app. exact Hlen.
Defined.

Lemma draws_sampleHemisphere nx ny nz :
  draws (eq 3%nat) (λ _, True) (sampleHemisphere nx ny nz).
Proof.
  unfold sampleHemisphere.
  apply (draws_count (1 + (1 + (1 + 0)))); [done|].
  apply draws_then; [apply draws_fastRand|].
  intros r1. apply draws_then; [apply draws_fastRand|].
  intros r2. apply draws_then; [apply draws_fastRand|].
  intros r3. cbv zeta.
  destruct (_ <? 0.01); [|destruct (_ <? 0)];
    (eapply draws_weaken; [apply draws_ret|done..]).
Qed.

Lemma aoLoop_draws fuel ox oy oz nx ny nz scene origObjIdx s : ∀ j,
  (j + s ≤ 8)%nat →
  draws (eq (3 * s)%nat) (λ r, ∃ k, (j ≤ k ≤ j + s)%nat ∧ r = num_of_nat k)
    (aoLoop fuel ox oy oz nx ny nz scene origObjIdx s (num_of_nat j)).
Proof.
  induction s as [|s IH]; intros j Hj.
  - simpl. eapply draws_weaken; [apply draws_ret|done|].
    intros ? <-. exists j. split; [lia|done].
  - cbn [aoLoop].
    apply (draws_count (3 + 3 * s)); [lia|].
    apply draws_then; [apply draws_sampleHemisphere|].
    intros [d|].
    + apply (draws_count (0 + 3 * s)); [lia|].
      apply draws_then; [apply draws_sceneAnyHit|].
      intros [|].
      * rewrite num_of_nat_succ by lia.
        eapply draws_weaken; [apply (IH (S j)); lia|done|].
        intros r (k & Hk & ->). exists k. split; [lia|done].
      * eapply draws_weaken; [apply (IH j); lia|done|].
        intros r (k & Hk & ->). exists k. split; [lia|done].
    + eapply draws_weaken; [apply (IH j); lia|done|].
      intros r (k & Hk & ->). exists k. split; [lia|done].
Qed.

Lemma aoTest_draws fuel ox oy oz nx ny nz scene origObjIdx :
  draws (eq 24%nat) (λ r, ∃ k, (k ≤ 8)%nat ∧ r = num_of_nat k / 8)
    (aoTest fuel ox oy oz nx ny nz scene origObjIdx).
Proof.
  unfold aoTest.
  apply (draws_count (3 * 8 + 0)); [done|].
  eapply draws_after; [apply (aoLoop_draws _ _ _ _ _ _ _ _ _ 8 0); lia|].
  intros occluded (k & Hk & ->). eapply draws_weaken; [apply draws_ret|done|].
  intros ? <-. exists k. split; [lia|done].
Qed.

(** [aoTest], when it returns, has drawn exactly 24 numbers (three per
    sample, also for a sample it rejects) and returns [k / 8] for the
    number [k <= 8] of occluded samples: a number from 0 to 1. *)
Theorem aoTest_draws_and_range fuel ox oy oz nx ny nz scene origObjIdx g r g' :
  aoTest fuel ox oy oz nx ny nz scene origObjIdx g = Some (r, g') →
  (∃ k, (k ≤ 8)%nat ∧ r = num_of_nat k / 8)
  ∧ (0 <=? r) = true ∧ (r <=? 1) = true
  ∧ ∃ ds, drawn g' = drawn g ++ ds ∧ length ds = 24%nat.
Proof.
  intros H.
  destruct (aoTest_draws fuel ox oy oz nx ny nz scene origObjIdx _ _ _ H)
    as ((k & Hk & ->) & ds & Hds & Hlen).
  split; [by exists k|].
  destruct (eighths_in_unit k Hk) as [H0 H1].
  split; [done|]. split; [done|]. by exists ds.
Qed.

Lemma aoTest_draws_and_range_witness :
  ∃ r g', aoTest 4 0 0 (-1) 0 0 (-1) exampleScene 0 (exampleGlobals 0 0) = Some (r, g')
          ∧ (0 <=? r) = true ∧ (r <=? 1) = true ∧ length (drawn g') = 24%nat.
Proof.
  destruct (aoTest 4 0 0 (-1) 0 0 (-1) exampleScene 0 (exampleGlobals 0 0))
    as [[r g']|] eqn:H; [|by vm_compute in H].
  destruct (aoTest_draws_and_range 4 0 0 (-1) 0 0 (-1) exampleScene 0
              (exampleGlobals 0 0) r g' H) as (_ & H0 & H1 & ds & Hds & Hlen).
  exists r, g'. rewrite Hds. split; [reflexivity|].
  split; [exact H0|]. split; [exact H1|]. rewrite length_app. exact Hlen.
Defined.









(** * Marching cubes *)

(** ** The lookup tables agree *)

(** Edge [e] is in the bitmask [edges]: [edges & (1 << e)] is not zero. *)
Definition edgeFlagged (edges : Z) (e : nat) : bool :=
  negb (Z.land edges (Z.shiftl 1 (Z.of_nat e)) =? 0)%Z.

(** A table entry that names one of the 12 edges, and one in the mask. *)
Definition entryFlagged (edges : Z) (a : Z) : bool :=
  (0 <=? a)%Z && (a <? 12)%Z && edgeFlagged edges (Z.to_nat a).

(** Up to its [-1] sentinel a row of [TRI_TABLE] is made of full triples
    of edges that are in the mask. *)
Fixpoint rowFlagged (edges : Z) (triList : list Z) : bool :=
  match triList with
  | [] => true
  | a :: rest =>
      if (a =? -1)%Z then true else
      match rest with
      | b :: c :: rest' =>
          entryFlagged edges a && entryFlagged edges b && entryFlagged edges c
          && rowFlagged edges rest'
      | _ => false
      end
  end.

(** Every one of the 256 cases has a mask and a row, and the row uses
    only edges of the mask. *)
Definition tablesAgree : bool :=
  forallb (λ ci, match EDGE_TABLE !! ci, TRI_TABLE !! ci with
                 | Some edges, Some row => rowFlagged edges row
                 | _, _ => false
                 end) (seq 0 256).

Lemma tablesAgree_true : tablesAgree = true.
Proof. vm_compute. reflexivity. Qed.

Lemma tables_lookup ci :
  (0 ≤ ci < 256)%Z →
  ∃ edges row, EDGE_TABLE !! Z.to_nat ci = Some edges
               ∧ TRI_TABLE !! Z.to_nat ci = Some row
               ∧ rowFlagged edges row = true.
Proof.
  intros Hci. pose proof tablesAgree_true as H. unfold tablesAgree in H.
  rewrite forallb_forall in H. specialize (H (Z.to_nat ci)).
  destruct (EDGE_TABLE !! Z.to_nat ci) as [edges|],
           (TRI_TABLE !! Z.to_nat ci) as [row|].
  - exists edges, row. split; [done|]. split; [done|].
    apply H. apply in_seq. lia.
  - lapply H; [done|]. apply in_seq. lia.
  - lapply H; [done|]. apply in_seq. lia.
  - lapply H; [done|]. apply in_seq. lia.
Qed.

(** ** One cell *)

Lemma cornerGrid_is_Some ix iy iz c :
  (c < 8)%nat → is_Some (cornerGrid ix iy iz c).
Proof.
  intros Hc. unfold cornerGrid.
  destruct (lookup_lt_is_Some_2 CORNER_OFFSETS c) as [[[ox oy] oz] ->]; [exact Hc|].
  done.
Qed.

Lemma edgeCorners_lookup e :
  (e < 12)%nat →
  ∃ c1 c2, EDGE_CORNERS !! e = Some (c1, c2) ∧ (c1 < 8)%nat ∧ (c2 < 8)%nat.
Proof.
  intros He.
  do 12 (destruct e as [|e]; [eexists _, _; split; [reflexivity|lia]|]). lia.
Qed.

Lemma lor_bit_below a c :
  (0 ≤ a < 256)%Z → (c < 8)%nat →
  (0 ≤ Z.lor a (Z.shiftl 1 (Z.of_nat c)) < 256)%Z.
Proof.
  intros Ha Hc. rewrite Z.shiftl_1_l.
  assert (0 < 2 ^ Z.of_nat c)%Z as Hpos by (apply Z.pow_pos_nonneg; lia).
  assert (0 ≤ Z.lor a (2 ^ Z.of_nat c))%Z as Hnn by (apply Z.lor_nonneg; lia).
  split; [done|].
  assert (Z.lor a (2 ^ Z.of_nat c) ≠ 0)%Z as Hne.
  { intros H0. apply Z.lor_eq_0_iff in H0. lia. }
  change 256%Z with (2 ^ 8)%Z. apply Z.log2_lt_pow2; [lia|].
  rewrite Z.log2_lor by lia. rewrite Z.log2_pow2 by lia.
  destruct (decide (a = 0%Z)) as [->|Hane]; [simpl; lia|].
  assert (Z.log2 a < 8)%Z by (apply Z.log2_lt_pow2; [lia|]; change (2 ^ 8)%Z with 256%Z; lia).
  lia.
Qed.

Lemma sampleCorners_returns ix iy iz field n gridMin cellSize threshold cs :
  ∀ ci0,
    Forall (λ c, (c < 8)%nat) cs → (0 ≤ ci0 < 256)%Z →
    ∃ vals poss ci,
      sampleCorners ix iy iz field n gridMin cellSize threshold cs ci0
        = Some (vals, poss, ci)
      ∧ length vals = length cs ∧ length poss = length cs ∧ (0 ≤ ci < 256)%Z.
Proof.
  induction cs as [|c cs IH]; intros ci0 Hcs Hci.
  - exists [], [], ci0. done.
  - apply Forall_cons in Hcs as [Hc Hcs]. cbn [sampleCorners].
    destruct (cornerGrid_is_Some ix iy iz c Hc) as [[[gx gy] gz] ->]. cbn [mbind option_bind].
    cbv zeta.
    set (ci1 := if geb _ threshold then _ else ci0).
    assert (0 ≤ ci1 < 256)%Z as Hci1.
    { unfold ci1. destruct (geb _ _); [by apply lor_bit_below|done]. }
    destruct (IH ci1 Hcs Hci1) as (vals & poss & ci & -> & Hv & Hp & Hr).
    eexists _, _, ci. split; [reflexivity|]. simpl. split; [lia|]. split; [lia|done].
Qed.

(** The vertex indices that the map holds are indices into the vertices. *)
Definition mapInRange (vertexCount : nat) (m : gmap Z nat) : Prop :=
  map_Forall (λ _ i, (i < vertexCount)%nat) m.

(** What the second loop leaves in [edgeVerts[e]]: a vertex index for an
    edge of the mask, a hole for another. *)
Definition edgeVertOk (edges : Z) (vertexCount : nat) (e : nat) (ev : option nat) : Prop :=
  if edgeFlagged edges e then ∃ i, ev = Some i ∧ (i < vertexCount)%nat else ev = None.

Lemma edgeVertOk_mono edges k k' e ev :
  (k ≤ k')%nat → edgeVertOk edges k e ev → edgeVertOk edges k' e ev.
Proof.
  unfold edgeVertOk. intros Hk. destruct (edgeFlagged _ _); [|done].
  intros (i & -> & Hi). exists i. split; [done|lia].
Qed.

Lemma crossEdges_returns ix iy iz n threshold edges vals poss es :
  ∀ vertices m,
    Forall (λ e, (e < 12)%nat) es → length vals = 8%nat → length poss = 8%nat →
    mapInRange (length vertices) m →
    ∃ evs vertices' m',
      crossEdges ix iy iz n threshold edges vals poss es vertices m
        = Some (evs, vertices', m')
      ∧ (length vertices ≤ length vertices')%nat
      ∧ mapInRange (length vertices') m'
      ∧ Forall2 (edgeVertOk edges (length vertices')) es evs.
Proof.
  induction es as [|e es IH]; intros vertices m Hes Hvals Hposs Hm.
  - exists [], vertices, m. split; [done|]. split; [done|]. split; [done|]. constructor.
  - apply Forall_cons in Hes as [He Hes]. cbn [crossEdges].
    case_decide as Hflag.
    + destruct (IH vertices m Hes Hvals Hposs Hm) as (evs & vs' & m' & -> & Hle & Hm' & Hall).
      eexists _, _, _. split; [reflexivity|]. split; [done|]. split; [done|].
      constructor; [|done]. unfold edgeVertOk, edgeFlagged. rewrite Hflag. done.
    + destruct (edgeCorners_lookup e He) as (c1 & c2 & -> & Hc1 & Hc2).
      cbn [mbind option_bind].
      destruct (cornerGrid_is_Some ix iy iz c1 Hc1) as [g1 ->].
      destruct (cornerGrid_is_Some ix iy iz c2 Hc2) as [g2 ->].
      cbn [mbind option_bind]. cbv zeta.
      assert (edgeFlagged edges e = true) as Hset.
      { unfold edgeFlagged. by destruct (Z.eqb_spec (Z.land edges (Z.shiftl 1 (Z.of_nat e))) 0). }
      destruct (m !! edgeKey n g1 g2) as [i|] eqn:Hkey.
      * destruct (IH vertices m Hes Hvals Hposs Hm)
          as (evs & vs' & m' & -> & Hle & Hm' & Hall).
        eexists _, _, _. split; [reflexivity|]. split; [done|]. split; [done|].
        constructor; [|done]. unfold edgeVertOk. rewrite Hset.
        exists i. split; [done|]. pose proof (Hm _ _ Hkey) as Hi. simpl in Hi. lia.
      * destruct (lookup_lt_is_Some_2 poss c1) as [p1 ->]; [lia|].
        destruct (lookup_lt_is_Some_2 poss c2) as [p2 ->]; [lia|].
        destruct (lookup_lt_is_Some_2 vals c1) as [v1 ->]; [lia|].
        destruct (lookup_lt_is_Some_2 vals c2) as [v2 ->]; [lia|].
        cbn [mbind option_bind].
        destruct (IH (vertices ++ [mcInterpolate p1 p2 v1 v2 threshold])
                    (<[edgeKey n g1 g2 := length vertices]> m) Hes Hvals Hposs)
          as (evs & vs' & m' & -> & Hle & Hm' & Hall).
        { apply map_Forall_insert_2; [rewrite length_app; simpl; lia|].
          eapply map_Forall_impl; [exact Hm|]. intros k j Hj. simpl in *.
          rewrite length_app. simpl. lia. }
        rewrite length_app in Hle. simpl in Hle.
        eexists _, _, _. split; [reflexivity|]. split; [lia|]. split; [done|].
        constructor; [|done]. unfold edgeVertOk. rewrite Hset.
        exists (length vertices). split; [done|lia].
Qed.

Lemma edgeVert_flagged edges vertexCount evs a :
  Forall2 (edgeVertOk edges vertexCount) (seq 0 12) evs →
  entryFlagged edges a = true →
  ∃ i, edgeVert evs a = Some i ∧ (i < vertexCount)%nat.
Proof.
  intros Hall Ha. unfold entryFlagged in Ha.
  apply andb_true_iff in Ha as [Ha Hflag]. apply andb_true_iff in Ha as [H0 H12].
  apply Z.leb_le in H0. apply Z.ltb_lt in H12.
  unfold edgeVert. destruct (Z.ltb_spec a 0); [lia|].
  assert (seq 0 12 !! Z.to_nat a = Some (Z.to_nat a)) as Hseq
    by (apply lookup_seq; lia).
  destruct (Forall2_lookup_l _ _ _ _ _ Hall Hseq) as (ev & Hev & Hok).
  unfold edgeVertOk in Hok. rewrite Hflag in Hok. destruct Hok as (i & -> & Hi).
  exists i. rewrite Hev. done.
Qed.

Lemma emitTriangles_returns edges vertexCount evs :
  Forall2 (edgeVertOk edges vertexCount) (seq 0 12) evs →
  ∀ k row tris,
    (length row ≤ k)%nat → rowFlagged edges row = true →
    ∃ new, emitTriangles evs row tris = Some (tris ++ new)
           ∧ Forall (triInRange vertexCount) new.
Proof.
  intros Hall. induction k as [|k IH]; intros row tris Hlen Hrow.
  - destruct row; [|simpl in Hlen; lia]. exists []. by rewrite app_nil_r.
  - destruct row as [|a rest]; [exists []; by rewrite app_nil_r|].
    cbn [emitTriangles rowFlagged] in *.
    case_decide as Hend; [exists []; by rewrite app_nil_r|].
    destruct (Z.eqb_spec a (-1)); [done|].
    destruct rest as [|b [|c rest']]; [done..|].
    apply andb_true_iff in Hrow as [Hrow Hrest].
    apply andb_true_iff in Hrow as [Hrow Hc].
    apply andb_true_iff in Hrow as [Ha Hb].
    destruct (edgeVert_flagged _ _ _ _ Hall Ha) as (i & -> & Hi).
    destruct (edgeVert_flagged _ _ _ _ Hall Hb) as (j & -> & Hj).
    destruct (edgeVert_flagged _ _ _ _ Hall Hc) as (l & -> & Hl).
    cbn [mbind option_bind].
    destruct (IH rest' (tris ++ [mkTri i j l])) as (new & -> & Hnew);
      [simpl in Hlen; lia|done|].
    exists (mkTri i j l :: new). split; [by rewrite <- app_assoc|].
    constructor; [done|done].
Qed.

(** What [processCell] keeps: triangles and map entries name vertices. *)
Definition meshInRange (st : McState) : Prop :=
  Forall (triInRange (length (mc_vertices st))) (mc_triangles st)
  ∧ mapInRange (length (mc_vertices st)) (mc_edgeVertexMap st).

Lemma triInRange_mono k k' t : (k ≤ k')%nat → triInRange k t → triInRange k' t.
Proof. unfold triInRange. lia. Qed.

Lemma processCell_returns ix iy iz field n gridMin cellSize threshold st :
  meshInRange st →
  ∃ st', processCell ix iy iz field n gridMin cellSize threshold st = Some st'
         ∧ meshInRange st'.
Proof.
  intros [Htris Hmap]. unfold processCell.
  destruct (sampleCorners_returns ix iy iz field n gridMin cellSize threshold
              (seq 0 8) 0%Z) as (vals & poss & ci & -> & Hv & Hp & Hci);
    [apply Forall_forall; intros c Hc; apply elem_of_seq in Hc; lia|lia|].
  cbn [mbind option_bind].
  destruct (tables_lookup ci Hci) as (edges & row & -> & -> & Hrow).
  cbn [mbind option_bind].
  case_decide; [by exists st|].
  destruct (crossEdges_returns ix iy iz n threshold edges vals poss (seq 0 12)
              (mc_vertices st) (mc_edgeVertexMap st))
    as (evs & vs' & m' & -> & Hle & Hm' & Hall);
    [apply Forall_forall; intros e He; apply elem_of_seq in He; lia|done|done|done|].
  cbn [mbind option_bind].
  destruct (emitTriangles_returns edges (length vs') evs Hall (length row) row
              (mc_triangles st)) as (new & -> & Hnew); [done|done|].
  cbn [mbind option_bind].
  eexists. split; [reflexivity|]. split; [|done]. simpl.
  apply Forall_app. split; [|done].
  eapply Forall_impl; [exact Htris|]. intros t. by apply triInRange_mono.
Qed.

(** The three loops keep [meshInRange], from the empty mesh on. *)
Lemma marchingCubes_total field res gridMin cellSize threshold :
  ∃ vs ts, marchingCubes field res gridMin cellSize threshold = Some (vs, ts)
           ∧ Forall (triInRange (length vs)) ts.
Proof.
  unfold marchingCubes.
  destruct (forM_total meshInRange res
              (λ iz, forM res (λ iy, forM res (λ ix,
                 processCell ix iy iz field (res + 1) gridMin cellSize threshold)))
              (mkMcState [] [] ∅)) as (st & -> & [Htris _]).
  - split; [constructor|]. apply map_Forall_empty.
  - intros iz st _ Hst. apply forM_total; [done|].
    intros iy st1 _ Hst1. apply forM_total; [done|].
    intros ix st2 _ Hst2. by apply processCell_returns.
  - by exists (mc_vertices st), (mc_triangles st).
Qed.

(** [marchingCubes] never throws, whatever the field array and the
    resolution, and every triangle it returns names three vertices of the
    vertex array it returns: no [undefined] index is left from a hole in
    [edgeVerts]. *)
Theorem marchingCubes_returns field res gridMin cellSize threshold :
  ∃ vs ts, marchingCubes field res gridMin cellSize threshold = Some (vs, ts)
           ∧ Forall (triInRange (length vs)) ts.
Proof. exact (marchingCubes_total field res gridMin cellSize threshold). Qed.

Lemma marchingCubes_returns_example :
  ∃ vs ts, marchingCubes (evaluateField [mkBall 0 0 0 1] (Vec3 (-1.5) (-1.5) (-1.5)) 1 3)
             3 (Vec3 (-1.5) (-1.5) (-1.5)) 1 1 = Some (vs, ts)
           ∧ length vs = 24%nat ∧ length ts = 44%nat.
Proof. do 2 eexists. split; [vm_compute; reflexivity|]. split; reflexivity. Qed.

(** ** An edge gets a vertex exactly when the surface crosses it *)

(** The mask of every case has exactly the edges whose two corners lie
    on different sides. *)
Definition edgeTableAgrees : bool :=
  forallb (λ ci,
    forallb (λ e,
      match EDGE_TABLE !! ci, EDGE_CORNERS !! e with
      | Some edges, Some (c1, c2) =>
          eqb (edgeFlagged edges e)
              (xorb (Z.testbit (Z.of_nat ci) (Z.of_nat c1))
                    (Z.testbit (Z.of_nat ci) (Z.of_nat c2)))
      | _, _ => false
      end) (seq 0 12)) (seq 0 256).

Lemma edgeTableAgrees_true : edgeTableAgrees = true.
Proof. vm_compute. reflexivity. Qed.

(** Bit [b] of the cube index after the corners [cs]. *)
Lemma sampleCorners_bits ix iy iz field n gridMin cellSize threshold cs :
  ∀ ci0 vals poss ci b,
    sampleCorners ix iy iz field n gridMin cellSize threshold cs ci0
      = Some (vals, poss, ci) →
    (0 ≤ b)%Z →
    Z.testbit ci b
    = Z.testbit ci0 b
      || existsb (λ cv, (Z.of_nat cv.1 =? b)%Z && geb cv.2 threshold) (zip cs vals).
Proof.
  induction cs as [|c cs IH]; intros ci0 vals poss ci b H Hb.
  - injection H as <- _ <-. simpl. by rewrite orb_false_r.
  - cbn [sampleCorners] in H.
    apply bind_Some in H as ([[gx gy] gz] & _ & H). cbv zeta in H.
    apply bind_Some in H as ([[vals' poss'] ci'] & Hrest & H).
    injection H as <- _ <-.
    rewrite (IH _ _ _ _ b Hrest Hb). cbn [zip zip_with existsb fst snd].
    destruct (geb _ threshold).
    + rewrite Z.lor_spec, Z.shiftl_1_l, Z.pow2_bits_eqb by lia.
      rewrite andb_true_r, orb_assoc. done.
    + rewrite andb_false_r. done.
Qed.

(** In a cell, edge [e] is in the mask that [processCell] reads from
    [EDGE_TABLE], and so gets a vertex, exactly when the field is at or
    above the threshold at one of its two corners and below it (or NaN)
    at the other. *)
Theorem processCell_edge_crossed ix iy iz field n gridMin cellSize threshold
    vals poss ci edges e c1 c2 v1 v2 :
  sampleCorners ix iy iz field n gridMin cellSize threshold (seq 0 8) 0
    = Some (vals, poss, ci) →
  EDGE_TABLE !! Z.to_nat ci = Some edges →
  EDGE_CORNERS !! e = Some (c1, c2) →
  vals !! c1 = Some v1 → vals !! c2 = Some v2 →
  edgeFlagged edges e = xorb (geb v1 threshold) (geb v2 threshold).
Proof.
  intros Hs Hedges He Hv1 Hv2.
  destruct (sampleCorners_returns ix iy iz field n gridMin cellSize threshold
              (seq 0 8) 0%Z) as (vals' & poss' & ci' & Hs' & Hlen & _ & Hci);
    [apply Forall_forall; intros c Hc; apply elem_of_seq in Hc; lia|lia|].
  rewrite Hs in Hs'. injection Hs' as <- <- <-.
  assert (e < 12)%nat as He12 by (apply lookup_lt_Some in He; exact He).
  assert (∀ c v, vals !! c = Some v →
            Z.testbit ci (Z.of_nat c) = geb v threshold) as Hbit.
  { intros c v Hv.
    rewrite (sampleCorners_bits _ _ _ _ _ _ _ _ _ _ _ _ _ (Z.of_nat c) Hs) by lia.
    rewrite Z.testbit_0_l. cbn [orb].
    do 9 (destruct vals as [|? vals]; [try done|]); [|done].
    do 8 (destruct c as [|c]; [injection Hv as ->; simpl; by rewrite ?orb_false_r|]).
    done. }
  pose proof edgeTableAgrees_true as Htab. unfold edgeTableAgrees in Htab.
  rewrite forallb_forall in Htab. specialize (Htab (Z.to_nat ci)).
  lapply Htab; [clear Htab; intros Htab|apply in_seq; lia].
  rewrite forallb_forall in Htab. specialize (Htab e).
  lapply Htab; [clear Htab; intros Htab|apply in_seq; lia].
  rewrite Hedges, He in Htab. apply eqb_prop in Htab.
  rewrite Z2Nat.id in Htab by lia.
  rewrite Htab, (Hbit _ _ Hv1), (Hbit _ _ Hv2). done.
Qed.

Lemma processCell_edge_crossed_witness :
  let field := evaluateField [mkBall 0 0 0 1] (Vec3 (-1.5) (-1.5) (-1.5)) 1 3 in
  ∃ vals poss ci edges v1 v2,
    sampleCorners 1 1 0 field 4 (Vec3 (-1.5) (-1.5) (-1.5)) 1 1 (seq 0 8) 0
      = Some (vals, poss, ci)
    ∧ EDGE_TABLE !! Z.to_nat ci = Some edges
    ∧ vals !! 3%nat = Some v1 ∧ vals !! 0%nat = Some v2
    ∧ edgeFlagged edges 3 = xorb (geb v1 1) (geb v2 1)
    ∧ geb v1 1 = true ∧ geb v2 1 = false.
Proof.
  intros field.
  destruct (sampleCorners 1 1 0 field 4 (Vec3 (-1.5) (-1.5) (-1.5)) 1 1 (seq 0 8) 0)
    as [[[vals poss] ci]|] eqn:Hs; [|by vm_compute in Hs].
  destruct (EDGE_TABLE !! Z.to_nat ci) as [edges|] eqn:Hedges;
    [|by vm_compute in Hs; injection Hs as _ _ <-].
  destruct (vals !! 3%nat) as [v1|] eqn:Hv1;
    [|by vm_compute in Hs; injection Hs as <- _ _].
  destruct (vals !! 0%nat) as [v2|] eqn:Hv2;
    [|by vm_compute in Hs; injection Hs as <- _ _].
  exists vals, poss, ci, edges, v1, v2.
  split; [first [exact Hs|reflexivity]|].
  split; [first [exact Hedges|reflexivity]|].
  split; [first [exact Hv1|reflexivity]|].
  split; [first [exact Hv2|reflexivity]|]. split.
  - exact (processCell_edge_crossed 1 1 0 field 4 (Vec3 (-1.5) (-1.5) (-1.5)) 1 1
             vals poss ci edges 3 3 0 v1 v2 Hs Hedges eq_refl Hv1 Hv2).
  - vm_compute in Hs. injection Hs as <- _ _.
    injection Hv1 as <-. injection Hv2 as <-. split; reflexivity.
Defined.

(** * The generator returns a well-formed mesh *)

Lemma smoothMesh_returns vs ts balls threshold iterations :
  Forall (triInRange (length vs)) ts →
  ∃ vs', smoothMesh vs ts balls threshold iterations = Some (vs', ts)
         ∧ length vs' = length vs.
Proof.
  intros Hts. unfold smoothMesh.
  destruct (buildNeighborSets_ok _ _ Hts) as (sets & -> & Hsets). simpl.
  destruct (forM_total (λ v, length v = length vs) iterations
              (λ _ vertices,
                 vertices ← forM (length vertices) (relaxVertex sets) vertices;
                 forM (length vertices) (projectVertex balls threshold) vertices)
              vs) as (vs' & -> & Hlen); [done| |by exists vs'].
  intros _ x _ Hx.
  destruct (forM_total (λ v, length v = length vs) (length x)
              (relaxVertex sets) x) as (y & Hy & Hylen); [done| |].
  { intros i z Hi Hz.
    destruct (relaxVertex_total sets i z) as [z' Hz']; [by rewrite Hz|lia|].
    exists z'. split; [done|]. apply relaxVertex_length in Hz'. congruence. }
  destruct (forM_total (λ v, length v = length vs) (length y)
              (projectVertex balls threshold) y) as (w & Hw & Hwlen); [done| |].
  { intros i z Hi Hz.
    destruct (projectVertex_total balls threshold i z) as [z' Hz']; [lia|].
    exists z'. split; [done|]. apply projectVertex_length in Hz'. congruence. }
  exists w. rewrite Hy. simpl. done.
Qed.



(** * The scanline rasterizer *)

(** The rows that [fillpoly] scans lie on the screen, and they include
    the row [y | 0] of every point of the polygon whose row is on the
    screen. *)
Theorem polyYBounds_on_screen pts :
  (0 ≤ (polyYBounds pts).1)%Z ∧ ((polyYBounds pts).2 ≤ 419)%Z
  ∧ ∀ p, p ∈ pts → (0 ≤ ToInt32 (pt_y p) ≤ 419)%Z →
         ((polyYBounds pts).1 ≤ ToInt32 (pt_y p) ≤ (polyYBounds pts).2)%Z.
Proof.
  unfold polyYBounds.
  assert (∀ l ymin ymax,
            let r := foldl (λ '(ymin, ymax) p,
                              let y := ToInt32 (pt_y p) in
                              (if (y <? ymin)%Z then y else ymin,
                               if (ymax <? y)%Z then y else ymax))
                           (ymin, ymax) l in
            (r.1 ≤ ymin)%Z ∧ (ymax ≤ r.2)%Z
            ∧ ∀ p, p ∈ l → (r.1 ≤ ToInt32 (pt_y p) ≤ r.2)%Z) as Hfold.
  { induction l as [|q l IH]; intros ymin ymax; cbn [foldl].
    - split; [simpl; lia|]. split; [simpl; lia|]. intros p Hp. by apply elem_of_nil in Hp.
    - cbv zeta in IH.
      set (ymin' := if (ToInt32 (pt_y q) <? ymin)%Z then ToInt32 (pt_y q) else ymin).
      set (ymax' := if (ymax <? ToInt32 (pt_y q))%Z then ToInt32 (pt_y q) else ymax).
      destruct (IH ymin' ymax') as (Hlo & Hhi & Hin).
      assert (ymin' ≤ ymin ∧ ymin' ≤ ToInt32 (pt_y q))%Z as [? ?]
        by (unfold ymin'; destruct (Z.ltb_spec (ToInt32 (pt_y q)) ymin); lia).
      assert (ymax ≤ ymax' ∧ ToInt32 (pt_y q) ≤ ymax')%Z as [? ?]
        by (unfold ymax'; destruct (Z.ltb_spec ymax (ToInt32 (pt_y q))); lia).
      split; [lia|]. split; [lia|].
      intros p Hp. apply elem_of_cons in Hp as [->|Hp]; [lia|by apply Hin]. }
  specialize (Hfold pts 420%Z 0%Z). cbv zeta in Hfold.
  destruct (foldl _ _ pts) as [ymin ymax]. simpl in *.
  destruct Hfold as (Hlo & Hhi & Hin).
  split; [lia|]. split; [lia|].
  intros p Hp Hrow. specialize (Hin p Hp). lia.
Qed.

Lemma ltb_negb_leb a b : is_num a → is_num b → (a <? b) = negb (b <=? a).
Proof.
  intros Ha Hb. destruct (a <? b) eqn:Hlt.
  - destruct (b <=? a) eqn:Hle; [|done]. apply leb_not_ltb in Hle. congruence.
  - by rewrite (ltb_false_leb _ _ Hlt Ha Hb).
Qed.

(** Between numbers, an edge crosses the scanline when just one of its
    ends is at or above it on the screen ([y0 <= y]). *)
Lemma crossesScanline_xorb y0 y1 y :
  is_num y0 → is_num y1 → is_num y →
  crossesScanline y0 y1 y = xorb (y0 <=? y) (y1 <=? y).
Proof.
  intros H0 H1 Hy. unfold crossesScanline, gtb.
  rewrite (ltb_negb_leb y y1), (ltb_negb_leb y y0) by done.
  by destruct (y0 <=? y), (y1 <=? y).
Qed.

Lemma length_sortSpanInsert x l : length (sortSpanInsert x l) = S (length l).
Proof.
  induction l as [|y ys IH]; simpl; [done|]. destruct (_ <? _); simpl; [by rewrite IH|done].
Qed.

Lemma length_sortSpans l : length (sortSpans l) = length l.
Proof.
  induction l as [|x xs IH]; simpl; [done|]. by rewrite length_sortSpanInsert, IH.
Qed.

(** The hits along the path from [p] through the points of [l]. *)
Fixpoint pathHits (y : number) (p : Pt) (l : list Pt) : list SpanEnd :=
  match l with
  | [] => []
  | q :: l' =>
      match edgeHit p q y with
      | Some h => h :: pathHits y q l'
      | None => pathHits y q l'
      end
  end.

(** The loop of [scanlineHits] walks the closed path through the points. *)
Lemma edges_pathHits y p0 pts : ∀ pre p rest,
  pts = pre ++ p :: rest →
  head pts = Some p0 →
  omap (λ i, a ← pts !! i; b ← pts !! ((i + 1) mod length pts)%nat; edgeHit a b y)
       (seq (length pre) (S (length rest)))
  = pathHits y p (rest ++ [p0]).
Proof.
  intros pre p rest. revert pre p.
  induction rest as [|q rest IH]; intros pre p Hpts Hhead.
  - cbn [seq omap list_omap length]. subst pts.
    rewrite (list_lookup_middle pre [] p (length pre) eq_refl). cbn [mbind option_bind].
    rewrite length_app. cbn [length].
    replace (length pre + 1)%nat with (1 * (length pre + 1))%nat at 1 by lia.
    rewrite Nat.Div0.mod_mul.
    assert ((pre ++ [p]) !! 0%nat = Some p0) as ->.
    { destruct pre; simpl in *; congruence. }
    cbn [mbind option_bind app pathHits].
    by destruct (edgeHit p p0 y).
  - cbn [seq omap list_omap length].
    assert (pts !! length pre = Some p) as -> by (subst pts; by apply list_lookup_middle).
    assert (length pts = length pre + S (S (length rest)))%nat as Hlen
      by (subst pts; rewrite length_app; done).
    rewrite Nat.mod_small by lia.
    assert (pts !! (length pre + 1)%nat = Some q) as ->.
    { subst pts. rewrite lookup_app_r by lia.
      by replace (length pre + 1 - length pre)%nat with 1%nat by lia. }
    cbn [mbind option_bind app pathHits].
    specialize (IH (pre ++ [p]) q).
    rewrite length_app in IH. cbn [length] in IH.
    replace (length pre + 1)%nat with (S (length pre)) in IH by lia.
    rewrite <- IH; [|by rewrite <- app_assoc|done].
    by destruct (edgeHit p q y).
Qed.

Lemma last_cons_default {A} (l : list A) : ∀ q d,
  List.last (q :: l) d = List.last l q.
Proof.
  induction l as [|r l IH]; intros q d; [done|].
  change (List.last (q :: r :: l) d) with (List.last (r :: l) d).
  by rewrite (IH r d), (IH r q).
Qed.

Lemma pathHits_parity y p l :
  is_num y → is_num (pt_y p) → Forall (λ q, is_num (pt_y q)) l →
  Nat.even (length (pathHits y p l))
  = eqb (pt_y p <=? y) (pt_y (List.last l p) <=? y).
Proof.
  intros Hy. revert p. induction l as [|q l IH]; intros p Hp Hl.
  - simpl. by destruct (_ <=? _).
  - apply Forall_cons in Hl as [Hq Hl].
    rewrite last_cons_default.
    cbn [pathHits]. unfold edgeHit. cbv zeta.
    rewrite crossesScanline_xorb by done.
    destruct (pt_y p <=? y) eqn:Ep, (pt_y q <=? y) eqn:Eq; cbn [xorb length];
      rewrite ?Nat.even_succ, <- ?Nat.negb_even, (IH q Hq Hl), Eq;
      by destruct (pt_y (List.last l q) <=? y).
Qed.

(** A scanline crosses the outline of a polygon an even number of times,
    so [fillpoly] can pair the hits up: [scanlineHits] returns an even
    number of hits when the scanline and the points' [y] are numbers (a NaN
    [y] takes part in no crossing and can leave one hit unpaired). *)
Theorem scanlineHits_even pts y :
  is_num y → Forall (λ p, is_num (pt_y p)) pts →
  Nat.even (length (scanlineHits pts y)) = true.
Proof.
  intros Hy Hpts. unfold scanlineHits. rewrite length_sortSpans.
  destruct pts as [|p0 rest]; [done|].
  pose proof (edges_pathHits y p0 (p0 :: rest) [] p0 rest eq_refl eq_refl) as Hpath.
  cbn [length] in Hpath. cbv zeta. cbn [length]. rewrite Hpath.
  apply Forall_cons in Hpts as [H0 Hrest].
  rewrite pathHits_parity; [|done|done|].
  - rewrite last_last. by destruct (_ <=? _).
  - apply Forall_app. split; [done|]. by constructor.
Qed.

Lemma scanlineHits_even_witness :
  let tri := [mkPt 10 5 1 0 0 1; mkPt 30 25 1 0 0 1; mkPt 5 40 1 0 0 1] in
  length (scanlineHits tri 20) = 2%nat
  ∧ Nat.even (length (scanlineHits tri 20)) = true.
Proof.
  intros tri. split; [reflexivity|].
  apply (scanlineHits_even tri 20); [reflexivity|].
  repeat constructor.
Defined.

(** With a NaN among the points the count can be odd. *)
Lemma scanlineHits_odd_with_nan :
  length (scanlineHits [mkPt 10 5 1 0 0 1; mkPt 30 NaN 1 0 0 1; mkPt 5 40 1 0 0 1] 20)
  = 1%nat.
Proof. reflexivity. Qed.

(** * Face normals *)

(** [computeFaceNormals] throws exactly when a triangle names a missing
    vertex; otherwise it returns one normal for each triangle, the
    [faceNormal] of its three vertices. *)
Theorem computeFaceNormals_returns_iff vertices triangles :
  (is_Some (computeFaceNormals vertices triangles)
   ↔ Forall (triInRange (length vertices)) triangles)
  ∧ ∀ ns, computeFaceNormals vertices triangles = Some ns →
      length ns = length triangles
      ∧ ∀ i tri, triangles !! i = Some tri →
          ∃ v0 v1 v2, vertices !! ta tri = Some v0 ∧ vertices !! tb tri = Some v1
                      ∧ vertices !! tc tri = Some v2
                      ∧ ns !! i = Some (faceNormal v0 v1 v2).
Proof.
  unfold computeFaceNormals. split.
  - rewrite mapM_is_Some. apply Forall_iff. intros tri. unfold triInRange. split.
    + unfold compose. intros [n Hn].
      apply bind_Some in Hn as (v0 & H0 & Hn).
      apply bind_Some in Hn as (v1 & H1 & Hn).
      apply bind_Some in Hn as (v2 & H2 & _).
      apply lookup_lt_Some in H0, H1, H2. done.
    + intros (Ha & Hb & Hc). unfold compose.
      destruct (lookup_lt_is_Some_2 vertices _ Ha) as [v0 ->].
      destruct (lookup_lt_is_Some_2 vertices _ Hb) as [v1 ->].
      destruct (lookup_lt_is_Some_2 vertices _ Hc) as [v2 ->]. done.
  - intros ns Hns. split; [symmetry; by eapply length_mapM|].
    intros i tri Htri. rewrite mapM_Some in Hns.
    destruct (Forall2_lookup_l _ _ _ _ _ Hns Htri) as (n & Hn & Hf).
    apply bind_Some in Hf as (v0 & H0 & Hf).
    apply bind_Some in Hf as (v1 & H1 & Hf).
    apply bind_Some in Hf as (v2 & H2 & Hf). injection Hf as <-.
    by exists v0, v1, v2.
Qed.

(** * Tracing a well-formed scene never throws *)

(** The walk leaves the shared stack with the length it had. *)
Lemma bvhLoop_length {S : Type} ox oy oz dx dy dz nodes
    (onLeaf : S → Z → option (S * bool)) fuel :
  ∀ w stk' s',
    bvhLoop ox oy oz dx dy dz nodes onLeaf fuel w = Some (stk', s') →
    length stk' = length (stack w).
Proof.
  induction fuel as [|fuel IH]; intros w stk' s' H.
  - simpl in H. destruct (stackPtr w); [|done]. by injection H as <- _.
  - simpl in H. destruct (stackPtr w) as [|ptr]; [by injection H as <- _|].
    apply bind_Some in H as (r & Hr & H).
    unfold bvhRound in Hr.
    apply bind_Some in Hr as (i & _ & Hr).
    apply bind_Some in Hr as (node & _ & Hr).
    destruct (negb _).
    { injection Hr as <-. by rewrite (IH _ _ _ H). }
    destruct (0 <=? triIdx node)%Z.
    + apply bind_Some in Hr as ([s stop] & _ & Hr).
      destruct stop; injection Hr as <-.
      * by injection H as <- _.
      * by rewrite (IH _ _ _ H).
    + injection Hr as <-. rewrite (IH _ _ _ H). simpl.
      unfold stackStore. by rewrite !length_insert.
Qed.

Lemma bvhTraverse_length {S : Type} ox oy oz dx dy dz nodes
    (onLeaf : S → Z → option (S * bool)) fuel stk s stk' s' :
  bvhTraverse ox oy oz dx dy dz nodes onLeaf fuel stk s = Some (stk', s') →
  length stk' = length stk.
Proof.
  unfold bvhTraverse. intros H. apply bvhLoop_length in H. simpl in H.
  unfold stackStore in H. by rewrite length_insert in H.
Qed.

(** Over a built tree both queries return, with enough rounds. *)
Lemma bvh_queries_return fuel ox oy oz dx dy dz worldVerts triangles nodes maxT stk :
  (Z.of_nat (length triangles) ≤ 1073741824)%Z →
  buildBVH worldVerts triangles = Some nodes →
  length stk = BVH_STACK_SIZE →
  (length nodes ≤ fuel)%nat →
  is_Some (bvhAnyHit fuel ox oy oz dx dy dz nodes worldVerts triangles maxT stk)
  ∧ is_Some (bvhClosestHit fuel ox oy oz dx dy dz nodes worldVerts triangles maxT stk).
Proof.
  intros Hsmall Hb Hlen Hfuel.
  destruct (decide (triangles = [])) as [->|Hne].
  { injection Hb as <-. done. }
  destruct (buildBVH_tree _ _ _ Hne ltac:(lia) Hb)
    as (t & -> & Hleaves & _ & Hbal & _ & Hvalid).
  assert (length (leaves t) = length triangles) as Hcount
    by (by rewrite Hleaves, length_seq).
  pose proof (log2_up_js_array (length triangles) ltac:(lia)) as Hlog.
  pose proof (balanced_height_log2 t Hbal) as Hheight. rewrite Hcount in Hheight.
  pose proof (size_pos t) as Hpos.
  rewrite length_fmap, length_flat in Hfuel.
  assert (Forall (λ i, is_Some (triVerts worldVerts triangles i))
            (visit ox oy oz dx dy dz t)) as Hvisit.
  { apply Forall_forall. intros i Hi.
    eapply (proj1 (Forall_forall _ _) Hvalid). by eapply visit_leaves. }
  unfold bvhAnyHit, bvhClosestHit.
  rewrite length_fmap, length_flat.
  case_decide; [lia|]. split.
  - destruct (bvhTraverse_tree ox oy oz dx dy dz (Some <$> flat 0 t)
                (anyLeaf ox oy oz dx dy dz worldVerts triangles maxT)
                t fuel stk false) as (stk' & ->);
      [apply holds_flat|done|unfold BVH_STACK_SIZE; lia
      |rewrite size_leaves, Hcount; lia|done|].
    destruct (anyLeaf_run ox oy oz dx dy dz worldVerts triangles maxT _ Hvisit)
      as (found & stop & -> & _). done.
  - destruct (bvhTraverse_tree ox oy oz dx dy dz (Some <$> flat 0 t)
                (closestLeaf ox oy oz dx dy dz worldVerts triangles)
                t fuel stk (maxT, (-1)%Z, None)) as (stk' & ->);
      [apply holds_flat|done|unfold BVH_STACK_SIZE; lia
      |rewrite size_leaves, Hcount; lia|done|].
    destruct (closestLeaf_run ox oy oz dx dy dz worldVerts triangles maxT _
                (maxT, (-1)%Z, None) [] Hvisit) as ([[bt bi] bh] & -> & _); [|done].
    left. split; [done|]. split; [done|]. intros t0 Ht0. by apply elem_of_nil in Ht0.
Qed.

(** A hit of [bvhClosestHit] names a triangle of the list, with its three
    vertices, and carries the hit record. *)
Lemma bvhClosestHit_hit_valid fuel ox oy oz dx dy dz nodes worldVerts triangles
    maxT stk stk' h :
  bvhClosestHit fuel ox oy oz dx dy dz nodes worldVerts triangles maxT stk
    = Some (stk', Some h) →
  ∃ tri, (0 ≤ oh_triIdx h)%Z
         ∧ triangles !! Z.to_nat (oh_triIdx h) = Some tri
         ∧ triInRange (length worldVerts) tri
         ∧ is_Some (oh_hit h).
Proof.
  unfold bvhClosestHit. case_decide; [done|]. intros Hq.
  apply bind_Some in Hq as ([stk1 [[bestT bestTriIdx] bestHit]] & Hwalk & Hq).
  injection Hq as -> Hq.
  destruct (Z.leb_spec 0 bestTriIdx) as [Hidx|]; [|done]. injection Hq as <-.
  pose (P := λ best : Best,
    (0 ≤ best.1.2)%Z →
    is_Some (triVerts worldVerts triangles (Z.to_nat best.1.2)) ∧ is_Some best.2).
  assert (P (bestT, bestTriIdx, bestHit)) as HP.
  { apply (bvhTraverse_keeps ox oy oz dx dy dz nodes
             (closestLeaf ox oy oz dx dy dz worldVerts triangles) P)
      with (fuel := fuel) (stk := stk) (s := (maxT, (-1)%Z, None)) (stk' := stk');
      [|unfold P; simpl; lia|done].
    intros best i best' b Hi Hbest Hleaf. unfold closestLeaf in Hleaf.
    apply bind_Some in Hleaf as ([[v0 v1] v2] & Hv & Hleaf).
    destruct (rayTriangleIntersect ox oy oz dx dy dz v0 v1 v2) as [hit|];
      [|by injection Hleaf as <- _].
    destruct (hit_t hit <? best.1.1); injection Hleaf as <- _; [|done].
    intros _. simpl. by rewrite Hv. }
  destruct (HP Hidx) as [Hv Hh]. simpl in *.
  destruct (triVerts_is_Some _ _ _ Hv) as (tri & Htri & Hrange).
  exists tri. done.
Qed.

(** A computation that returns from every state whose stack has its 64
    cells, with a result that satisfies [Q] and the stack still whole. *)
Definition returns {A} (Q : A → Prop) (m : M A) : Prop :=
  ∀ g, length (_bvhStack g) = BVH_STACK_SIZE →
    ∃ a g', m g = Some (a, g') ∧ Q a ∧ length (_bvhStack g') = BVH_STACK_SIZE.

Lemma returns_ret {A} (Q : A → Prop) (a : A) : Q a → returns Q (retM a).
Proof. intros Ha g Hg. by exists a, g. Qed.

Lemma returns_bind {A B} (Q : A → Prop) (R : B → Prop) (m : M A) (k : A → M B) :
  returns Q m → (∀ a, Q a → returns R (k a)) → returns R (bindM m k).
Proof.
  intros Hm Hk g Hg. destruct (Hm g Hg) as (a & g1 & Hmg & Ha & Hg1).
  destruct (Hk a Ha g1 Hg1) as (b & g2 & Hkb & Hb & Hg2).
  exists b, g2. unfold bindM. rewrite Hmg. done.
Qed.

Lemma returns_weaken {A} (Q Q' : A → Prop) (m : M A) :
  returns Q m → (∀ a, Q a → Q' a) → returns Q' m.
Proof.
  intros Hm HQ g Hg. destruct (Hm g Hg) as (a & g' & ? & ? & ?).
  exists a, g'. split; [done|]. split; [by apply HQ|done].
Qed.

Lemma returns_lift {A} (o : option A) : is_Some o → returns (λ a, o = Some a) (liftM o).
Proof. intros [a ->]. by apply returns_ret. Qed.

Lemma returns_fastRand : returns (λ _, True) fastRand.
Proof. intros g Hg. eexists _, _. split; [reflexivity|]. done. Qed.

(** An object as [transformMesh] builds it from a well-formed mesh: the
    BVH is the one of its own triangles, there is a colour for every
    triangle, and a normal for every vertex or for every face. *)
Definition wellFormedObj (obj : SceneObj) : Prop :=
  buildBVH (worldVerts obj) (triangles obj) = Some (bvhNodes obj)
  ∧ (Z.of_nat (length (triangles obj)) ≤ 1073741824)%Z
  ∧ (length (triangles obj) ≤ length (colors obj))%nat
  ∧ match worldVertexNormals obj with
    | Some vn => (length (worldVerts obj) ≤ length vn)%nat
    | None =>
        triangles obj = []
        ∨ ∃ fns, worldFaceNormals obj = Some fns
                 ∧ (length (triangles obj) ≤ length fns)%nat
    end.

(** A scene the walks can cover in [fuel] rounds. *)
Definition wellFormedScene (fuel : nat) (scene : list SceneObj) : Prop :=
  Forall (λ obj, wellFormedObj obj ∧ (length (bvhNodes obj) ≤ fuel)%nat) scene.

Lemma returns_anyHit fuel ox oy oz dx dy dz obj maxDist :
  wellFormedObj obj → (length (bvhNodes obj) ≤ fuel)%nat →
  returns (λ _, True)
    (withStack (bvhAnyHit fuel ox oy oz dx dy dz (bvhNodes obj) (worldVerts obj)
                  (triangles obj) maxDist)).
Proof.
  intros (Hb & Hsmall & _) Hfuel g Hg. unfold withStack.
  destruct (bvh_queries_return fuel ox oy oz dx dy dz _ _ _ maxDist (_bvhStack g)
              Hsmall Hb Hg Hfuel) as [[[stk' b] Hany] _].
  rewrite Hany. eexists _, _. split; [reflexivity|]. split; [done|]. simpl.
  unfold bvhAnyHit in Hany. case_decide; [by injection Hany as <- _|].
  apply bvhTraverse_length in Hany. congruence.
Qed.

Lemma returns_closestHit fuel ox oy oz dx dy dz obj maxT :
  wellFormedObj obj → (length (bvhNodes obj) ≤ fuel)%nat →
  returns (λ r, ∀ h, r = Some h →
             ∃ tri, (0 ≤ oh_triIdx h)%Z
                    ∧ triangles obj !! Z.to_nat (oh_triIdx h) = Some tri
                    ∧ triInRange (length (worldVerts obj)) tri
                    ∧ is_Some (oh_hit h))
    (intersectObject fuel ox oy oz dx dy dz obj maxT).
Proof.
  intros (Hb & Hsmall & _) Hfuel g Hg. unfold intersectObject, withStack.
  destruct (bvh_queries_return fuel ox oy oz dx dy dz _ _ _ maxT (_bvhStack g)
              Hsmall Hb Hg Hfuel) as [_ [[stk' r] Hclosest]].
  rewrite Hclosest. eexists _, _. split; [reflexivity|]. split.
  - intros h ->. by eapply bvhClosestHit_hit_valid.
  - simpl. unfold bvhClosestHit in Hclosest.
    case_decide; [by injection Hclosest as <- _|].
    apply bind_Some in Hclosest as ([stk1 best] & Hwalk & Hq).
    destruct best as [[bt bi] bh]. injection Hq as <- _.
    apply bvhTraverse_length in Hwalk. congruence.
Qed.

Lemma returns_sceneAnyHitFrom fuel ox oy oz dx dy dz objs :
  ∀ oi maxDist skipObj,
    wellFormedScene fuel objs →
    returns (λ _, True) (sceneAnyHitFrom fuel ox oy oz dx dy dz objs oi maxDist skipObj).
Proof.
  induction objs as [|obj rest IH]; intros oi maxDist skipObj Hwf; simpl.
  - by apply returns_ret.
  - apply Forall_cons in Hwf as [[Hobj Hfuel] Hrest].
    case_decide; [by apply IH|].
    eapply returns_bind; [by apply returns_anyHit|].
    intros [|] _; [by apply returns_ret|by apply IH].
Qed.

Lemma returns_sceneAnyHit fuel ox oy oz dx dy dz scene maxDist skipObj :
  wellFormedScene fuel scene →
  returns (λ _, True) (sceneAnyHit fuel ox oy oz dx dy dz scene maxDist skipObj).
Proof.
  intros Hwf. unfold sceneAnyHit.
  eapply returns_bind; [by apply returns_sceneAnyHitFrom|].
  intros [|] _; [|destruct (_ && _)]; by apply returns_ret.
Qed.

Lemma returns_shadowTest fuel ox oy oz scene origObjIdx :
  wellFormedScene fuel scene →
  returns (λ _, True) (shadowTest fuel ox oy oz scene origObjIdx).
Proof.
  intros Hwf. unfold shadowTest.
  apply (returns_bind (λ _, True)); [|intros blocked _; by apply returns_ret].
  generalize RT_SHADOW_SAMPLES (0 : number).
  induction n as [|s IH]; intros blocked; cbn [shadowLoop]; [by apply returns_ret|].
  do 3 (eapply returns_bind; [apply returns_fastRand|intros ? _]).
  cbv zeta. eapply returns_bind; [by apply returns_sceneAnyHit|].
  intros b _. apply IH.
Qed.

Lemma returns_sampleHemisphere nx ny nz :
  returns (λ _, True) (sampleHemisphere nx ny nz).
Proof.
  unfold sampleHemisphere.
  do 3 (eapply returns_bind; [apply returns_fastRand|intros ? _]).
  cbv zeta. destruct (_ <? 0.01); [|destruct (_ <? 0)]; by apply returns_ret.
Qed.

Lemma returns_aoTest fuel ox oy oz nx ny nz scene origObjIdx :
  wellFormedScene fuel scene →
  returns (λ _, True) (aoTest fuel ox oy oz nx ny nz scene origObjIdx).
Proof.
  intros Hwf. unfold aoTest.
  apply (returns_bind (λ _, True)); [|intros occluded _; by apply returns_ret].
  generalize RT_AO_SAMPLES (0 : number).
  induction n as [|s IH]; intros occluded; cbn [aoLoop]; [by apply returns_ret|].
  eapply returns_bind; [apply returns_sampleHemisphere|].
  intros [d|] _; [|apply IH].
  eapply returns_bind; [by apply returns_sceneAnyHit|].
  intros b _. apply IH.
Qed.

Lemma interpolateNormal_returns obj tri hit i :
  wellFormedObj obj →
  triangles obj !! i = Some tri →
  triInRange (length (worldVerts obj)) tri →
  is_Some (interpolateNormal tri hit (worldVertexNormals obj) (worldFaceNormals obj)
             (Z.of_nat i)).
Proof.
  intros (_ & _ & _ & Hn) Htri (Ha & Hb & Hc). unfold interpolateNormal.
  destruct (worldVertexNormals obj) as [vn|].
  - destruct (lookup_lt_is_Some_2 vn (ta tri)) as [n0 ->]; [lia|].
    destruct (lookup_lt_is_Some_2 vn (tb tri)) as [n1 ->]; [lia|].
    destruct (lookup_lt_is_Some_2 vn (tc tri)) as [n2 ->]; [lia|]. done.
  - destruct Hn as [Hnil|(fns & -> & Hlen)]; [by rewrite Hnil in Htri|].
    simpl. rewrite Nat2Z.id.
    apply lookup_lt_Some in Htri.
    destruct (lookup_lt_is_Some_2 fns i) as [fn ->]; [lia|]. done.
Qed.

Lemma returns_sceneIntersectFrom fuel ox oy oz dx dy dz objs :
  ∀ oi skipObj closestT result,
    wellFormedScene fuel objs →
    (∀ h, result = Some h → is_Some (sh_color h)) →
    returns (λ r, ∀ h, r.2 = Some h → is_Some (sh_color h))
      (sceneIntersectFrom fuel ox oy oz dx dy dz objs oi skipObj closestT result).
Proof.
  induction objs as [|obj rest IH]; intros oi skipObj closestT result Hwf Hres; simpl.
  - by apply returns_ret.
  - apply Forall_cons in Hwf as [[Hobj Hfuel] Hrest].
    case_decide; [by apply IH|].
    eapply returns_bind; [by apply returns_closestHit|].
    intros [oh|] Hoh; [|by apply IH].
    destruct (Hoh oh eq_refl) as (tri & Hidx & Htri & Hrange & Hhit).
    eapply returns_bind; [apply returns_lift; by rewrite Htri|].
    intros tri' Etri. rewrite Htri in Etri. injection Etri as <-.
    eapply returns_bind; [by apply returns_lift|].
    intros hit Ehit.
    eapply returns_bind.
    { apply returns_lift.
      rewrite <- (Z2Nat.id (oh_triIdx oh)) by done.
      by apply interpolateNormal_returns. }
    intros n _. apply IH; [done|].
    intros h [= <-]. simpl.
    destruct Hobj as (_ & _ & Hcolors & _).
    apply lookup_lt_is_Some_2. apply lookup_lt_Some in Htri. lia.
Qed.

Lemma returns_sceneIntersect fuel ox oy oz dx dy dz scene skipObj :
  wellFormedScene fuel scene →
  returns (λ r, ∀ h, r = Some h → is_Some (sh_color h))
    (sceneIntersect fuel ox oy oz dx dy dz scene skipObj).
Proof.
  intros Hwf. unfold sceneIntersect.
  eapply returns_bind; [by apply returns_sceneIntersectFrom|].
  intros [closestT result] Hres. simpl in Hres.
  case_bool_decide; [by apply returns_ret|].
  destruct (envIntersect _ _ _ _ _ _) as [eh|]; [|by apply returns_ret].
  destruct (_ <? _); [|by apply returns_ret].
  apply returns_ret. intros h [= <-]. done.
Qed.

(** [traceRay] never throws on a well-formed scene: from every state of
    the globals in which the shared stack has its 64 cells it returns a
    colour, whatever the ray, the depth and the object to skip, and leaves
    the stack with 64 cells. *)
Theorem traceRay_returns Math_pow sky fuel scene depth :
  wellFormedScene fuel scene →
  ∀ ox oy oz dx dy dz skipObj g,
    length (_bvhStack g) = BVH_STACK_SIZE →
    ∃ c g', traceRay Math_pow sky fuel ox oy oz dx dy dz scene depth skipObj g
              = Some (c, g')
            ∧ length (_bvhStack g') = BVH_STACK_SIZE.
Proof.
  intros Hwf.
  assert (∀ ox oy oz dx dy dz skipObj,
            returns (λ _, True)
              (traceRay Math_pow sky fuel ox oy oz dx dy dz scene depth skipObj)) as H.
  { induction depth as [|depth IH]; intros ox oy oz dx dy dz skipObj; cbn [traceRay].
    - eapply returns_bind; [by apply returns_sceneIntersect|].
      intros [h|] Hh; [|by apply returns_ret].
      eapply returns_bind; [by apply returns_shadowTest|intros shadow _].
      eapply returns_bind; [by apply returns_aoTest|intros ao _].
      eapply returns_bind; [apply returns_lift; by apply Hh|intros color _].
      eapply returns_bind; [by apply (returns_ret (λ _, True))|intros [[r gr] b] _].
      by apply returns_ret.
    - eapply returns_bind; [by apply returns_sceneIntersect|].
      intros [h|] Hh; [|by apply returns_ret].
      eapply returns_bind; [by apply returns_shadowTest|intros shadow _].
      eapply returns_bind; [by apply returns_aoTest|intros ao _].
      eapply returns_bind; [apply returns_lift; by apply Hh|intros color _].
      apply (returns_bind (λ _, True)); [|intros [[r gr] b] _; by apply returns_ret].
      destruct (gtb (sh_reflectivity h) 0); [|by apply (returns_ret (λ _, True))].
      destruct (_ <? 0); [|by apply (returns_ret (λ _, True))].
      eapply returns_bind; [apply IH|intros ref _; by apply (returns_ret (λ _, True))]. }
  intros ox oy oz dx dy dz skipObj g Hg.
  destruct (H ox oy oz dx dy dz skipObj g Hg) as (c & g' & Hrun & _ & Hg').
  by exists c, g'.
Qed.

Lemma traceRay_returns_witness :
  ∃ c g', traceRay examplePow None 4 0 0 camZ 0 0 1 exampleScene 3 (-1)
            (exampleGlobals 0 0) = Some (c, g')
          ∧ length (_bvhStack g') = BVH_STACK_SIZE.
Proof.
  apply (traceRay_returns examplePow None 4 exampleScene 3); [|reflexivity].
  constructor; [|constructor]. split; [|vm_compute; lia].
  split; [vm_compute; reflexivity|]. split; [simpl; lia|]. split; [simpl; lia|].
  right. eexists. split; [reflexivity|]. simpl. lia.
Defined.

(** * From the generated mesh to a scene object *)

(** A loop whose rounds each add at most [c] to a measure adds at most
    [n * c]. *)
Lemma forM_adds {A} (f : A → nat) (c n : nat) (body : nat → A → option A) (a a' : A) :
  (∀ i x x', body i x = Some x' → (f x' ≤ f x + c)%nat) →
  forM n body a = Some a' → (f a' ≤ f a + n * c)%nat.
Proof.
  intros Hbody. revert a'. induction n as [|n IH]; intros a'.
  - intros [= <-]. lia.
  - rewrite forM_S. intros Hr. apply bind_Some in Hr as (x & Hx & Hb).
    specialize (IH x Hx). specialize (Hbody n x a' Hb). lia.
Qed.

Lemma crossEdges_adds ix iy iz n threshold edges vals poss es :
  ∀ vertices m evs vertices' m',
    crossEdges ix iy iz n threshold edges vals poss es vertices m
      = Some (evs, vertices', m') →
    (length vertices' ≤ length vertices + length es)%nat.
Proof.
  induction es as [|e es IH]; intros vertices m evs vertices' m' H.
  - injection H as _ <- _. simpl. lia.
  - cbn [crossEdges] in H. case_decide.
    + apply bind_Some in H as ([[evs1 vs1] m1] & Hrec & H). injection H as _ <- _.
      apply IH in Hrec. simpl. lia.
    + apply bind_Some in H as ([c1 c2] & _ & H).
      apply bind_Some in H as (g1 & _ & H).
      apply bind_Some in H as (g2 & _ & H). cbv zeta in H.
      destruct (m !! edgeKey n g1 g2).
      * apply bind_Some in H as ([[evs1 vs1] m1] & Hrec & H). injection H as _ <- _.
        apply IH in Hrec. simpl. lia.
      * apply bind_Some in H as (p1 & _ & H).
        apply bind_Some in H as (p2 & _ & H).
        apply bind_Some in H as (v1 & _ & H).
        apply bind_Some in H as (v2 & _ & H).
        apply bind_Some in H as ([[evs1 vs1] m1] & Hrec & H). injection H as _ <- _.
        apply IH in Hrec. rewrite length_app in Hrec. simpl in *. lia.
Qed.

Lemma emitTriangles_adds evs : ∀ k row tris tris',
  (length row ≤ 3 * k + 2)%nat →
  emitTriangles evs row tris = Some tris' →
  (length tris' ≤ length tris + k)%nat.
Proof.
  induction k as [|k IH]; intros row tris tris' Hlen H.
  - destruct row as [|a rest]; [injection H as <-; lia|].
    cbn [emitTriangles] in H. case_decide; [injection H as <-; lia|].
    destruct rest as [|b [|c rest']]; [done..|]. simpl in Hlen. lia.
  - destruct row as [|a rest]; [injection H as <-; lia|].
    cbn [emitTriangles] in H. case_decide; [injection H as <-; lia|].
    destruct rest as [|b [|c rest']]; [done..|].
    apply bind_Some in H as (i & _ & H).
    apply bind_Some in H as (j & _ & H).
    apply bind_Some in H as (l & _ & H).
    apply IH in H; [|simpl in Hlen; lia].
    rewrite length_app in H. simpl in H. lia.
Qed.

Lemma TRI_TABLE_rows row ci : TRI_TABLE !! ci = Some row → (length row ≤ 16)%nat.
Proof.
  assert (forallb (λ r, length r <=? 16)%nat TRI_TABLE = true) as H
    by (vm_compute; reflexivity).
  rewrite forallb_forall in H. intros Hrow.
  apply Nat.leb_le, H. apply list_elem_of_In. by eapply list_elem_of_lookup_2.
Qed.

Lemma processCell_adds ix iy iz field n gridMin cellSize threshold st st' :
  processCell ix iy iz field n gridMin cellSize threshold st = Some st' →
  (length (mc_vertices st') ≤ length (mc_vertices st) + 12)%nat
  ∧ (length (mc_triangles st') ≤ length (mc_triangles st) + 5)%nat.
Proof.
  unfold processCell. intros H.
  apply bind_Some in H as ([[vals poss] ci] & _ & H).
  apply bind_Some in H as (edges & _ & H).
  case_decide; [injection H as <-; lia|].
  apply bind_Some in H as ([[evs vs] m] & Hcross & H).
  apply bind_Some in H as (row & Hrow & H).
  apply bind_Some in H as (tris & Hemit & H). injection H as <-. simpl.
  apply crossEdges_adds in Hcross. rewrite length_seq in Hcross.
  apply (emitTriangles_adds evs 5) in Hemit; [lia|].
  apply TRI_TABLE_rows in Hrow. lia.
Qed.

(** The additions of the cells, summed over the three loops. *)
Lemma marchingCubes_adds field res gridMin cellSize threshold vs ts :
  marchingCubes field res gridMin cellSize threshold = Some (vs, ts) →
  (length vs ≤ 12 * res ^ 3)%nat ∧ (length ts ≤ 5 * res ^ 3)%nat.
Proof.
  unfold marchingCubes. intros H.
  apply bind_Some in H as (st & Hloop & H). injection H as <- <-.
  assert (∀ (f : McState → nat) c,
            (∀ ix iy iz s s',
               processCell ix iy iz field (res + 1) gridMin cellSize threshold s = Some s' →
               (f s' ≤ f s + c)%nat) →
            (f st ≤ f (mkMcState [] [] ∅) + res * (res * (res * c)))%nat) as Hsum.
  { intros f c Hcell.
    apply (forM_adds f (res * (res * c)) res _ _ _) in Hloop; [done|].
    intros iz s s' Hz. apply (forM_adds f (res * c) res _ _ _) in Hz; [done|].
    intros iy s1 s1' Hy. apply (forM_adds f c res _ _ _) in Hy; [done|].
    intros ix s2 s2'. apply Hcell. }
  split.
  - specialize (Hsum (λ s, length (mc_vertices s)) 12%nat). simpl in Hsum.
    lapply Hsum; [intros Hle|intros ix iy iz s s' Hc; by apply processCell_adds in Hc as [? _]].
    replace (res ^ 3)%nat with (res * (res * res))%nat by (simpl; lia). nia.
  - specialize (Hsum (λ s, length (mc_triangles s)) 5%nat). simpl in Hsum.
    lapply Hsum; [intros Hle|intros ix iy iz s s' Hc; by apply processCell_adds in Hc as [_ ?]].
    replace (res ^ 3)%nat with (res * (res * res))%nat by (simpl; lia). nia.
Qed.

(** [marchingCubes] makes at most 12 vertices and 5 triangles for each
    of the [res^3] cells. *)
Theorem marchingCubes_size field res gridMin cellSize threshold vs ts :
  marchingCubes field res gridMin cellSize threshold = Some (vs, ts) →
  (length vs ≤ 12 * res ^ 3)%nat ∧ (length ts ≤ 5 * res ^ 3)%nat.
Proof. exact (marchingCubes_adds field res gridMin cellSize threshold vs ts). Qed.

Lemma marchingCubes_size_witness :
  ∃ vs ts,
    marchingCubes (evaluateField [mkBall 0 0 0 1] (Vec3 (-1.5) (-1.5) (-1.5)) 1 3)
      3 (Vec3 (-1.5) (-1.5) (-1.5)) 1 1 = Some (vs, ts)
    ∧ (length vs ≤ 12 * 3 ^ 3)%nat ∧ (length ts ≤ 5 * 3 ^ 3)%nat.
Proof.
  destruct (marchingCubes (evaluateField [mkBall 0 0 0 1] (Vec3 (-1.5) (-1.5) (-1.5)) 1 3)
              3 (Vec3 (-1.5) (-1.5) (-1.5)) 1 1) as [[vs ts]|] eqn:H;
    [|by vm_compute in H].
  exists vs, ts. split; [reflexivity|].
  exact (marchingCubes_size _ 3 _ 1 1 vs ts H).
Defined.

(** The BVH of the transformed vertices is built, and the object has what
    [wellFormedObj] asks for. *)
Lemma transformMesh_total Math_cos Math_sin vertices triangles colors
    rx ry rz ox oy oz vertexNormals faceNormals reflectivity :
  Forall (triInRange (length vertices)) triangles →
  (Z.of_nat (length triangles) ≤ 1073741824)%Z →
  (length triangles ≤ length colors)%nat →
  match vertexNormals with
  | Some vn => (length vertices ≤ length vn)%nat
  | None => triangles = []
            ∨ ∃ fns, faceNormals = Some fns ∧ (length triangles ≤ length fns)%nat
  end →
  ∃ wm rot,
    transformMesh Math_cos Math_sin vertices triangles colors rx ry rz ox oy oz
      vertexNormals faceNormals reflectivity = Some (wm, rot)
    ∧ rot = mkRotation rx ry rz
    ∧ length (worldVerts (wm_obj wm)) = length vertices
    ∧ wellFormedObj (wm_obj wm).
Proof.
  intros Hrange Hsmall Hcolors Hnormals. unfold transformMesh. cbv zeta.
  set (rc := rotationCache _ _ _).
  set (wv := map _ vertices).
  assert (length wv = length vertices) as Hwv by apply length_map.
  destruct (buildBVH_returns wv triangles) as [nodes Hb]; [lia|by rewrite Hwv|].
  rewrite Hb. cbn [mbind option_bind].
  assert (∃ lo hi, match nodes with
                   | [] => Some (Vec3 0 0 0, Vec3 0 0 0)
                   | Some root :: _ => Some (bmin root, bmax root)
                   | None :: _ => None
                   end = Some (lo, hi)) as (lo & hi & ->).
  { destruct (decide (triangles = [])) as [->|Hne].
    - injection Hb as <-. by eexists _, _.
    - destruct (buildBVH_tree _ _ _ Hne ltac:(lia) Hb) as (t & -> & _).
      destruct t; simpl; by eexists _, _. }
  cbn [mbind option_bind].
  eexists _, _. split; [reflexivity|]. split; [done|]. simpl.
  split; [done|]. unfold wellFormedObj. simpl.
  split; [done|]. split; [done|]. split; [done|].
  destruct vertexNormals as [vn|]; simpl.
  - rewrite length_map. lia.
  - destruct Hnormals as [->|(fns & -> & Hlen)]; [by left|].
    right. eexists. split; [done|]. by rewrite length_map.
Qed.



(** The per-frame path of the metaball object: for a non-empty ball
    list and a grid of at most 598 cells a side (so at most 2^30
    triangles), [generateMetaballMesh] returns a mesh that, with a colour
    per triangle and its own normals, goes through [transformMesh] without
    a throw, whatever the rotation and the offset, and comes out well
    formed for the tracer. *)
Theorem metaball_object_well_formed Math_cos Math_sin balls res threshold :
  balls ≠ [] →
  (res ≤ 598)%nat →
  ∃ m, generateMetaballMesh balls res threshold = Some m
       ∧ ∀ colors rx ry rz ox oy oz reflectivity,
           (length (mesh_triangles m) ≤ length colors)%nat →
           ∃ wm rot,
             transformMesh Math_cos Math_sin (vertices m) (mesh_triangles m) colors
               rx ry rz ox oy oz (normals m) None reflectivity = Some (wm, rot)
             ∧ wellFormedObj (wm_obj wm).
Proof.
  intros Hne Hres. unfold generateMetaballMesh.
  case_decide as Hlen; [destruct balls; [done|simpl in Hlen; lia]|].
  destruct (ballBounds balls) as [mn mx]. cbv zeta.
  set (gridMin := Vec3 _ _ _). set (cellSize := _ / num_of_nat res).
  destruct (marchingCubes_total (evaluateField balls gridMin cellSize res) res
              gridMin cellSize threshold) as (vs & ts & Hmc & Hts).
  rewrite Hmc. cbn [mbind option_bind].
  destruct (marchingCubes_adds _ _ _ _ _ _ _ Hmc) as [_ Hcount].
  destruct (smoothMesh_returns vs ts balls threshold 2 Hts) as (vs' & -> & Hvs').
  cbn [mbind option_bind].
  assert (Z.of_nat (length ts) ≤ 1073741824)%Z as Hsmall.
  { assert (res ^ 3 ≤ 598 ^ 3)%nat by (apply Nat.pow_le_mono_l; lia).
    assert (Z.of_nat (598 ^ 3) = 213847192)%Z as E.
    { rewrite Nat2Z.inj_pow. reflexivity. }
    lia. }
  eexists. split; [reflexivity|]. simpl.
  intros colors rx ry rz ox oy oz reflectivity Hcolors.
  destruct (transformMesh_total Math_cos Math_sin vs' ts colors rx ry rz ox oy oz
              (Some (computeMetaballNormals vs' balls)) None reflectivity)
    as (wm & rot & Htm & _ & _ & Hwf);
    [by rewrite Hvs'|done|done|unfold computeMetaballNormals; by rewrite length_map|].
  by exists wm, rot.
Qed.

Lemma metaball_object_well_formed_witness :
  ∃ m, generateMetaballMesh [mkBall 0 0 0 1] 3 1 = Some m
       ∧ length (mesh_triangles m) = 44%nat
       ∧ ∃ wm rot,
           transformMesh (λ _, 1) (λ _, 0) (vertices m) (mesh_triangles m)
             (replicate 44 (Vec3 180 190 200)) 0 0.3 0 150 (-10) 100 (normals m) None
             (Some 0.2) = Some (wm, rot)
           ∧ wellFormedObj (wm_obj wm).
Proof.
  destruct (metaball_object_well_formed (λ _, 1) (λ _, 0) [mkBall 0 0 0 1] 3 1)
    as (m & Hm & Hall); [discriminate|lia|].
  assert (length (mesh_triangles m) = 44%nat) as Hcount.
  { vm_compute in Hm. injection Hm as <-. reflexivity. }
  exists m. split; [exact Hm|]. split; [exact Hcount|].
  apply Hall. rewrite Hcount, length_replicate. lia.
Defined.
